(** * discoveryjs/cli: the streaming JSON encoder and the HTML data printer

    A shallow embedding of [lib/shared/html-compressed-data-printer.js]
    (the chunk printer) and of the [JsonStringifyStream] class that follows
    it in the same source unit (a fork of json-stream-stringify), with the
    properties the specification states about them.

    Conventions of the embedding.
    - JavaScript strings are [string]; the model covers strings whose
      characters are single bytes, so that [data.length] and the number of
      bytes [Buffer.write] stores coincide.
    - Objects, arrays, promises and readable streams live in a heap and are
      referred to by address, so that identity (the [WeakSet] of visited
      values) and sharing are the ones of the program.
    - Finite numbers are integers printed in decimal.
    - A method that can throw returns a [result]; the state carried by
      [Throw] is the state at the point of the throw, because the mutations
      made before it persist.
    - The host's [Readable] is represented by what the class hands to it:
      [super.push] and [emit('error')] append to the [output] log. *)

From Stdlib Require Import ZArith Ascii String DecimalString DecimalNat.
From stdpp Require Import gmap strings list.

(** ** Text *)

Definition chr (n : nat) : ascii := ascii_of_nat n.
Definition str1 (c : ascii) : string := String c EmptyString.

Definition dquote : string := str1 (chr 34).
Definition backslash : string := str1 (chr 92).
Definition newline : string := str1 (chr 10).

Definition bytes (s : string) : list ascii := list_ascii_of_string s.
Definition text (b : list ascii) : string := string_of_list_ascii b.

(** [s.slice(0, n)] and [s.slice(n)] for [0 <= n]. *)
Definition slice_to (n : nat) (s : string) : string := text (take n (bytes s)).
Definition slice_from (n : nat) (s : string) : string := text (drop n (bytes s)).

Fixpoint repeat_string (s : string) (n : nat) : string :=
  match n with
  | O => EmptyString
  | S k => s +:+ repeat_string s k
  end.

Definition nat_to_string (n : nat) : string := NilZero.string_of_uint (Nat.to_uint n).
Definition Z_to_string (z : Z) : string := NilZero.string_of_int (Z.to_int z).

Definition hex_digit (n : nat) : string :=
  str1 (nth n (bytes "0123456789abcdef") (chr 48)).

(** [JSON.stringify] of one character of a string. *)
Definition quote_char (c : ascii) : string :=
  let n := nat_of_ascii c in
  if Nat.eqb n 34 then backslash +:+ dquote
  else if Nat.eqb n 92 then backslash +:+ backslash
  else if Nat.eqb n 8 then backslash +:+ "b"
  else if Nat.eqb n 9 then backslash +:+ "t"
  else if Nat.eqb n 10 then backslash +:+ "n"
  else if Nat.eqb n 12 then backslash +:+ "f"
  else if Nat.eqb n 13 then backslash +:+ "r"
  else if Nat.ltb n 32 then backslash +:+ "u00" +:+ hex_digit (n / 16) +:+ hex_digit (n mod 16)
  else str1 c.

Fixpoint quote_body (s : string) : string :=
  match s with
  | EmptyString => EmptyString
  | String c rest => quote_char c +:+ quote_body rest
  end.

(** [function quoteString(string) { return JSON.stringify(string); }] *)
Definition quoteString (s : string) : string := dquote +:+ quote_body s +:+ dquote.

(** ** Values *)

Definition addr := nat.

Inductive number :=
| Finite (z : Z)
| NaN
| Infinity (negative : bool).

Inductive error :=
| CircularStructure        (* 'Converting circular structure to JSON' *)
| StreamAlreadyEnded       (* 'Readable Stream has ended before it was serialized...' *)
| StreamUncontrolledMode   (* 'Readable Stream is in flowing mode, data may have been lost...' *)
| UnknownType (typeof : string)
| TypeError
| RangeError
| Upstream (reason : string).

Inductive value :=
| VUndefined
| VNull
| VBoolean (b : bool)
| VNumber (n : number)
| VString (s : string)
| VBigInt (z : Z)
| VFunction
| VSymbol
| VRef (a : addr).

Inductive settled :=
| Fulfilled (v : value)
| Rejected (e : error).

(** A readable stream as the encoder observes it: the properties it tests
    when the stream is attached, and the results its successive
    non-blocking [read] calls return ([None] is [null]; after the script is
    exhausted every read returns [null]). *)
Record readable := Readable {
  objectMode : bool;
  readableEnded : bool;
  readableFlowing : bool;
  is_readable : bool;           (* value.readable *)
  readableLength : nat;
  script : list (option value)
}.

Inductive shape :=
| Plain (entries : list (string * value))
| ArrayOf (items : list value)
| Thenable (outcome : settled)
| Stream (st : readable).

Record object := Obj {
  toJSON : option value;       (* what value.toJSON() returns, when the method exists *)
  obj_shape : shape
}.

Definition plain (entries : list (string * value)) : object := Obj None (Plain entries).
Definition array (items : list value) : object := Obj None (ArrayOf items).
Definition promise (outcome : settled) : object := Obj None (Thenable outcome).
Definition stream (st : readable) : object := Obj None (Stream st).

Definition heap := gmap addr object.

(** An address outside the heap does not occur in a well-formed input; it
    reads as an object with no own keys. *)
Definition deref (h : heap) (a : addr) : object := default (plain []) (h !! a).

(** ** Type tags *)

Inductive type_tag :=
| PrimitiveType
| PromiseType
| ArrayType
| ObjectType
| ReadableStringType
| ReadableObjectType.

Definition getType (h : heap) (v : value) : type_tag :=
  match v with
  | VRef a =>
      match obj_shape (deref h a) with
      | Thenable _ => PromiseType
      | Stream st => if objectMode st then ReadableObjectType else ReadableStringType
      | ArrayOf _ => ArrayType
      | Plain _ => ObjectType
      end
  | _ => PrimitiveType
  end.

Definition number_to_string (n : number) : string :=
  match n with
  | Finite z => Z_to_string z
  | NaN => "NaN"
  | Infinity false => "Infinity"
  | Infinity true => "-Infinity"
  end.

Definition primitiveToString (v : value) : error + string :=
  match v with
  | VString s => inr (quoteString s)
  | VNumber (Finite z) => inr (Z_to_string z)
  | VNumber _ => inr "null"
  | VBoolean true => inr "true"
  | VBoolean false => inr "false"
  | VUndefined => inr "null"
  | VNull => inr "null"
  | VRef _ => inr "null"
  | VBigInt _ => inl (UnknownType "bigint")
  | VFunction => inl (UnknownType "function")
  | VSymbol => inl (UnknownType "symbol")
  end.

(** ** Formatting policy *)

Inductive replacer_arg :=
| ReplacerFunction (f : string -> value -> value)
| ReplacerArray (items : list value)
| ReplacerOther.

Definition whitelist_item (v : value) : option string :=
  match v with
  | VString s => Some s
  | VNumber n => Some (number_to_string n)
  | _ => None
  end.

Definition normalizeReplacer (r : replacer_arg) : option (string -> value -> value) :=
  match r with
  | ReplacerFunction f => Some f
  | ReplacerArray items =>
      let whitelist : gset string :=
        {[ EmptyString ]} ∪ list_to_set (omap whitelist_item items) in
      Some (fun key v => if bool_decide (key ∈ whitelist) then v else VUndefined)
  | ReplacerOther => None
  end.

Inductive space_arg :=
| SpaceNumber (n : number)
| SpaceString (s : string)
| SpaceOther.

(** [false] is [None]. *)
Definition normalizeSpace (sp : space_arg) : option string :=
  match sp with
  | SpaceNumber (Finite z) =>
      if (z <? 1)%Z then None else Some (repeat_string " " (Z.to_nat (Z.min z 10)))
  | SpaceNumber _ => None
  | SpaceString s =>
      match slice_to 10 s with
      | EmptyString => None
      | s' => Some s'
      end
  | SpaceOther => None
  end.

(** ** Frames and the encoder instance *)

Inductive handler_tag :=
| h_root                      (* the closure pushed by the constructor *)
| h_noop                      (* placeholder of a deferred value *)
| h_push
| h_processObject
| h_processArray
| h_processReadableObject
| h_processReadableString.

Inductive callback :=
| cb_noop
| cb_processObjectEntry
| cb_processArrayItem.

(** A stack node. A field the source leaves out of the literal is
    [undefined] there and has its falsy default here. [self] names the
    node for the closures that keep a reference to it (stream frames). *)
Record frame := Frame {
  handler : handler_tag;
  fvalue : value;
  index : nat;
  firstEntry : bool;
  keys : list string;
  firstRead : bool;
  awaiting : bool;
  self : option nat
}.

Definition node (h : handler_tag) (v : value) : frame :=
  Frame h v 0 false [] false false None.

Definition set_index (i : nat) (f : frame) : frame :=
  Frame (handler f) (fvalue f) i (firstEntry f) (keys f) (firstRead f) (awaiting f) (self f).
Definition set_firstEntry (b : bool) (f : frame) : frame :=
  Frame (handler f) (fvalue f) (index f) b (keys f) (firstRead f) (awaiting f) (self f).
Definition set_firstRead (b : bool) (f : frame) : frame :=
  Frame (handler f) (fvalue f) (index f) (firstEntry f) (keys f) b (awaiting f) (self f).
Definition set_awaiting (b : bool) (f : frame) : frame :=
  Frame (handler f) (fvalue f) (index f) (firstEntry f) (keys f) (firstRead f) b (self f).

(** What the consumer side of the stream receives. *)
Inductive signal :=
| Chunk (data : list ascii)     (* super.push(data) *)
| EndOfStream                   (* super.push(null) *)
| ErrorEvent (e : error).       (* emit('error', e) *)

Record encoder := Encoder {
  heap_of : heap;
  replacer : option (string -> value -> value);
  space : option string;
  _depth : Z;
  error_slot : option error;
  _processing : bool;
  _ended : bool;
  _readSize : nat;
  _buffer : option (list ascii);
  _bufferOffset : nat;
  _stack : list frame;                      (* head is the top; [] is null *)
  _visited : gset addr;
  readableHighWaterMark : nat;
  pending : list (string * addr * callback); (* continuations attached to deferred values *)
  listeners : list (addr * nat);            (* 'readable'/'end' subscriptions: stream, frame *)
  errorListeners : list addr;               (* 'error' subscriptions *)
  created : nat;                            (* stream frames created so far *)
  ticks : list error;                       (* callbacks queued by process.nextTick *)
  output : list signal
}.

Definition with_heap (x : heap) (s : encoder) : encoder :=
  Encoder x (replacer s) (space s) (_depth s) (error_slot s) (_processing s) (_ended s)
    (_readSize s) (_buffer s) (_bufferOffset s) (_stack s) (_visited s)
    (readableHighWaterMark s) (pending s) (listeners s) (errorListeners s) (created s)
    (ticks s) (output s).
Definition with_depth (x : Z) (s : encoder) : encoder :=
  Encoder (heap_of s) (replacer s) (space s) x (error_slot s) (_processing s) (_ended s)
    (_readSize s) (_buffer s) (_bufferOffset s) (_stack s) (_visited s)
    (readableHighWaterMark s) (pending s) (listeners s) (errorListeners s) (created s)
    (ticks s) (output s).
Definition with_error (x : option error) (s : encoder) : encoder :=
  Encoder (heap_of s) (replacer s) (space s) (_depth s) x (_processing s) (_ended s)
    (_readSize s) (_buffer s) (_bufferOffset s) (_stack s) (_visited s)
    (readableHighWaterMark s) (pending s) (listeners s) (errorListeners s) (created s)
    (ticks s) (output s).
Definition with_processing (x : bool) (s : encoder) : encoder :=
  Encoder (heap_of s) (replacer s) (space s) (_depth s) (error_slot s) x (_ended s)
    (_readSize s) (_buffer s) (_bufferOffset s) (_stack s) (_visited s)
    (readableHighWaterMark s) (pending s) (listeners s) (errorListeners s) (created s)
    (ticks s) (output s).
Definition with_ended (x : bool) (s : encoder) : encoder :=
  Encoder (heap_of s) (replacer s) (space s) (_depth s) (error_slot s) (_processing s) x
    (_readSize s) (_buffer s) (_bufferOffset s) (_stack s) (_visited s)
    (readableHighWaterMark s) (pending s) (listeners s) (errorListeners s) (created s)
    (ticks s) (output s).
Definition with_readSize (x : nat) (s : encoder) : encoder :=
  Encoder (heap_of s) (replacer s) (space s) (_depth s) (error_slot s) (_processing s) (_ended s)
    x (_buffer s) (_bufferOffset s) (_stack s) (_visited s)
    (readableHighWaterMark s) (pending s) (listeners s) (errorListeners s) (created s)
    (ticks s) (output s).
Definition with_buffer (x : option (list ascii)) (s : encoder) : encoder :=
  Encoder (heap_of s) (replacer s) (space s) (_depth s) (error_slot s) (_processing s) (_ended s)
    (_readSize s) x (_bufferOffset s) (_stack s) (_visited s)
    (readableHighWaterMark s) (pending s) (listeners s) (errorListeners s) (created s)
    (ticks s) (output s).
Definition with_bufferOffset (x : nat) (s : encoder) : encoder :=
  Encoder (heap_of s) (replacer s) (space s) (_depth s) (error_slot s) (_processing s) (_ended s)
    (_readSize s) (_buffer s) x (_stack s) (_visited s)
    (readableHighWaterMark s) (pending s) (listeners s) (errorListeners s) (created s)
    (ticks s) (output s).
Definition with_stack (x : list frame) (s : encoder) : encoder :=
  Encoder (heap_of s) (replacer s) (space s) (_depth s) (error_slot s) (_processing s) (_ended s)
    (_readSize s) (_buffer s) (_bufferOffset s) x (_visited s)
    (readableHighWaterMark s) (pending s) (listeners s) (errorListeners s) (created s)
    (ticks s) (output s).
Definition with_visited (x : gset addr) (s : encoder) : encoder :=
  Encoder (heap_of s) (replacer s) (space s) (_depth s) (error_slot s) (_processing s) (_ended s)
    (_readSize s) (_buffer s) (_bufferOffset s) (_stack s) x
    (readableHighWaterMark s) (pending s) (listeners s) (errorListeners s) (created s)
    (ticks s) (output s).
Definition with_pending (x : list (string * addr * callback)) (s : encoder) : encoder :=
  Encoder (heap_of s) (replacer s) (space s) (_depth s) (error_slot s) (_processing s) (_ended s)
    (_readSize s) (_buffer s) (_bufferOffset s) (_stack s) (_visited s)
    (readableHighWaterMark s) x (listeners s) (errorListeners s) (created s)
    (ticks s) (output s).
Definition with_listeners (x : list (addr * nat)) (s : encoder) : encoder :=
  Encoder (heap_of s) (replacer s) (space s) (_depth s) (error_slot s) (_processing s) (_ended s)
    (_readSize s) (_buffer s) (_bufferOffset s) (_stack s) (_visited s)
    (readableHighWaterMark s) (pending s) x (errorListeners s) (created s)
    (ticks s) (output s).
Definition with_errorListeners (x : list addr) (s : encoder) : encoder :=
  Encoder (heap_of s) (replacer s) (space s) (_depth s) (error_slot s) (_processing s) (_ended s)
    (_readSize s) (_buffer s) (_bufferOffset s) (_stack s) (_visited s)
    (readableHighWaterMark s) (pending s) (listeners s) x (created s)
    (ticks s) (output s).
Definition with_created (x : nat) (s : encoder) : encoder :=
  Encoder (heap_of s) (replacer s) (space s) (_depth s) (error_slot s) (_processing s) (_ended s)
    (_readSize s) (_buffer s) (_bufferOffset s) (_stack s) (_visited s)
    (readableHighWaterMark s) (pending s) (listeners s) (errorListeners s) x
    (ticks s) (output s).
Definition with_ticks (x : list error) (s : encoder) : encoder :=
  Encoder (heap_of s) (replacer s) (space s) (_depth s) (error_slot s) (_processing s) (_ended s)
    (_readSize s) (_buffer s) (_bufferOffset s) (_stack s) (_visited s)
    (readableHighWaterMark s) (pending s) (listeners s) (errorListeners s) (created s)
    x (output s).
Definition with_output (x : list signal) (s : encoder) : encoder :=
  Encoder (heap_of s) (replacer s) (space s) (_depth s) (error_slot s) (_processing s) (_ended s)
    (_readSize s) (_buffer s) (_bufferOffset s) (_stack s) (_visited s)
    (readableHighWaterMark s) (pending s) (listeners s) (errorListeners s) (created s)
    (ticks s) x.

(** ** Results of a call that may throw *)

Inductive result :=
| Ok (s : encoder)
| Throw (e : error) (s : encoder).

Definition and_then (r : result) (k : encoder -> result) : result :=
  match r with
  | Ok s => k s
  | Throw e s => Throw e s
  end.

Notation "r ;> k" := (and_then r k) (at level 61, left associativity).

Definition state_of (r : result) : encoder :=
  match r with
  | Ok s => s
  | Throw _ s => s
  end.

(** ** The stack and the terminal error *)

Definition pushStack (n : frame) (s : encoder) : encoder :=
  with_stack (n :: _stack s) s.

Definition leaves_guard (h : handler_tag) : bool :=
  match h with
  | h_processObject | h_processArray | h_processReadableObject => true
  | _ => false
  end.

Definition visited_delete (v : value) (vis : gset addr) : gset addr :=
  match v with
  | VRef a => vis ∖ {[ a ]}
  | _ => vis
  end.

(** An assignment to a field of the node on top of the stack. *)
Definition update_top (f : frame -> frame) (s : encoder) : encoder :=
  match _stack s with
  | [] => s
  | top :: prev => with_stack (f top :: prev) s
  end.

(** Destructuring [this._stack] when it is [null] throws. *)
Definition popStack (s : encoder) : result :=
  match _stack s with
  | [] => Throw TypeError s
  | top :: prev =>
      let s1 :=
        if leaves_guard (handler top)
        then with_depth (_depth s - 1) (with_visited (visited_delete (fvalue top) (_visited s)) s)
        else s in
      Ok (with_stack prev s1)
  end.

Definition abort (e : error) (s : encoder) : encoder :=
  with_ticks (ticks s ++ [e])
    (with_ended true (with_processing false (with_stack [] (with_error (Some e) s)))).

(** The callback [abort] hands to [process.nextTick]. *)
Definition abort_tick (e : error) (s : encoder) : encoder :=
  with_output (output s ++ [ErrorEvent e; EndOfStream]) (with_buffer None s).

Definition run_ticks (s : encoder) : encoder :=
  with_ticks [] (fold_left (fun acc e => abort_tick e acc) (ticks s) s).

(** ** The backpressure buffer *)

(** [buf.write(data, offset)]: stores what fits, returns how much. *)
Definition buffer_write (buf : list ascii) (offset : nat) (data : list ascii)
  : list ascii * nat :=
  let written := Nat.min (List.length data) (List.length buf - offset) in
  (take offset buf ++ take written data ++ drop (offset + written) buf, written).

(** [src.copy(dst, 0, from, to)] *)
Definition buffer_copy (src dst : list ascii) (from to : nat) : list ascii :=
  let moved := take (Nat.min (to - from) (List.length dst)) (drop from src) in
  moved ++ drop (List.length moved) dst.

Definition super_push (data : list ascii) (s : encoder) : encoder :=
  with_output (output s ++ [Chunk data]) s.

Definition push_null (s : encoder) : encoder :=
  with_output (output s ++ [EndOfStream]) s.

(** The second half of [push(data)]: write to the buffer, and flush
    [_readSize] bytes when that many have accumulated. *)
Definition write_and_flush (data : string) (s : encoder) : result :=
  match _buffer s with
  | None => Throw TypeError s
  | Some buf =>
      let '(buf, written) := buffer_write buf (_bufferOffset s) (bytes data) in
      let offset := _bufferOffset s + written in
      if offset <? _readSize s
      then Ok (with_bufferOffset offset (with_buffer (Some buf) s))
      else
        let chunk := take (_readSize s) buf in
        let buf := buffer_copy buf buf (_readSize s) offset in
        Ok (super_push chunk
              (with_processing false
                 (with_bufferOffset (offset - _readSize s) (with_buffer (Some buf) s))))
  end.

(** [push(data)] for [data !== null]: what exceeds [max] goes back on the
    stack as a [push] node. *)
Definition push (data : string) (s : encoder) : result :=
  let max := _bufferOffset s + _readSize s in
  if max <? String.length data
  then write_and_flush (slice_to max data)
         (pushStack (node h_push (VString (slice_from max data))) s)
  else write_and_flush data s.

(** ** Entry and item prefixes *)

(** [this.space] as a condition: the empty string is falsy. *)
Definition active_space (s : encoder) : option string :=
  match space s with
  | Some EmptyString => None
  | sp => sp
  end.

(** [sp.repeat(count)] throws a RangeError for a negative count. *)
Definition js_repeat (sp : string) (count : Z) : option string :=
  if (count <? 0)%Z then None else Some (repeat_string sp (Z.to_nat count)).

Definition push_indented (sp : string) (count : Z) (suffix : string) (s : encoder) : result :=
  match js_repeat sp count with
  | None => Throw RangeError s
  | Some ind => push (newline +:+ ind +:+ suffix) s
  end.

Definition processObjectEntry (key : string) (s : encoder) : result :=
  match _stack s with
  | [] => Throw TypeError s
  | current :: _ =>
      (if firstEntry current
       then Ok (update_top (set_firstEntry false) s)
       else push "," s) ;> fun s =>
      match active_space s with
      | Some sp => push_indented sp (_depth s) (quoteString key +:+ ": ") s
      | None => push (quoteString key +:+ ":") s
      end
  end.

Definition processArrayItem (index : string) (s : encoder) : result :=
  (if String.eqb index "0" then Ok s else push "," s) ;> fun s =>
  match active_space s with
  | Some sp => push_indented sp (_depth s) EmptyString s
  | None => Ok s
  end.

Definition call (cb : callback) (key : string) (s : encoder) : result :=
  match cb with
  | cb_noop => Ok s
  | cb_processObjectEntry => processObjectEntry key s
  | cb_processArrayItem => processArrayItem key s
  end.

Definition is_processObjectEntry (cb : callback) : bool :=
  match cb with
  | cb_processObjectEntry => true
  | _ => false
  end.

Definition is_undefined (v : value) : bool :=
  match v with
  | VUndefined => true
  | _ => false
  end.

(** ** processValue *)

Definition apply_toJSON (h : heap) (v : value) : value :=
  match v with
  | VRef a => default v (toJSON (deref h a))
  | _ => v
  end.

Definition apply_replacer (s : encoder) (key : string) (v : value) : value :=
  match replacer s with
  | Some f => f key v
  | None => v
  end.

Definition drop_callable (v : value) : value :=
  match v with
  | VFunction | VSymbol => VUndefined
  | _ => v
  end.

(** The first three statements of [processValue]. *)
Definition transform (s : encoder) (key : string) (v : value) : value :=
  drop_callable (apply_replacer s key (apply_toJSON (heap_of s) v)).

Definition object_keys (o : object) : list string :=
  match obj_shape o with
  | Plain entries => map fst entries
  | _ => []
  end.

(** The value the array case and the object-stream case give the closing
    [push] node. *)
Definition closing_bracket (s : encoder) : option string :=
  match active_space s with
  | Some sp => (fun ind => newline +:+ ind +:+ "]") <$> js_repeat sp (_depth s)
  | None => Some "]"
  end.

Definition open_sequence (n : frame) (s : encoder) : result :=
  push "[" s ;> fun s =>
  match closing_bracket s with
  | None => Throw RangeError s
  | Some close =>
      Ok (with_depth (_depth s + 1) (pushStack n (pushStack (node h_push (VString close)) s)))
  end.

Definition attach_stream (a : addr) (st : readable) (s : encoder) : encoder :=
  let id := created s in
  let n :=
    Frame (if objectMode st then h_processReadableObject else h_processReadableString)
      (VRef a) 0 false [] true
      (negb (is_readable st) || Nat.eqb (readableLength st) 0) (Some id) in
  with_created (S id)
    (with_errorListeners (errorListeners s ++ [a])
       (with_listeners (listeners s ++ [(a, id)]) (pushStack n s))).

Definition processValue (key : string) (v : value) (cb : callback) (s : encoder) : result :=
  let v := transform s key v in
  match getType (heap_of s) v, v with
  | PrimitiveType, _ =>
      if negb (is_processObjectEntry cb) || negb (is_undefined v)
      then
        call cb key s ;> fun s =>
        match primitiveToString v with
        | inl e => Throw e s
        | inr str => push str s
        end
      else Ok s
  | PromiseType, VRef a =>
      Ok (with_pending (pending s ++ [(key, a, cb)])
            (pushStack (set_awaiting true (node h_noop VUndefined)) s))
  | ObjectType, VRef a =>
      call cb key s ;> fun s =>
      if bool_decide (a ∈ _visited s) then Ok (abort CircularStructure s)
      else
        let s := with_visited ({[ a ]} ∪ _visited s) s in
        let ks := object_keys (deref (heap_of s) a) in
        match ks with
        | [] => push "{}" s
        | _ =>
            push "{" s ;> fun s =>
            Ok (with_depth (_depth s + 1)
                  (pushStack (Frame h_processObject (VRef a) 0 true ks false false None)
                     (pushStack (node h_push (VString "}")) s)))
        end
  | ArrayType, VRef a =>
      call cb key s ;> fun s =>
      if bool_decide (a ∈ _visited s) then Ok (abort CircularStructure s)
      else
        let s := with_visited ({[ a ]} ∪ _visited s) s in
        match obj_shape (deref (heap_of s) a) with
        | ArrayOf [] => push "[]" s
        | _ => open_sequence (node h_processArray (VRef a)) s
        end
  | (ReadableStringType | ReadableObjectType) as type, VRef a =>
      call cb key s ;> fun s =>
      match obj_shape (deref (heap_of s) a) with
      | Stream st =>
          if readableEnded st then Ok (abort StreamAlreadyEnded s)
          else if readableFlowing st then Ok (abort StreamUncontrolledMode s)
          else
            match type with
            | ReadableObjectType =>
                push "[" s ;> fun s =>
                match closing_bracket s with
                | None => Throw RangeError s
                | Some close =>
                    Ok (attach_stream a st
                          (with_depth (_depth s + 1)
                             (pushStack (node h_push (VString close)) s)))
                end
            | _ => Ok (attach_stream a st s)
            end
      | _ => Ok s
      end
  | _, _ => Ok s
  end.

(** ** Frame handlers *)

(** [current.index += 1], where [current] is the node that was at
    [height] above the bottom of the stack when the handler started. Nodes
    are only added above it meanwhile; when the stack has been dropped the
    node is unreachable and the assignment has no effect on the encoder. *)
Definition bump_index (height : nat) (s : encoder) : encoder :=
  let stk := _stack s in
  if height <? List.length stk
  then with_stack (alter (fun f => set_index (S (index f)) f) (List.length stk - 1 - height) stk) s
  else s.

Definition property (h : heap) (v : value) (key : string) : value :=
  match v with
  | VRef a =>
      match obj_shape (deref h a) with
      | Plain entries => default VUndefined (snd <$> List.find (fun e => String.eqb (fst e) key) entries)
      | _ => VUndefined
      end
  | _ => VUndefined
  end.

Definition items_of (h : heap) (v : value) : list value :=
  match v with
  | VRef a =>
      match obj_shape (deref h a) with
      | ArrayOf items => items
      | _ => []
      end
  | _ => []
  end.

(** [function push() { this.push(this._stack.value); this.popStack(); }] *)
Definition push_node (current : frame) (s : encoder) : result :=
  match fvalue current with
  | VString data => push data s ;> popStack
  | _ => popStack s
  end.

Definition processObject (current : frame) (s : encoder) : result :=
  let height := List.length (_stack s) - 1 in
  if index current =? List.length (keys current) then
    (match active_space s with
     | Some sp =>
         if negb (firstEntry current)
         then push_indented sp (_depth s - 1) EmptyString s
         else Ok s
     | None => Ok s
     end) ;> popStack
  else
    let key := default EmptyString (keys current !! index current) in
    processValue key (property (heap_of s) (fvalue current) key) cb_processObjectEntry s ;> fun s =>
    Ok (bump_index height s).

Definition processArray (current : frame) (s : encoder) : result :=
  let height := List.length (_stack s) - 1 in
  let items := items_of (heap_of s) (fvalue current) in
  if index current =? List.length items then popStack s
  else
    processValue (nat_to_string (index current))
      (default VUndefined (items !! index current)) cb_processArrayItem s ;> fun s =>
    Ok (bump_index height s).

(** [current.value.read(size)]: the next scripted result. *)
Definition stream_read (v : value) (s : encoder) : option value * encoder :=
  match v with
  | VRef a =>
      let o := deref (heap_of s) a in
      match obj_shape o with
      | Stream st =>
          match script st with
          | r :: rest =>
              let st' := Readable (objectMode st) (readableEnded st) (readableFlowing st)
                           (is_readable st) (readableLength st) rest in
              (match r with Some VNull => None | _ => r end,
               with_heap (<[ a := Obj (toJSON o) (Stream st') ]> (heap_of s)) s)
          | [] => (None, s)
          end
      | _ => (None, s)
      end
  | _ => (None, s)
  end.

Definition raw_data (v : value) : string :=
  match v with
  | VString data => data
  | _ => EmptyString
  end.

(** [createStreamReader(fn)], with [fn] chosen by [object_items]. *)
Definition streamReader (object_items : bool) (current : frame) (s : encoder) : result :=
  let height := List.length (_stack s) - 1 in
  let '(data, s) := stream_read (fvalue current) s in
  match data with
  | Some unit =>
      let s := update_top (set_firstRead false) s in
      if object_items then
        processValue (nat_to_string (index current)) unit cb_processArrayItem s ;> fun s =>
        Ok (bump_index height s)
      else push (raw_data unit) s
  | None =>
      if firstRead current then popStack s
      else Ok (update_top (fun f => set_awaiting true (set_firstRead true f)) s)
  end.

Definition processReadableObject := streamReader true.
Definition processReadableString := streamReader false.

(** [this._stack.handler.call(this, size)] *)
Definition run_handler (current : frame) (s : encoder) : result :=
  match handler current with
  | h_root => popStack s ;> processValue EmptyString (fvalue current) cb_noop
  | h_noop => Ok s
  | h_push => push_node current s
  | h_processObject => processObject current s
  | h_processArray => processArray current s
  | h_processReadableObject => processReadableObject current s
  | h_processReadableString => processReadableString current s
  end.

(** ** The driver *)

Inductive loop_exit :=
| Drained (s : encoder)          (* the while condition became false *)
| Returned (s : encoder)         (* [if (!this._processing) return] *)
| Thrown (e : error) (s : encoder).

Fixpoint drive (fuel : nat) (s : encoder) : option loop_exit :=
  match _stack s with
  | [] => Some (Drained s)
  | top :: _ =>
      if awaiting top then Some (Drained s)
      else
        match fuel with
        | O => None
        | S fuel' =>
            match run_handler top s with
            | Throw e s' => Some (Thrown e s')
            | Ok s' => if _processing s' then drive fuel' s' else Some (Returned s')
            end
        end
  end.

Definition is_null {A} (l : list A) : bool :=
  match l with
  | [] => true
  | _ => false
  end.

(** The statements after the [try] block. [this._buffer.slice] on a
    [null] buffer throws outside the [try]. *)
Definition finish (s : encoder) : result :=
  if is_null (_stack s) && negb (_ended s) then
    let s := with_ended true s in
    (if 0 <? _bufferOffset s then
       match _buffer s with
       | None => Throw TypeError s
       | Some buf => Ok (super_push (take (_bufferOffset s) buf) s)
       end
     else Ok s) ;> fun s =>
    Ok (with_buffer None (push_null s))
  else Ok s.

(** What [processStack] does once its loop has been left. *)
Definition conclude (exit : option loop_exit) : option result :=
  match exit with
  | None => None
  | Some (Returned s') => Some (Ok s')
  | Some (Thrown e s') => Some (Ok (abort e s'))
  | Some (Drained s') => Some (finish (with_processing false s'))
  end.

(** [None]: the loop did not finish within [fuel] handler calls. *)
Definition processStack (fuel : nat) (s : encoder) : option result :=
  if _processing s || _ended s then Some (Ok s)
  else conclude (drive fuel (with_processing true s)).

Definition zero_byte : ascii := chr 0.

Definition _read (fuel : nat) (size : nat) (s : encoder) : option result :=
  if _ended s then Some (Ok s)
  else
    let s := with_readSize (if size =? 0 then readableHighWaterMark s else size) s in
    let fresh := replicate (2 * _readSize s) zero_byte in
    let s :=
      match _buffer s with
      | None => with_buffer (Some fresh) s
      | Some buf =>
          if List.length buf <? 2 * _readSize s then
            with_buffer
              (Some (if 0 <? _bufferOffset s
                     then buffer_copy buf fresh 0 (_bufferOffset s)
                     else fresh)) s
          else s
      end in
    processStack fuel s.

(** [new JsonStringifyStream(value, replacer, space)] over a heap. *)
Definition createJsonStringifyStream
    (h : heap) (v : value) (r : replacer_arg) (sp : space_arg) : encoder :=
  Encoder h (normalizeReplacer r) (normalizeSpace sp) 0 None false false
    0 None 0 [node h_root v] ∅ (128 * 128) [] [] [] 0 [] [].

(** ** Continuations and events *)

(** A throw inside the [then] callback, or out of the [processStack] it
    calls, is routed to the [catch] callback, which aborts. *)
Definition caught (r : option result) : option result :=
  match r with
  | Some (Throw e s) => Some (Ok (abort e s))
  | other => other
  end.

(** The continuation [processValue] attaches to the [i]-th pending
    deferred value, run when that value is settled. *)
Definition settle (fuel : nat) (i : nat) (s : encoder) : option result :=
  match pending s !! i with
  | None => Some (Ok s)
  | Some (key, a, cb) =>
      let s := with_pending (delete i (pending s)) s in
      match obj_shape (deref (heap_of s) a) with
      | Thenable (Fulfilled resolved) =>
          caught
            (match popStack s ;> processValue key resolved cb with
             | Throw e s' => Some (Throw e s')
             | Ok s' => processStack fuel s'
             end)
      | Thenable (Rejected e) => Some (Ok (abort e s))
      | _ => Some (Ok s)
      end
  end.

Definition is_self (id : nat) (f : frame) : bool :=
  bool_decide (self f = Some id).

(** [continueProcessing] of the stream frame [id]. A node that is no
    longer on the stack is unreachable from the encoder. *)
Definition continueProcessing (fuel : nat) (id : nat) (s : encoder) : option result :=
  match List.find (is_self id) (_stack s) with
  | Some f =>
      if awaiting f then
        let s' := with_stack
                    (map (fun g => if is_self id g then set_awaiting false g else g) (_stack s)) s in
        match _stack s with
        | top :: _ => if is_self id top then processStack fuel s' else Some (Ok s')
        | [] => Some (Ok s')
        end
      else Some (Ok s)
  | None => Some (Ok s)
  end.

Fixpoint notify (fuel : nat) (ids : list nat) (s : encoder) : option result :=
  match ids with
  | [] => Some (Ok s)
  | id :: rest =>
      match continueProcessing fuel id s with
      | Some (Ok s') => notify fuel rest s'
      | other => other
      end
  end.

Inductive event :=
| Pull (size : nat)                    (* the consumer calls _read(size) *)
| Settle (i : nat)                     (* the i-th pending deferred value settles *)
| StreamReadable (a : addr)            (* 'readable' *)
| StreamEnd (a : addr)                 (* 'end' *)
| StreamError (a : addr) (e : error).  (* 'error' *)

Definition subscribed (a : addr) (s : encoder) : list nat :=
  map snd (filter (fun l => fst l = a) (listeners s)).

Definition handle (fuel : nat) (ev : event) (s : encoder) : option result :=
  match ev with
  | Pull size => _read fuel size s
  | Settle i => settle fuel i s
  | StreamReadable a => notify fuel (subscribed a s) s
  | StreamEnd a => notify fuel (subscribed a s) s
  | StreamError a e =>
      let n := List.length (filter (fun b => b = a) (errorListeners s)) in
      let s := with_errorListeners (filter (fun b => b ≠ a) (errorListeners s)) s in
      Some (Ok (Nat.iter n (abort e) s))
  end.

(** One turn of the event loop: the event's callback, then the queued
    ticks. *)
Definition dispatch (fuel : nat) (ev : event) (s : encoder) : option result :=
  match handle fuel ev s with
  | Some (Ok s') => Some (Ok (run_ticks s'))
  | other => other
  end.

Fixpoint run_events (fuel : nat) (evs : list event) (s : encoder) : option result :=
  match evs with
  | [] => Some (Ok s)
  | ev :: rest =>
      match dispatch fuel ev s with
      | Some (Ok s') => run_events fuel rest s'
      | other => other
      end
  end.

(** A consumer that pulls [size] bytes until the stream has ended, in an
    environment where every deferred value is already settled, so that its
    continuation runs as soon as the current call has returned. *)
Fixpoint consume (rounds fuel size : nat) (s : encoder) : option result :=
  match rounds with
  | O => None
  | S n =>
      if _ended s then Some (Ok s)
      else
        let ev := match pending s with
                  | [] => Pull size
                  | _ => Settle 0
                  end in
        match dispatch fuel ev s with
        | Some (Ok s') => consume n fuel size s'
        | other => other
        end
  end.

(** The bytes handed to the consumer, in order. *)
Fixpoint received (out : list signal) : list ascii :=
  match out with
  | [] => []
  | Chunk data :: rest => data ++ received rest
  | _ :: rest => received rest
  end.

Definition stringify (rounds fuel size : nat) (h : heap) (v : value)
    (r : replacer_arg) (sp : space_arg) : option (list signal) :=
  match consume rounds fuel size (createJsonStringifyStream h v r sp) with
  | Some (Ok s) => Some (output s)
  | _ => None
  end.

(** ** The HTML compressed-data printer *)

Module Printer.

(** What the generators yield. [render] gives the yielded string. *)
Inductive script :=
| DataScript (output : string)     (* OPEN + output + CLOSE *)
| FinishScript.                    (* the onFinish script *)

Record printer := Printer {
  buffer : list ascii;             (* new Uint8Array(maxChunkSize) *)
  bufferSize : nat
}.

Section Printer.

Variable maxChunkSize : nat.
Variables type onDataChunk onFinish : string.

(** [zlib.deflateRawSync] and [Buffer.toString('base64')], with their
    inverses on the reading side. *)
Variable deflateRawSync : list ascii -> list ascii.
Variable inflateRawSync : list ascii -> list ascii.
Variable base64 : list ascii -> string.
Variable from_base64 : string -> list ascii.

Definition OPEN : string :=
  newline +:+ "<script type=" +:+ dquote +:+ type +:+ dquote +:+ ">".

Definition CLOSE : string :=
  "</script><script>" +:+ newline +:+ "(chunk=>{" +:+ onDataChunk
    +:+ "})(document.currentScript.previousSibling.text)</script>".

Definition render (t : script) : string :=
  match t with
  | DataScript output => OPEN +:+ output +:+ CLOSE
  | FinishScript => newline +:+ "<script>" +:+ onFinish +:+ "</script>"
  end.

Definition create : printer := Printer (replicate maxChunkSize zero_byte) 0.

(** [buffer.set(chunkBuffer, bufferSize)] throws a RangeError when the
    chunk does not fit. *)
Definition appendBuffer (chunkBuffer : list ascii) (p : printer) : option printer :=
  if List.length (buffer p) <? bufferSize p + List.length chunkBuffer then None
  else
    Some (Printer
            (take (bufferSize p) (buffer p) ++ chunkBuffer
               ++ drop (bufferSize p + List.length chunkBuffer) (buffer p))
            (bufferSize p + List.length chunkBuffer)).

Definition flushBuffer (p : printer) : script * printer :=
  let payload := take (bufferSize p) (buffer p) in
  let deflated := deflateRawSync payload in
  let output := base64 deflated in
  (DataScript output, Printer (buffer p) 0).

(** The [while] loop of [push], run until the generator is exhausted.
    [None]: a throw, or the loop did not end within [fuel] turns. *)
Fixpoint push_loop (fuel : nat) (chunkBuffer : list ascii) (p : printer)
  : option (list script * printer) :=
  if maxChunkSize <=? bufferSize p + List.length chunkBuffer then
    match fuel with
    | O => None
    | S fuel' =>
        let usedChunkBufferSize := maxChunkSize - bufferSize p in
        p1 ← appendBuffer (take usedChunkBufferSize chunkBuffer) p;
        let '(t, p2) := flushBuffer p1 in
        '(ts, p3) ← push_loop fuel' (drop usedChunkBufferSize chunkBuffer) p2;
        Some (t :: ts, p3)
    end
  else
    p1 ← appendBuffer chunkBuffer p;
    Some ([], p1).

Definition push (chunk : list ascii) (p : printer) : option (list script * printer) :=
  push_loop (S (List.length chunk)) chunk p.

Definition finish (p : printer) : list script * printer :=
  if 0 <? bufferSize p then
    let '(t, p1) := flushBuffer p in
    ([t; FinishScript], p1)
  else ([FinishScript], p).

(** Every chunk pushed in turn, then [finish]. *)
Fixpoint feed (chunks : list (list ascii)) (p : printer) : option (list script * printer) :=
  match chunks with
  | [] => Some ([], p)
  | chunk :: rest =>
      '(ts, p1) ← push chunk p;
      '(ts', p2) ← feed rest p1;
      Some (ts ++ ts', p2)
  end.

Definition print (chunks : list (list ascii)) : option (list script) :=
  '(ts, p) ← feed chunks create;
  Some (ts ++ fst (finish p)).

(** The bytes a browser recovers from a data script. *)
Definition payload (t : script) : option (list ascii) :=
  match t with
  | DataScript output => Some (inflateRawSync (from_base64 output))
  | FinishScript => None
  end.

Definition payloads (ts : list script) : list (list ascii) := omap payload ts.

(** The bytes appended since the last flush. *)
Definition staged (p : printer) : list ascii := take (bufferSize p) (buffer p).

(** Between two calls the buffer has its allocated size and is not full. *)
Definition ready (p : printer) : Prop :=
  List.length (buffer p) = maxChunkSize /\ bufferSize p < maxChunkSize.

(** What a run of yields looks like: data scripts only, each carrying a
    full buffer. *)
Definition full_scripts (ts : list script) : Prop :=
  Forall (fun t => exists b, payload t = Some b /\ List.length b = maxChunkSize) ts.

End Printer.

End Printer.

(** * Definitions for the statements *)

(** ** What [push] and the callbacks leave alone *)

(** The part of the instance that only [processValue] itself, the stream
    readers and the scheduler touch. *)
Definition same_sources (s s' : encoder) : Prop :=
  heap_of s' = heap_of s
  /\ replacer s' = replacer s
  /\ space s' = space s
  /\ _depth s' = _depth s
  /\ _visited s' = _visited s
  /\ pending s' = pending s
  /\ listeners s' = listeners s
  /\ errorListeners s' = errorListeners s
  /\ created s' = created s
  /\ error_slot s' = error_slot s
  /\ _ended s' = _ended s
  /\ ticks s' = ticks s.

(** ** Omitted values and non-finite numbers *)

(** The value after the [toJSON] hook and the replacer. *)
Definition replaced (s : encoder) (key : string) (v : value) : value :=
  apply_replacer s key (apply_toJSON (heap_of s) v).

Definition dropped (v : value) : bool :=
  match v with
  | VUndefined | VFunction | VSymbol => true
  | _ => false
  end.

Definition non_finite (v : value) : bool :=
  match v with
  | VNumber NaN | VNumber (Infinity _) => true
  | _ => false
  end.

(** [process.stdin] after it has ended, under the key [log]. *)
Definition ended_source : heap :=
  <[ 1 := stream (Readable false true false false 0 []) ]> ∅.

Definition meets_ended_source : encoder :=
  createJsonStringifyStream ended_source VNull ReplacerOther SpaceOther.

(** ** The terminal error *)

(** The events that run the driver: a pull by the consumer, or a stream
    notification that resumes it. *)
Definition drives (ev : event) : bool :=
  match ev with
  | Pull _ | StreamReadable _ | StreamEnd _ => true
  | _ => false
  end.

(** ** Example inputs *)

(** JSON text written with apostrophes where the text has double quotes. *)
Fixpoint json (s : string) : string :=
  match s with
  | EmptyString => EmptyString
  | String c rest => String (if Nat.eqb (nat_of_ascii c) 39 then chr 34 else c) (json rest)
  end.

(** The text a finished run has handed to the consumer. *)
Definition received_text (out : option (list signal)) : option string :=
  (fun o => text (received o)) <$> out.

(** [const e = {}; [e, e]] *)
Definition shared_empty_object : heap :=
  <[ 1 := array [VRef 2; VRef 2] ]> (<[ 2 := plain [] ]> ∅).

(** [const x = []; ({ a: x, b: x })] *)
Definition shared_empty_array : heap :=
  <[ 1 := plain [("a", VRef 2); ("b", VRef 2)] ]> (<[ 2 := array [] ]> ∅).

(** [const o = { n: 1 }; [o, o]] *)
Definition shared_object : heap :=
  <[ 1 := array [VRef 2; VRef 2] ]> (<[ 2 := plain [("n", VNumber (Finite 1))] ]> ∅).

(** [const o = {}; o.self = o] *)
Definition self_reference : heap :=
  <[ 1 := plain [("self", VRef 1)] ]> ∅.

(** ** Pulls *)

(** The instance that encodes the string [abcdefg]. *)
Definition short_string : encoder :=
  createJsonStringifyStream ∅ (VString "abcdefg") ReplacerOther SpaceOther.

(** Where that instance is after its second pull of four bytes, with the
    chunks handed over so far as a parameter. *)
Definition stuck (out : list signal) : encoder :=
  Encoder ∅ None None 0 None false false 4
    (Some (bytes "defg" ++ replicate 4 zero_byte)) 0
    [node h_push (VString (json "defg'"))] ∅ (128 * 128) [] [] [] 0 [] out.

(** [{ k: 1 }] *)
Definition one_entry : heap := <[ 1 := plain [("k", VNumber (Finite 1))] ]> ∅.

(** [['abcdefgh', p, 7]] where [p] is fulfilled with [1]. *)
Definition waits_for_item : heap :=
  <[ 1 := array [VString "abcdefgh"; VRef 2; VNumber (Finite 7)] ]>
    (<[ 2 := promise (Fulfilled (VNumber (Finite 1))) ]> ∅).

(** The chunks a run has handed over, each as text. *)
Definition chunks (r : option result) : option (list string) :=
  match r with
  | Some (Ok s) =>
      Some (omap (fun sig => match sig with Chunk data => Some (text data) | _ => None end)
              (output s))
  | _ => None
  end.

(** ** A second abort *)

(** An object stream whose first item is a deferred value. *)
Definition erring_source : heap :=
  <[ 1 := stream (Readable true false false true 1 [Some (VRef 2)]) ]>
    (<[ 2 := promise (Fulfilled (VNumber (Finite 1))) ]> ∅).

(** What a run has reported, and the error slot it ends with. *)
Definition reported (r : option result) : option (list signal * option error) :=
  match r with
  | Some (Ok s) => Some (output s, error_slot s)
  | _ => None
  end.

(** ** Producer frames *)

Definition is_reader (h : handler_tag) : bool :=
  match h with
  | h_processReadableObject | h_processReadableString => true
  | _ => false
  end.

(** One read attempt of the stream frame on top of the stack, as the
    driver makes it once the frame is not awaiting. *)
Definition read_attempt (s : encoder) : result :=
  match _stack s with
  | [] => Ok s
  | top :: _ => run_handler (set_awaiting false top) (update_top (set_awaiting false) s)
  end.

(** [attempts id n s0 s]: [n] read attempts of the stream frame [id] lead
    from [s0] to [s], the frame being on top of the stack before each. *)
Inductive attempts (id : nat) : nat -> encoder -> encoder -> Prop :=
| attempts_O s : attempts id 0 s s
| attempts_S n s0 s top prev s' :
    attempts id n s0 s ->
    _stack s = top :: prev ->
    self top = Some id ->
    read_attempt s = Ok s' ->
    attempts id (S n) s0 s'.

(** The sentence of the specification, read literally: an empty read
    pops the frame when it is the first read attempt, and on any later
    attempt leaves the frame on the stack, awaiting. *)
Definition empty_read_by_attempt_count : Prop :=
  forall s0 a st n s top prev s',
    obj_shape (deref (heap_of s0) a) = Stream st ->
    attempts (created s0) n (attach_stream a st s0) s ->
    _stack s = top :: prev ->
    self top = Some (created s0) ->
    fst (stream_read (fvalue top) s) = None ->
    read_attempt s = Ok s' ->
    if n =? 0 then _stack s' = prev
    else exists top', _stack s' = top' :: prev
                      /\ self top' = Some (created s0) /\ awaiting top' = true.

(** A byte producer that yields [x], then nothing, then nothing. *)
Definition one_unit : readable :=
  Readable false false false true 1 [Some (VString "x"); None; None].

(** An instance that has been pulled once with room for sixteen bytes
    and is about to attach [one_unit]. *)
Definition before_attach : encoder :=
  Encoder (<[ 1 := stream one_unit ]> ∅) None None 0 None true false 16
    (Some (replicate 32 zero_byte)) 0 [] ∅ (128 * 128) [] [] [] 0 [] [].

(** The frame attached, and the instance after each of three attempts. *)
Definition attached : encoder := attach_stream 1 one_unit before_attach.
Definition attempted1 : encoder := state_of (read_attempt attached).
Definition attempted2 : encoder := state_of (read_attempt attempted1).
Definition attempted3 : encoder := state_of (read_attempt attempted2).

(** ** Deferred values *)

(** The statement of the caller that follows its [processValue] call:
    nothing in the root handler, [current.index += 1] in the collection
    and object-stream handlers, [current] being [height] above the bottom
    of the stack. *)
Definition after_call (cursor : option nat) (s : encoder) : encoder :=
  match cursor with
  | None => s
  | Some height => bump_index height s
  end.

(** The rest of a driver run once the current handler has returned. *)
Definition after_handler (fuel : nat) (r : result) : option result :=
  conclude
    (match r with
     | Throw e s => Some (Thrown e s)
     | Ok s => if _processing s then drive fuel s else Some (Returned s)
     end).

(** Everything that follows a [processValue] call made by a handler: the
    caller's cursor, the rest of the driver run, the queued ticks, and the
    consumer pulling until the end. *)
Definition complete (rounds fuel size : nat) (cursor : option nat) (r : result)
  : option result :=
  match after_handler fuel (r ;> fun s => Ok (after_call cursor s)) with
  | Some (Ok s) => consume rounds fuel size (run_ticks s)
  | other => other
  end.

(** The instance as the continuation of a deferred value finds it,
    compared with the instance inside the handler: the driver has left
    its loop, and the caller has moved its cursor. *)
Definition resumed (cursor : option nat) (s : encoder) : encoder :=
  with_processing false (after_call cursor s).

Definition lift (f : encoder -> encoder) (r : result) : result :=
  match r with
  | Ok s => Ok (f s)
  | Throw e s => Throw e (f s)
  end.

Definition below_top (cursor : option nat) (s : encoder) : Prop :=
  match cursor with
  | None => True
  | Some height => height < List.length (_stack s)
  end.

(** *** What a [processValue] call leaves as it was *)

Definition same_room (s s' : encoder) : Prop :=
  _readSize s' = _readSize s
  /\ readableHighWaterMark s' = readableHighWaterMark s
  /\ (List.length <$> _buffer s') = (List.length <$> _buffer s).

(** Both relations at once, for the steps that emit text. *)
Definition emits_only (s s' : encoder) : Prop := same_sources s s' /\ same_room s s'.

(** What every step of [processValue] but [abort] and the registration of
    a deferred value keeps. *)
Definition kept (s s' : encoder) : Prop :=
  _ended s' = _ended s /\ ticks s' = ticks s /\ pending s' = pending s /\ same_room s s'.

Definition aborted (s : encoder) : Prop :=
  _ended s = true /\ _processing s = false /\ _stack s = [].

(** [{ x: p }] where [p] is fulfilled with [{ a: 1 }], and the same
    object with the value in the place of [p]. *)
Definition deferred_entry : heap :=
  <[ 1 := plain [("x", VRef 2)] ]>
    (<[ 2 := promise (Fulfilled (VRef 3)) ]>
       (<[ 3 := plain [("a", VNumber (Finite 1))] ]> ∅)).

(** The instance inside the handler of the outer object, about to
    process the entry [x], with a pull size of 16. *)
Definition at_entry_x : encoder :=
  Encoder deferred_entry None None 1 None true false 16
    (Some (bytes "{" ++ replicate 31 zero_byte)) 1
    [Frame h_processObject (VRef 1) 0 true ["x"] false false None;
     node h_push (VString "}")]
    {[ 1 ]} (128 * 128) [] [] [] 0 [] [].

(** ** The text of a value *)

(** An input unfolded along its references: what the encoder meets when
    no collection occurs twice and no deferred value or stream occurs at
    all. A leaf carries the value of its position after the [toJSON] hook
    and the replacer. *)

#[local] Set Warnings "-register-all".

Inductive tree :=
| Leaf (v : value)
| Items (a : addr) (items : list tree)
| Entries (a : addr) (entries : list (string * tree)).

Fixpoint unfold_items (f : string -> value -> option tree) (i : nat) (items : list value)
  : option (list tree) :=
  match items with
  | [] => Some []
  | item :: rest =>
      t ← f (nat_to_string i) item;
      ts ← unfold_items f (S i) rest;
      Some (t :: ts)
  end.

Fixpoint unfold_entries (f : string -> value -> option tree) (get : string -> value)
    (ks : list string) : option (list (string * tree)) :=
  match ks with
  | [] => Some []
  | k :: rest =>
      t ← f k (get k);
      ts ← unfold_entries f get rest;
      Some ((k, t) :: ts)
  end.

Definition transform_with (h : heap) (rep : option (string -> value -> value))
    (key : string) (v : value) : value :=
  drop_callable (match rep with
                 | Some f => f key (apply_toJSON h v)
                 | None => apply_toJSON h v
                 end).

(** [None]: the value is deeper than [n], or holds a deferred value, a
    stream or a BigInt. *)
Fixpoint unfold (n : nat) (h : heap) (rep : option (string -> value -> value))
    (key : string) (v : value) : option tree :=
  match n with
  | O => None
  | S n' =>
      match transform_with h rep key v with
      | VRef a =>
          match obj_shape (deref h a) with
          | ArrayOf items => Items a <$> unfold_items (unfold n' h rep) 0 items
          | Plain entries =>
              Entries a <$> unfold_entries (unfold n' h rep) (property h (VRef a))
                              (map fst entries)
          | _ => None
          end
      | VBigInt _ => None
      | v' => Some (Leaf v')
      end
  end.

Fixpoint addrs (t : tree) : list addr :=
  match t with
  | Leaf _ => []
  | Items a ts => a :: flat_map addrs ts
  | Entries a es => a :: flat_map (fun e => addrs (snd e)) es
  end.

Definition literal (v : value) : string :=
  match primitiveToString v with
  | inr str => str
  | inl _ => EmptyString
  end.

(** A newline and the indentation of depth [d], when pretty-printing. *)
Definition line (sp : option string) (d : nat) : string :=
  match sp with
  | Some unit => newline +:+ repeat_string unit d
  | None => EmptyString
  end.

Definition colon (sp : option string) : string :=
  match sp with
  | Some _ => ": "
  | None => ":"
  end.

(** Every part but the first is preceded by a comma. *)
Fixpoint separated (first : bool) (parts : list string) : string :=
  match parts with
  | [] => EmptyString
  | part :: rest => (if first then EmptyString else ",") +:+ part +:+ separated false rest
  end.

Definition shown (e : string * tree) : bool :=
  match snd e with
  | Leaf VUndefined => false
  | _ => true
  end.

(** The entries that are written, each with its text: an entry whose
    value is undefined is left out. *)
Definition written (part : string * tree -> string) (entries : list (string * tree))
  : list string :=
  omap (fun e => if shown e then Some (part e) else None) entries.

(** The text of a value whose entries, when it has any, are at nesting
    depth [d]: every item or entry is preceded by the line break of depth
    [d], a key is followed by the colon, and the closing bracket is
    preceded by the line break of depth [d - 1]; the closing brace is,
    when an entry has been written. *)
Fixpoint format (sp : option string) (d : nat) (t : tree) : string :=
  match t with
  | Leaf v => literal v
  | Items _ [] => "[]"
  | Items _ items =>
      "[" +:+ separated true (map (fun item => line sp d +:+ format sp (S d) item) items)
        +:+ line sp (d - 1) +:+ "]"
  | Entries _ [] => "{}"
  | Entries _ entries =>
      let parts :=
        written (fun e => line sp d +:+ quoteString (fst e) +:+ colon sp
                            +:+ format sp (S d) (snd e)) entries in
      "{" +:+ separated true parts
        +:+ (if is_null parts then EmptyString else line sp (d - 1)) +:+ "}"
  end.

(** The sentence of the specification read literally: the closing brace
    of a keyed collection that has a key is always on its own line. *)
Fixpoint format_as_stated (sp : option string) (d : nat) (t : tree) : string :=
  match t with
  | Leaf v => literal v
  | Items _ [] => "[]"
  | Items _ items =>
      "[" +:+ separated true (map (fun item => line sp d +:+ format_as_stated sp (S d) item) items)
        +:+ line sp (d - 1) +:+ "]"
  | Entries _ [] => "{}"
  | Entries _ entries =>
      let parts :=
        written (fun e => line sp d +:+ quoteString (fst e) +:+ colon sp
                            +:+ format_as_stated sp (S d) (snd e)) entries in
      "{" +:+ separated true parts +:+ line sp (d - 1) +:+ "}"
  end.

(** The longest string handed to [push] while the value is encoded. *)
Fixpoint widest (sp : option string) (d : nat) (t : tree) : nat :=
  match t with
  | Leaf v => String.length (literal v)
  | Items _ items =>
      foldr (fun item w => Nat.max (widest sp (S d) item) w)
        (Nat.max 2 (Nat.max (String.length (line sp d)) (S (String.length (line sp (d - 1))))))
        items
  | Entries _ entries =>
      foldr (fun e w =>
               if shown e
               then Nat.max (String.length (line sp d +:+ quoteString (fst e) +:+ colon sp))
                      (Nat.max (widest sp (S d) (snd e)) w)
               else w)
        (Nat.max 2 (String.length (line sp (d - 1))))
        entries
  end.

(** The encoder is neither ended nor waiting for a deferred value or a
    tick, and its buffer has room: fewer bytes than the pull size are
    staged, in a buffer of twice that size. *)
Definition steady (s : encoder) : bool :=
  negb (_ended s) && is_null (pending s) && is_null (ticks s)
  && (0 <? _readSize s) && (_bufferOffset s <? _readSize s)
  && match _buffer s with
     | Some buf => 2 * _readSize s <=? List.length buf
     | None => false
     end.

(** [n] calls of the handler on top of the stack, each made as the
    driver makes it: with the processing flag set, on a frame that is not
    awaiting; each call leaves the encoder steady, with the pull size it
    had. *)
Fixpoint steps (n : nat) (s : encoder) : option encoder :=
  match n with
  | O => Some s
  | S n' =>
      match _stack s with
      | [] => None
      | top :: _ =>
          if awaiting top then None
          else
            match run_handler top (with_processing true s) with
            | Ok s' =>
                if steady s' && (_readSize s' =? _readSize s) then steps n' s' else None
            | Throw _ _ => None
            end
      end
  end.

(** Everything the encoder has produced: the chunks handed over, then
    the bytes staged in the buffer. *)
Definition emitted (s : encoder) : list ascii :=
  received (output s) ++ take (_bufferOffset s) (default [] (_buffer s)).

(** The pull size is in force, the buffer has twice that size, and fewer
    bytes than the pull size are staged. *)
Definition room (size : nat) (s : encoder) : Prop :=
  _readSize s = size
  /\ 0 < size
  /\ _bufferOffset s < size
  /\ exists buf, _buffer s = Some buf /\ 2 * size <= List.length buf.

(** The encoder has not ended, and waits for no deferred value and no
    tick. *)
Definition quiet (s : encoder) : Prop :=
  _ended s = false /\ pending s = [] /\ ticks s = [].

Definition roomy (size : nat) (s : encoder) : Prop := room size s /\ quiet s.

(** What the handlers of a value leave as it was, the guard apart. *)
Definition undisturbed (s s' : encoder) : Prop :=
  heap_of s' = heap_of s
  /\ replacer s' = replacer s
  /\ space s' = space s
  /\ pending s' = pending s
  /\ listeners s' = listeners s
  /\ errorListeners s' = errorListeners s
  /\ created s' = created s
  /\ error_slot s' = error_slot s
  /\ _ended s' = _ended s
  /\ ticks s' = ticks s.

(** A step that emits [txt] in order and fits. *)
Definition emits (size : nat) (txt : string) (s s' : encoder) : Prop :=
  roomy size s'
  /\ emitted s' = emitted s ++ bytes txt
  /\ same_sources s s'.

(** The prefix of a sequence item. *)
Definition item_prefix (sp : option string) (d : nat) (index : string) : string :=
  (if String.eqb index "0" then EmptyString else ",") +:+ line sp d.

(** The prefix of a keyed entry. *)
Definition entry_prefix (sp : option string) (d : nat) (first : bool) (key : string) : string :=
  (if first then EmptyString else ",") +:+ line sp d +:+ quoteString key +:+ colon sp.

(** The stack after the caller has moved its cursor. *)
Definition cursor_stack (cursor : option nat) (stk : list frame) : list frame :=
  match cursor with
  | None => stk
  | Some height =>
      if height <? List.length stk
      then alter (fun f => set_index (S (index f)) f) (List.length stk - 1 - height) stk
      else stk
  end.

(** The text [txt] has been emitted in order, with room left, and the
    guard has grown by members of [guard] at most. *)
Definition produced (size : nat) (txt : string) (guard : list addr) (s s' : encoder) : Prop :=
  roomy size s'
  /\ emitted s' = emitted s ++ bytes txt
  /\ undisturbed s s'
  /\ (forall a, a ∈ _visited s' -> a ∈ _visited s \/ a ∈ guard).

(** What the run of a value establishes: its text has been produced, the
    stack is [stk], and the depth is what it was. *)
Definition done_value (size : nat) (txt : string) (stk : list frame) (guard : list addr)
    (s s' : encoder) : Prop :=
  produced size txt guard s s' /\ _stack s' = stk /\ _depth s' = _depth s.

(** The statement proved for every depth [n] of unfolding: from the
    instance in which the position's prefix has been emitted, the call
    returns, and a number of handler steps later the text of the value
    has been emitted and the stack is the caller's again. *)
Definition value_spec (size n : nat) : Prop :=
  forall key v cb cursor t s sc d,
    unfold n (heap_of s) (replacer s) key v = Some t ->
    (is_processObjectEntry cb = true -> t <> Leaf VUndefined) ->
    call cb key s = Ok sc ->
    roomy size sc ->
    _depth sc = Z.of_nat d ->
    widest (active_space sc) (S d) t <= size ->
    NoDup (addrs t) ->
    (forall a, a ∈ addrs t -> a ∉ _visited sc) ->
    below_top cursor sc ->
    exists k s1 s2,
      processValue key v cb s = Ok s1
      /\ roomy size s1
      /\ steps k (after_call cursor s1) = Some s2
      /\ done_value size (format (active_space sc) (S d) t)
           (cursor_stack cursor (_stack sc)) (addrs t) sc s2.

(** The text of one entry. *)
Definition entry_text (sp : option string) (de : nat) (e : string * tree) : string :=
  line sp de +:+ quoteString (fst e) +:+ colon sp +:+ format sp (S de) (snd e).

Definition entry_fits (size : nat) (sp : option string) (de : nat) (e : string * tree) : Prop :=
  shown e = true ->
  String.length (line sp de +:+ quoteString (fst e) +:+ colon sp) <= size
  /\ widest sp (S de) (snd e) <= size.

(** ** From handler steps to the consumer's pulls *)

(** The rest of a driver run, then the consumer pulling until the end. *)
Definition rest_of_run (rounds fuel0 fuel size : nat) (s : encoder) : option result :=
  match conclude (drive fuel0 (with_processing true s)) with
  | Some (Ok s1) => consume rounds fuel size (run_ticks s1)
  | other => other
  end.

(** The instance after the allocation of the first pull. *)
Definition first_pull (size : nat) (s : encoder) : encoder :=
  with_buffer (Some (replicate (2 * size) zero_byte)) (with_readSize size s).

(** The text of a value at the root, as the instance would indent it. *)
Definition root_text (h : heap) (v : value) (r : replacer_arg) (sp : space_arg) (t : tree)
  : string :=
  format (active_space (createJsonStringifyStream h v r sp)) 1 t.

(** The sentence of the specification about the layout, read literally,
    for values that unfold to a tree without shared collections, every
    token of which fits the pull size. *)
Definition output_as_stated : Prop :=
  forall h v r sp size n t rounds fuel out,
    unfold n h (normalizeReplacer r) EmptyString v = Some t ->
    NoDup (addrs t) ->
    widest (active_space (createJsonStringifyStream h v r sp)) 1 t <= size ->
    0 < size ->
    stringify rounds fuel size h v r sp = Some out ->
    received out
    = bytes (format_as_stated (active_space (createJsonStringifyStream h v r sp)) 1 t).

(** [{ a: undefined }] *)
Definition omitted_only : heap := <[ 1 := plain [("a", VUndefined)] ]> ∅.

(** [{ a: [1, 2], b: undefined, c: { d: null } }] *)
Definition nested : heap :=
  <[ 1 := plain [("a", VRef 2); ("b", VUndefined); ("c", VRef 3)] ]>
    (<[ 2 := array [VNumber (Finite 1); VNumber (Finite 2)] ]>
       (<[ 3 := plain [("d", VNull)] ]> ∅)).

Definition nested_tree : tree :=
  Entries 1 [("a", Items 2 [Leaf (VNumber (Finite 1)); Leaf (VNumber (Finite 2))]);
             ("b", Leaf VUndefined);
             ("c", Entries 3 [("d", Leaf VNull)])].

(** * Definitions for the further properties *)

(** ** Reading a quoted string back *)

(** The value of a hexadecimal digit, in either case. *)
Definition hex_value (c : ascii) : option nat :=
  let n := nat_of_ascii c in
  if (48 <=? n) && (n <=? 57) then Some (n - 48)
  else if (97 <=? n) && (n <=? 102) then Some (n - 87)
  else if (65 <=? n) && (n <=? 70) then Some (n - 55)
  else None.

(** The character a one-letter escape stands for. *)
Definition escaped (c : ascii) : option ascii :=
  let n := nat_of_ascii c in
  if n =? 34 then Some (chr 34)
  else if n =? 92 then Some (chr 92)
  else if n =? 47 then Some (chr 47)
  else if n =? 98 then Some (chr 8)
  else if n =? 102 then Some (chr 12)
  else if n =? 110 then Some (chr 10)
  else if n =? 114 then Some (chr 13)
  else if n =? 116 then Some (chr 9)
  else None.

(** A JSON string after its opening quote, as [JSON.parse] reads it, for
    strings of single-byte characters: [None] for a raw control
    character, an unknown escape, a character above 255, a missing
    closing quote, or text after it. *)
Fixpoint unquote_body (s : string) : option string :=
  match s with
  | EmptyString => None
  | String c rest =>
      if nat_of_ascii c =? 34 then
        match rest with
        | EmptyString => Some EmptyString
        | _ => None
        end
      else if nat_of_ascii c =? 92 then
        match rest with
        | EmptyString => None
        | String e rest1 =>
            if nat_of_ascii e =? 117 then
              match rest1 with
              | String a (String b (String x (String y rest2))) =>
                  match hex_value a, hex_value b, hex_value x, hex_value y with
                  | Some 0, Some 0, Some hi, Some lo =>
                      String (chr (16 * hi + lo)) <$> unquote_body rest2
                  | _, _, _, _ => None
                  end
              | _ => None
              end
            else
              match escaped e with
              | Some d => String d <$> unquote_body rest1
              | None => None
              end
        end
      else if nat_of_ascii c <? 32 then None
      else String c <$> unquote_body rest
  end.

Definition unquoteString (s : string) : option string :=
  match s with
  | String c rest => if nat_of_ascii c =? 34 then unquote_body rest else None
  | EmptyString => None
  end.

(** No character of the text is a control character. *)
Definition printable (s : string) : Prop :=
  Forall (fun c => 32 <= nat_of_ascii c) (bytes s).

(** ** The formatting policy *)

(** The keys an array given as replacer lets through: the root's empty
    key, and its string and number items, the numbers as strings. *)
Definition listed (items : list value) (key : string) : Prop :=
  key = EmptyString \/ exists item, item ∈ items /\ whitelist_item item = Some key.

Definition space_char : ascii := chr 32.

(** An instance with the replacer [['a']]: the key [a] is listed, the
    index [0] is not. *)
Definition filtered : encoder :=
  createJsonStringifyStream ∅ VNull (ReplacerArray [VString "a"]) SpaceOther.

(** ** The size of the chunks *)

(** The pull size [b] is in force and the buffer holds at least [b]
    bytes. *)
Definition lodged (b : nat) (s : encoder) : Prop :=
  _readSize s = b /\ exists buf, _buffer s = Some buf /\ b <= List.length buf.

(** From [s] to [s'] chunks of [b] bytes have been handed over, and
    nothing else. *)
Definition flushes (b : nat) (s s' : encoder) : Prop :=
  exists cs, output s' = output s ++ (Chunk <$> cs)
             /\ Forall (fun c => List.length c = b) cs.

Definition paced (b : nat) (s s' : encoder) : Prop :=
  lodged b s -> lodged b s' /\ flushes b s s'.

(** The state in which the driver has left its loop. *)
Definition exit_state (exit : loop_exit) : encoder :=
  match exit with
  | Drained s | Returned s | Thrown _ s => s
  end.

(** The pull size [_read(size)] puts in force. *)
Definition pull_size (size : nat) (s : encoder) : nat :=
  if size =? 0 then readableHighWaterMark s else size.

(** The end of a run: nothing, the end of the stream, or the staged bytes
    and the end of the stream. *)
Definition closing (tail : list signal) : Prop :=
  tail = [] \/ tail = [EndOfStream] \/ exists c, tail = [Chunk c; EndOfStream].

(** [[1, 2, 3]], and the first pull of two bytes. *)
Definition three_items : encoder :=
  createJsonStringifyStream
    (<[ 1 := array [VNumber (Finite 1); VNumber (Finite 2); VNumber (Finite 3)] ]> ∅)
    (VRef 1) ReplacerOther SpaceOther.

Definition three_items_pulled : result :=
  default (Ok three_items) (_read 10 2 three_items).

(** An instance that waits for a deferred value with three bytes staged
    in a buffer of eight. *)
Definition waiting : encoder :=
  Encoder ∅ None None 0 None false false 4
    (Some (bytes "abc" ++ replicate 5 zero_byte)) 3
    [set_awaiting true (node h_noop VUndefined)] ∅ (128 * 128) [] [] [] 0 [] [].

(** [o.self = o], with [o] on the active path. *)
Definition inside_self : encoder :=
  with_visited {[ 1 ]}
    (createJsonStringifyStream self_reference (VRef 1) ReplacerOther SpaceOther).

(** The instance inside the handler of [{ a: undefined }], about to
    process the entry [a]. *)
Definition at_omitted_entry : encoder :=
  Encoder omitted_only None None 1 None true false 16
    (Some (bytes "{" ++ replicate 31 zero_byte)) 1
    [Frame h_processObject (VRef 1) 0 true ["a"] false false None;
     node h_push (VString "}")]
    {[ 1 ]} (128 * 128) [] [] [] 0 [] [].

(** [[1, 'abcd']] after [[1,] has been staged, with a pull size of four. *)
Definition before_long_token : encoder :=
  Encoder (<[ 1 := array [VNumber (Finite 1); VString "abcd"] ]> ∅) None None 1 None
    true false 4 (Some (bytes "[1," ++ replicate 5 zero_byte)) 3
    [Frame h_processArray (VRef 1) 1 false [] false false None; node h_push (VString "]")]
    {[ 1 ]} (128 * 128) [] [] [] 0 [] [].

(** ** The depth counter *)

(** The number of frames on the stack whose pop takes one off the depth:
    those of keyed collections, sequences and object streams. *)
Fixpoint nesting (stk : list frame) : nat :=
  match stk with
  | [] => 0
  | f :: rest => (if leaves_guard (handler f) then 1 else 0) + nesting rest
  end.

(** As long as the encoder has not ended, its depth is the number of such
    frames. *)
Definition balanced (s : encoder) : Prop :=
  _ended s = false -> _depth s = Z.of_nat (nesting (_stack s)).

Definition keeps_balance (s s' : encoder) : Prop := balanced s -> balanced s'.

(** An object stream at the root, attached, whose next item is [7]. *)
Definition reading_items : encoder :=
  Encoder (<[ 1 := stream (Readable true false false true 1 [Some (VNumber (Finite 7))]) ]> ∅)
    None None 1 None true false 16 (Some (bytes "[" ++ replicate 31 zero_byte)) 1
    [Frame h_processReadableObject (VRef 1) 0 false [] true false (Some 0);
     node h_push (VString "]")]
    ∅ (128 * 128) [] [(1, 0)] [1] 1 [] [].

(** Two pulls of two bytes on [[1, 2, 3]]. *)
Definition three_items_run : result :=
  default (Ok three_items) (run_events 10 [Pull 2; Pull 2] three_items).

(** ** The caller of the encoder *)

(** [pretty || undefined]: a falsy option value is replaced by
    [undefined]. Among the values [space_arg] tells apart, the number
    zero, NaN and the empty string are falsy. *)
Definition or_undefined (pretty : space_arg) : space_arg :=
  match pretty with
  | SpaceNumber (Finite 0) => SpaceOther
  | SpaceNumber NaN => SpaceOther
  | SpaceString EmptyString => SpaceOther
  | other => other
  end.

(** [createJsonStringifyStream(data, null, pretty || undefined)], the
    stream [getData] builds from the collected data. *)
Definition getData_stream (h : heap) (data : value) (pretty : space_arg) : encoder :=
  createJsonStringifyStream h data ReplacerOther (or_undefined pretty).

(** * Properties of the encoder *)

(** ** What [push] and the callbacks leave alone *)

Lemma same_sources_refl s : same_sources s s.
Proof. repeat split. Qed.

Lemma same_sources_trans s1 s2 s3 :
  same_sources s1 s2 -> same_sources s2 s3 -> same_sources s1 s3.
Proof.
  unfold same_sources. intros H1 H2.
  destruct H1 as (?&?&?&?&?&?&?&?&?&?&?&?), H2 as (?&?&?&?&?&?&?&?&?&?&?&?).
  repeat split; congruence.
Qed.

Lemma write_and_flush_same_sources data s : same_sources s (state_of (write_and_flush data s)).
Proof.
  unfold write_and_flush. destruct (_buffer s); simpl; [|repeat split].
  destruct (_ <? _); simpl; repeat split.
Qed.

Lemma push_same_sources data s : same_sources s (state_of (push data s)).
Proof.
  unfold push. destruct (_ <? String.length data).
  - eapply same_sources_trans; [|apply write_and_flush_same_sources]. repeat split.
  - apply write_and_flush_same_sources.
Qed.

Lemma push_indented_same_sources sp n suffix s :
  same_sources s (state_of (push_indented sp n suffix s)).
Proof.
  unfold push_indented. destruct (js_repeat sp n); [apply push_same_sources | apply same_sources_refl].
Qed.

Lemma and_then_same_sources r k s :
  same_sources s (state_of r) ->
  (forall s', same_sources s' (state_of (k s'))) ->
  same_sources s (state_of (r ;> k)).
Proof.
  intros Hr Hk. destruct r as [s'|e s']; simpl in *; [|exact Hr].
  eapply same_sources_trans; [exact Hr | apply Hk].
Qed.

Lemma call_same_sources cb key s : same_sources s (state_of (call cb key s)).
Proof.
  destruct cb; simpl; [apply same_sources_refl| |].
  - unfold processObjectEntry. destruct (_stack s) as [|current prev]; [apply same_sources_refl|].
    apply and_then_same_sources.
    + destruct (firstEntry current); [|apply push_same_sources].
      unfold update_top. destruct (_stack s); repeat split.
    + intros s'. destruct (active_space s'); [apply push_indented_same_sources | apply push_same_sources].
  - unfold processArrayItem. apply and_then_same_sources.
    + destruct (String.eqb key "0"); [apply same_sources_refl | apply push_same_sources].
    + intros s'. destruct (active_space s'); [apply push_indented_same_sources | apply same_sources_refl].
Qed.

(** ** Omitted values and non-finite numbers *)

(** An omitted value in a keyed collection's value position leaves the
    encoder as it was. *)
Lemma omitted_entry_is_silent s key v :
  dropped (replaced s key v) = true ->
  processValue key v cb_processObjectEntry s = Ok s.
Proof.
  unfold processValue, transform. fold (replaced s key v).
  intros Hd. by destruct (replaced s key v).
Qed.



(** At the level of the frame: an entry whose value is omitted only moves
    the cursor of the keyed collection. *)
Lemma processObject_skips_omitted current prev s key :
  _stack s = current :: prev ->
  keys current !! index current = Some key ->
  dropped (replaced s key (property (heap_of s) (fvalue current) key)) = true ->
  processObject current s = Ok (with_stack (set_index (S (index current)) current :: prev) s).
Proof.
  intros Hstk Hkey Hd. unfold processObject.
  assert (Hlt : index current < List.length (keys current)) by (eapply lookup_lt_Some; eauto).
  destruct (Nat.eqb_spec (index current) (List.length (keys current))) as [Heq|_]; [lia|].
  rewrite Hkey. simpl.
  rewrite (omitted_entry_is_silent _ _ _ Hd). simpl. f_equal.
  unfold bump_index. rewrite Hstk, Nat.sub_diag.
  destruct (Nat.ltb_spec (List.length (current :: prev) - 1) (List.length (current :: prev)));
    [reflexivity | simpl in *; lia].
Qed.

(** ** Producer sources that cannot be attached *)

(** C7. A readable stream that has already ended, or that is flowing,
    aborts the encoder when it is met: after the position's prefix the
    error slot holds the corresponding error, the stack is dropped, no
    stream frame or listener is created and nothing is read from the
    stream. *)
Theorem unattachable_stream_aborts s key v cb a st :
  transform s key v = VRef a ->
  obj_shape (deref (heap_of s) a) = Stream st ->
  readableEnded st || readableFlowing st = true ->
  let e := if readableEnded st then StreamAlreadyEnded else StreamUncontrolledMode in
  processValue key v cb s = (call cb key s ;> fun s' => Ok (abort e s'))
  /\ forall s', processValue key v cb s = Ok s' ->
       error_slot s' = Some e
       /\ _ended s' = true
       /\ _stack s' = []
       /\ heap_of s' = heap_of s
       /\ created s' = created s
       /\ listeners s' = listeners s
       /\ errorListeners s' = errorListeners s.
Proof.
  intros Hv Hst Hbad e.
  assert (Heq : processValue key v cb s = (call cb key s ;> fun s' => Ok (abort e s'))).
  { unfold processValue. rewrite Hv. unfold getType. rewrite Hst.
    pose proof (call_same_sources cb key s) as Hsame.
    destruct (call cb key s) as [s1|err s1]; simpl in *;
      [|destruct (objectMode st); reflexivity].
    destruct Hsame as (Hh & _). rewrite Hh, Hst. subst e.
    destruct (objectMode st), (readableEnded st), (readableFlowing st);
      try discriminate Hbad; reflexivity. }
  split; [exact Heq|].
  intros s' Hok. rewrite Heq in Hok.
  pose proof (call_same_sources cb key s) as Hsame.
  destruct (call cb key s) as [s1|err s1]; simpl in *; [|discriminate Hok].
  injection Hok as <-.
  destruct Hsame as (?&?&?&?&?&?&?&?&?&?&?&?). simpl. by repeat split.
Qed.

Lemma unattachable_stream_aborts_witness :
  processValue "log" (VRef 1) cb_noop meets_ended_source
  = Ok (abort StreamAlreadyEnded meets_ended_source).
Proof.
  exact (proj1 (unattachable_stream_aborts meets_ended_source "log" (VRef 1) cb_noop 1
                  (Readable false true false false 0 []) eq_refl eq_refl eq_refl)).
Defined.

(** ** The terminal error *)

Lemma run_ticks_idle s : ticks s = [] -> run_ticks s = s.
Proof. destruct s; simpl; intros ->; reflexivity. Qed.

Lemma fold_abort_tick_fields l : forall s,
  let s' := fold_left (fun acc e => abort_tick e acc) l s in
  _stack s' = _stack s /\ _ended s' = _ended s /\ error_slot s' = error_slot s
  /\ _processing s' = _processing s.
Proof.
  induction l as [|e l IH]; intros s; simpl; [by repeat split|].
  destruct (IH (abort_tick e s)) as (?&?&?&?). by repeat split.
Qed.

Lemma run_ticks_abort s e :
  run_ticks (abort e s) = abort_tick e (with_ticks [] (abort e (run_ticks s))).
Proof.
  unfold run_ticks. simpl. rewrite fold_left_app. simpl.
  generalize (ticks s) as l. intros l. revert s.
  induction l as [|x l IH]; intros s; [reflexivity|].
  simpl. specialize (IH (abort_tick x s)). simpl in IH. exact IH.
Qed.

Lemma notify_null fuel ids s : _stack s = [] -> notify fuel ids s = Some (Ok s).
Proof.
  intros Hs. induction ids as [|id ids IH]; [reflexivity|].
  simpl. unfold continueProcessing. rewrite Hs. simpl. exact IH.
Qed.

Lemma dispatch_after_end fuel ev s :
  drives ev = true -> _ended s = true -> _stack s = [] -> ticks s = [] ->
  dispatch fuel ev s = Some (Ok s).
Proof.
  intros Hev Hend Hstk Hticks. unfold dispatch.
  destruct ev; try discriminate Hev; simpl.
  - unfold _read. rewrite Hend. by rewrite run_ticks_idle.
  - rewrite notify_null by exact Hstk. by rewrite run_ticks_idle.
  - rewrite notify_null by exact Hstk. by rewrite run_ticks_idle.
Qed.

Lemma run_events_after_end fuel evs s :
  forallb drives evs = true -> _ended s = true -> _stack s = [] -> ticks s = [] ->
  run_events fuel evs s = Some (Ok s).
Proof.
  intros Hevs Hend Hstk Hticks. induction evs as [|ev evs IH]; [reflexivity|].
  simpl in *. apply andb_true_iff in Hevs as [Hev Hevs].
  rewrite dispatch_after_end by assumption. by apply IH.
Qed.

(** What one abort does: the error slot holds the error; no driver run
    or pull changes the instance any more, neither before nor after the
    queued tick has run; the tick reports the error once, then ends the
    stream, and drops the buffer without handing its bytes over. *)
Theorem abort_is_terminal s e fuel evs :
  forallb drives evs = true ->
  let s1 := abort e s in
  let s2 := run_ticks s1 in
  error_slot s1 = Some e
  /\ (forall size, _read fuel size s1 = Some (Ok s1))
  /\ processStack fuel s1 = Some (Ok s1)
  /\ error_slot s2 = Some e
  /\ output s2 = output (run_ticks s) ++ [ErrorEvent e; EndOfStream]
  /\ _buffer s2 = None
  /\ run_events fuel evs s2 = Some (Ok s2).
Proof.
  intros Hevs s1 s2.
  split; [reflexivity|]. split; [reflexivity|]. split.
  { reflexivity. }
  subst s2 s1. rewrite run_ticks_abort.
  split; [reflexivity|]. split; [reflexivity|]. split; [reflexivity|].
  by apply run_events_after_end.
Qed.

Lemma abort_is_terminal_witness :
  let s1 := abort CircularStructure (createJsonStringifyStream ∅ VNull ReplacerOther SpaceOther) in
  run_events 5 [Pull 16; StreamReadable 1; Pull 4] (run_ticks s1) = Some (Ok (run_ticks s1)).
Proof.
  apply (abort_is_terminal (createJsonStringifyStream ∅ VNull ReplacerOther SpaceOther)
           CircularStructure 5 [Pull 16; StreamReadable 1; Pull 4]).
  reflexivity.
Defined.

(** ** The cycle guard *)

(** Meeting a keyed collection or a sequence that is in the guard aborts
    with CircularStructure, after the position's prefix. *)
Lemma reentry_aborts s key v cb a :
  transform s key v = VRef a ->
  (exists entries, obj_shape (deref (heap_of s) a) = Plain entries)
  \/ (exists items, obj_shape (deref (heap_of s) a) = ArrayOf items) ->
  a ∈ _visited s ->
  processValue key v cb s = (call cb key s ;> fun s' => Ok (abort CircularStructure s')).
Proof.
  intros Hv Hshape Hin. unfold processValue. rewrite Hv. unfold getType.
  pose proof (call_same_sources cb key s) as Hsame.
  destruct Hshape as [[entries Hs]|[items Hs]]; rewrite Hs;
    destruct (call cb key s) as [s1|e s1]; simpl in *; try reflexivity;
    destruct Hsame as (_&_&_&_&Hvis&_); rewrite Hvis;
    by rewrite bool_decide_eq_true_2.
Qed.

(** Popping the frame of a non-empty collection takes it out of the guard. *)
Lemma popStack_leaves_guard s top prev a :
  _stack s = top :: prev ->
  leaves_guard (handler top) = true ->
  fvalue top = VRef a ->
  exists s', popStack s = Ok s' /\ (a ∉ _visited s') /\ _stack s' = prev.
Proof.
  intros Hstk Hh Hv. unfold popStack. rewrite Hstk, Hh, Hv.
  eexists. split; [reflexivity|]. simpl. split; [|reflexivity].
  rewrite elem_of_difference, elem_of_singleton. tauto.
Qed.

(** The empty-collection fast path returns with the value still in the
    guard: no frame is pushed for it, so no pop ever removes it. *)
Lemma empty_collection_stays_guarded s key v cb a :
  transform s key v = VRef a ->
  obj_shape (deref (heap_of s) a) = Plain [] \/ obj_shape (deref (heap_of s) a) = ArrayOf [] ->
  forall s', processValue key v cb s = Ok s' -> _ended s' = false ->
  a ∈ _visited s'.
Proof.
  intros Hv Hshape s'. unfold processValue. rewrite Hv. unfold getType.
  pose proof (call_same_sources cb key s) as Hsame.
  destruct Hshape as [Hs|Hs]; rewrite Hs;
    (destruct (call cb key s) as [s1|e s1]; simpl in *; [|discriminate]);
    destruct Hsame as (Hheap&_&_&_&Hvis&_);
    (destruct (bool_decide (a ∈ _visited s1)); [intros [= <-]; discriminate|]);
    unfold object_keys; simpl; rewrite Hheap, Hs; simpl.
  - pose proof (push_same_sources "{}" (with_visited ({[a]} ∪ _visited s1) s1)) as Hp.
    intros Hok _. rewrite Hok in Hp. destruct Hp as (_&_&_&_&Hv'&_). simpl in Hv'.
    rewrite Hv'. apply elem_of_union_l, elem_of_singleton. reflexivity.
  - pose proof (push_same_sources "[]" (with_visited ({[a]} ∪ _visited s1) s1)) as Hp.
    intros Hok _. rewrite Hok in Hp. destruct Hp as (_&_&_&_&Hv'&_). simpl in Hv'.
    rewrite Hv'. apply elem_of_union_l, elem_of_singleton. reflexivity.
Qed.

(** ** Shared collections *)

(** C1. The same empty object met twice in a sequence is an acyclic input
    whose JSON text is [[{},{}]]; the encoder hands no byte to the
    consumer and reports a circular structure. *)
Theorem shared_empty_object_is_refused :
  stringify 10 10 16 shared_empty_object (VRef 1) ReplacerOther SpaceOther
  = Some [ErrorEvent CircularStructure; EndOfStream].
Proof. vm_compute. reflexivity. Qed.

(** C3. An empty array referenced by two sibling keys is reached through
    non-overlapping branches, and the encoder aborts with
    CircularStructure at the second one. *)
Theorem shared_empty_array_is_refused :
  stringify 10 10 16 shared_empty_array (VRef 1) ReplacerOther SpaceOther
  = Some [ErrorEvent CircularStructure; EndOfStream].
Proof. vm_compute. reflexivity. Qed.

(** A shared collection that is not empty is encoded at both places. *)
Lemma shared_object_is_encoded :
  received_text (stringify 10 10 16 shared_object (VRef 1) ReplacerOther SpaceOther)
  = Some (json "[{'n':1},{'n':1}]").
Proof. vm_compute. reflexivity. Qed.

(** A collection met again on the active path is refused. *)
Lemma self_reference_is_refused :
  stringify 10 10 16 self_reference (VRef 1) ReplacerOther SpaceOther
  = Some [ErrorEvent CircularStructure; EndOfStream].
Proof. vm_compute. reflexivity. Qed.

(** ** Pulls *)

Lemma stuck_after_two_pulls :
  run_events 2 [Pull 4; Pull 4] short_string
  = Some (Ok (stuck [Chunk (bytes (json "'abc")); Chunk (bytes "defg")])).
Proof. vm_compute. reflexivity. Qed.

Lemma stuck_pull fuel out :
  dispatch (S fuel) (Pull 4) (stuck out) = Some (Ok (stuck (out ++ [Chunk (bytes "defg")]))).
Proof. reflexivity. Qed.

Lemma stuck_pulls fuel n : forall out,
  run_events (S fuel) (replicate n (Pull 4)) (stuck out)
  = Some (Ok (stuck (out ++ replicate n (Chunk (bytes "defg"))))).
Proof.
  induction n as [|n IH]; intros out; cbn [replicate run_events].
  - by rewrite app_nil_r.
  - rewrite stuck_pull, IH, <- app_assoc. reflexivity.
Qed.

Lemma run_events_app fuel evs evs' s s' :
  run_events fuel evs s = Some (Ok s') ->
  run_events fuel (evs ++ evs') s = run_events fuel evs' s'.
Proof.
  revert s. induction evs as [|ev evs IH]; intros s; simpl.
  - by intros [= ->].
  - destruct (dispatch fuel ev s) as [[s1|e s1]|]; try discriminate. apply IH.
Qed.

(** C2. The string [abcdefg], whose JSON text has nine bytes, pulled four
    bytes at a time: after the first chunk every further pull hands over
    the same four bytes again, the stream never ends, and the text is
    never completed. *)
Theorem oversized_string_repeats_forever n :
  exists s,
    run_events 2 (replicate (2 + n) (Pull 4)) short_string = Some (Ok s)
    /\ output s = Chunk (bytes (json "'abc")) :: replicate (S n) (Chunk (bytes "defg"))
    /\ _ended s = false.
Proof.
  exists (stuck ([Chunk (bytes (json "'abc")); Chunk (bytes "defg")] ++ replicate n (Chunk (bytes "defg")))).
  split; [|split; reflexivity].
  change (replicate (2 + n) (Pull 4)) with ([Pull 4; Pull 4] ++ replicate n (Pull 4)).
  rewrite (run_events_app _ _ _ _ _ stuck_after_two_pulls).
  apply stuck_pulls.
Qed.

(** A token longer than the room is split, and the text pushed next by
    the same handler is written before the split-off remainder: pulled
    two bytes at a time, the colon of [{ k: 1 }] comes after the value. *)
Lemma text_after_a_split_overtakes :
  received_text (stringify 20 20 2 one_entry (VRef 1) ReplacerOther SpaceOther)
  = Some (json "{'k'1:}")
  /\ received_text (stringify 20 20 4 one_entry (VRef 1) ReplacerOther SpaceOther)
     = Some (json "{'k':1}").
Proof. split; vm_compute; reflexivity. Qed.

(** The pull size shrinks from sixteen to one while eleven bytes are
    staged: the pulls of one byte are answered with one byte per chunk,
    several chunks in a turn, and the last one with the eleven bytes
    that are left at the end. *)
Lemma final_flush_exceeds_the_pull :
  chunks (run_events 20 [Pull 16; Pull 1; Settle 0; Pull 1; Pull 1]
            (createJsonStringifyStream waits_for_item (VRef 1) ReplacerOther SpaceOther))
  = Some ["["; dquote; "a"; "b"; "c"; "defgh" +:+ dquote +:+ ",1,7]"].
Proof. vm_compute. reflexivity. Qed.

(** ** A second abort *)

(** C8. The stream fails while its first item, a deferred value, is
    pending: the encoder is aborted, reports the failure and ends. When
    the deferred value is settled afterwards, its continuation finds no
    stack to pop; the TypeError is caught and aborts again: it replaces
    the error in the slot and is reported as a second error, followed by
    a second end of stream. *)
Theorem second_abort_reports_again :
  reported (run_events 10 [Pull 16; StreamError 1 (Upstream "lost")]
              (createJsonStringifyStream erring_source (VRef 1) ReplacerOther SpaceOther))
  = Some ([ErrorEvent (Upstream "lost"); EndOfStream], Some (Upstream "lost"))
  /\ reported (run_events 10 [Pull 16; StreamError 1 (Upstream "lost"); Settle 0]
                 (createJsonStringifyStream erring_source (VRef 1) ReplacerOther SpaceOther))
     = Some ([ErrorEvent (Upstream "lost"); EndOfStream; ErrorEvent TypeError; EndOfStream],
             Some TypeError).
Proof. split; vm_compute; reflexivity. Qed.

(** ** Producer frames *)

Lemma three_attempts :
  read_attempt attached = Ok attempted1
  /\ read_attempt attempted1 = Ok attempted2
  /\ read_attempt attempted2 = Ok attempted3.
Proof. repeat split; vm_compute; reflexivity. Qed.

(** The first attempt reads [x]; the second finds nothing and suspends
    the frame; the third finds nothing again and pops it. *)
Lemma three_attempts_stacks :
  received (output attempted1) ++ take (_bufferOffset attempted1) (default [] (_buffer attempted1))
    = bytes "x"
  /\ (awaiting <$> _stack attempted1) = [false]
  /\ (awaiting <$> _stack attempted2) = [true]
  /\ _stack attempted3 = [].
Proof. repeat split; vm_compute; reflexivity. Qed.

(** C4, the literal reading fails: the third read attempt of the frame
    yields no unit, is not the first one, and pops the frame. *)
Lemma later_empty_read_pops : ~ empty_read_by_attempt_count.
Proof.
  intros stated.
  destruct three_attempts as (H1 & H2 & H3).
  assert (A2 : attempts 0 2 attached attempted2).
  { eapply attempts_S; [eapply attempts_S; [apply attempts_O | | | exact H1] | | | exact H2];
      reflexivity. }
  pose proof (stated before_attach 1 one_unit 2 attempted2
                (hd (node h_noop VNull) (_stack attempted2)) [] attempted3
                eq_refl A2 eq_refl eq_refl eq_refl H3) as Hc.
  simpl in Hc. destruct Hc as (top' & Hstk & _).
  vm_compute in Hstk. discriminate Hstk.
Qed.

(** C4, as the code has it. When the read of a stream frame yields no
    unit, the frame's [firstRead] flag decides: set, the frame is popped;
    clear, the frame stays on the stack, marked awaiting, with the flag
    set again. Nothing is emitted either way. *)
Theorem empty_read_follows_flag s top prev :
  _stack s = top :: prev ->
  is_reader (handler top) = true ->
  fst (stream_read (fvalue top) s) = None ->
  exists s',
    run_handler top s = Ok s'
    /\ output s' = output s
    /\ _bufferOffset s' = _bufferOffset s
    /\ _stack s' =
         if firstRead top then prev
         else set_awaiting true (set_firstRead true top) :: prev.
Proof.
  intros Hstk Hr Hnone.
  assert (Hrun : exists b, run_handler top s = streamReader b top s).
  { unfold run_handler. destruct (handler top); try discriminate Hr;
      [exists true | exists false]; reflexivity. }
  destruct Hrun as [b ->]. unfold streamReader.
  assert (Hs1 : _stack (snd (stream_read (fvalue top) s)) = top :: prev
                /\ output (snd (stream_read (fvalue top) s)) = output s
                /\ _bufferOffset (snd (stream_read (fvalue top) s)) = _bufferOffset s
                /\ _depth (snd (stream_read (fvalue top) s)) = _depth s
                /\ _visited (snd (stream_read (fvalue top) s)) = _visited s).
  { unfold stream_read. destruct (fvalue top); try by repeat split.
    destruct (obj_shape _); try by repeat split.
    destruct (script st); by repeat split. }
  destruct (stream_read (fvalue top) s) as [data s1]. simpl in *. subst data.
  destruct Hs1 as (Hstk1 & Hout & Hoff & _).
  destruct (firstRead top).
  - unfold popStack. rewrite Hstk1. eexists. split; [reflexivity|].
    destruct (leaves_guard (handler top)); simpl; by repeat split.
  - unfold update_top. rewrite Hstk1. eexists. split; [reflexivity|]. by repeat split.
Qed.

Lemma empty_read_follows_flag_witness :
  exists s',
    run_handler (hd (node h_noop VNull) (_stack attempted2)) (update_top (set_awaiting false) attempted2)
      = Ok s'
    /\ _stack s' = [].
Proof.
  destruct (empty_read_follows_flag (update_top (set_awaiting false) attempted2)
              (set_awaiting false (hd (node h_noop VNull) (_stack attempted2))) [])
    as (s' & Hrun & _ & _ & Hstk); [reflexivity | reflexivity | reflexivity |].
  exists s'. split; [exact Hrun | exact Hstk].
Defined.

(** The flag is set when the frame is created, and cleared by a read that
    yields a unit. *)
Lemma attach_sets_firstRead a st s :
  firstRead <$> head (_stack (attach_stream a st s)) = Some true.
Proof. reflexivity. Qed.

(** ** Deferred values *)

Lemma bump_index_pushStack height n s :
  height < List.length (_stack s) ->
  bump_index height (pushStack n s) = pushStack n (bump_index height s).
Proof.
  intros Hlt. unfold bump_index, pushStack. simpl.
  destruct (Nat.ltb_spec height (S (List.length (_stack s)))) as [_|]; [|lia].
  destruct (Nat.ltb_spec height (List.length (_stack s))) as [_|]; [|lia].
  replace (List.length (_stack s) - 0 - height) with (S (List.length (_stack s) - 1 - height)) by lia.
  reflexivity.
Qed.

Lemma length_stack_bump height s :
  List.length (_stack (bump_index height s)) = List.length (_stack s).
Proof.
  unfold bump_index. destruct (_ <? _); [|reflexivity]. simpl. apply length_alter.
Qed.

Lemma resumed_pushStack cursor n s :
  below_top cursor s ->
  resumed cursor (pushStack n s) = pushStack n (resumed cursor s).
Proof.
  intros H. unfold resumed. destruct cursor as [h|]; simpl.
  - rewrite bump_index_pushStack by exact H. reflexivity.
  - reflexivity.
Qed.

Lemma below_top_pushStack cursor n s : below_top cursor s -> below_top cursor (pushStack n s).
Proof. destruct cursor; simpl; [lia | done]. Qed.

(** Fields the cursor and the processing flag do not touch. *)
Lemma resumed_fields cursor s :
  heap_of (resumed cursor s) = heap_of s
  /\ replacer (resumed cursor s) = replacer s
  /\ space (resumed cursor s) = space s
  /\ _depth (resumed cursor s) = _depth s
  /\ _readSize (resumed cursor s) = _readSize s
  /\ _buffer (resumed cursor s) = _buffer s
  /\ _bufferOffset (resumed cursor s) = _bufferOffset s
  /\ _visited (resumed cursor s) = _visited s
  /\ List.length (_stack (resumed cursor s)) = List.length (_stack s).
Proof.
  unfold resumed. destruct cursor as [h|]; simpl; [|by repeat split].
  unfold bump_index. destruct (_ <? _); simpl; repeat split. apply length_alter.
Qed.

Lemma write_and_flush_resumed cursor data s :
  write_and_flush data (resumed cursor s) = lift (resumed cursor) (write_and_flush data s)
  /\ List.length (_stack (state_of (write_and_flush data s))) = List.length (_stack s).
Proof.
  destruct (resumed_fields cursor s) as (_&_&_&_&Hrs&Hbuf&Hoff&_).
  unfold write_and_flush. rewrite Hrs, Hoff, Hbuf.
  destruct (_buffer s) as [buf|]; simpl; [|by split].
  destruct (_ <? _readSize s); simpl; (split; [|reflexivity]);
    unfold resumed; destruct cursor as [h|]; simpl in *; try reflexivity;
    unfold bump_index; simpl; destruct (h <? _); reflexivity.
Qed.

Lemma below_top_length cursor s s' :
  List.length (_stack s) <= List.length (_stack s') -> below_top cursor s -> below_top cursor s'.
Proof. destruct cursor; simpl; [lia | done]. Qed.

Lemma push_resumed cursor data s :
  below_top cursor s ->
  push data (resumed cursor s) = lift (resumed cursor) (push data s)
  /\ below_top cursor (state_of (push data s)).
Proof.
  intros Hb. destruct (resumed_fields cursor s) as (_&_&_&_&Hrs&Hbuf&Hoff&_).
  unfold push. rewrite Hrs, Hoff.
  destruct (_ <? String.length data).
  - rewrite <- resumed_pushStack by exact Hb.
    destruct (write_and_flush_resumed cursor
                (slice_to (_bufferOffset s + _readSize s) data)
                (pushStack (node h_push (VString (slice_from (_bufferOffset s + _readSize s) data))) s))
      as [-> Hlen].
    split; [reflexivity|]. eapply below_top_length; [|exact Hb]. rewrite Hlen. simpl. lia.
  - destruct (write_and_flush_resumed cursor data s) as [-> Hlen].
    split; [reflexivity|]. eapply below_top_length; [|exact Hb]. rewrite Hlen. lia.
Qed.

Lemma resumed_update_top cursor f s :
  (forall fr i, f (set_index i fr) = set_index i (f fr)) ->
  (forall fr, index (f fr) = index fr) ->
  resumed cursor (update_top f s) = update_top f (resumed cursor s).
Proof.
  intros Hcomm Hidx. unfold resumed, update_top, after_call, bump_index.
  destruct s as [? ? ? ? ? ? ? ? ? ? stk ? ? ? ? ? ? ? ?]. simpl.
  destruct cursor as [h|]; destruct stk as [|top prev]; simpl; try reflexivity.
  destruct (h <? S (List.length prev)); simpl; [|reflexivity].
  destruct (List.length prev - 0 - h) as [|k]; simpl; [|reflexivity].
  rewrite Hcomm, Hidx. reflexivity.
Qed.

Lemma top_resumed cursor s current prev :
  _stack s = current :: prev ->
  exists current' prev',
    _stack (resumed cursor s) = current' :: prev'
    /\ firstEntry current' = firstEntry current.
Proof.
  intros Hstk. unfold resumed, after_call, bump_index.
  destruct s as [? ? ? ? ? ? ? ? ? ? stk ? ? ? ? ? ? ? ?]. simpl in *. subst stk.
  destruct cursor as [h|]; simpl; [|by eexists _, _].
  destruct (h <? _); simpl; [|by eexists _, _].
  destruct (List.length prev - 0 - h); simpl; by eexists _, _.
Qed.

Lemma and_then_resumed cursor r r' k :
  r' = lift (resumed cursor) r ->
  below_top cursor (state_of r) ->
  (forall s, below_top cursor s -> k (resumed cursor s) = lift (resumed cursor) (k s)) ->
  (r' ;> k) = lift (resumed cursor) (r ;> k).
Proof.
  intros -> Hb Hk. destruct r as [s|e s]; simpl in *; [by apply Hk | reflexivity].
Qed.

Lemma and_then_below_top cursor r k :
  below_top cursor (state_of r) ->
  (forall s, below_top cursor s -> below_top cursor (state_of (k s))) ->
  below_top cursor (state_of (r ;> k)).
Proof. intros Hb Hk. destruct r as [s|e s]; simpl in *; [by apply Hk | exact Hb]. Qed.

Lemma push_indented_resumed cursor sp n suffix s :
  below_top cursor s ->
  push_indented sp n suffix (resumed cursor s) = lift (resumed cursor) (push_indented sp n suffix s)
  /\ below_top cursor (state_of (push_indented sp n suffix s)).
Proof.
  intros Hb. unfold push_indented. destruct (js_repeat sp n); [by apply push_resumed | by split].
Qed.

Lemma active_space_resumed cursor s : active_space (resumed cursor s) = active_space s.
Proof. unfold active_space. by destruct (resumed_fields cursor s) as (_&_&->&_). Qed.

Lemma depth_resumed cursor s : _depth (resumed cursor s) = _depth s.
Proof. by destruct (resumed_fields cursor s) as (_&_&_&->&_). Qed.

Lemma below_top_update_top cursor f s : below_top cursor s -> below_top cursor (update_top f s).
Proof.
  unfold update_top. destruct cursor as [h|]; [|done]. simpl.
  destruct (_stack s); simpl; lia.
Qed.

Lemma call_resumed cursor cb key s :
  below_top cursor s ->
  call cb key (resumed cursor s) = lift (resumed cursor) (call cb key s)
  /\ below_top cursor (state_of (call cb key s)).
Proof.
  intros Hb. destruct cb; simpl; [by split| |].
  - unfold processObjectEntry.
    destruct (_stack s) as [|current prev] eqn:Hstk.
    { destruct cursor as [h|]; simpl in Hb; [rewrite Hstk in Hb; simpl in Hb; lia|].
      unfold resumed. simpl. rewrite Hstk. by split. }
    destruct (top_resumed cursor s current prev Hstk) as (c' & p' & -> & ->).
    assert (Hfirst :
      (if firstEntry current then Ok (update_top (set_firstEntry false) (resumed cursor s))
       else push "," (resumed cursor s))
      = lift (resumed cursor)
          (if firstEntry current then Ok (update_top (set_firstEntry false) s) else push "," s)
      /\ below_top cursor
           (state_of (if firstEntry current then Ok (update_top (set_firstEntry false) s)
                      else push "," s))).
    { destruct (firstEntry current).
      - simpl. rewrite resumed_update_top by (intros; reflexivity).
        split; [reflexivity | by apply below_top_update_top].
      - by apply push_resumed. }
    destruct Hfirst as [Hf1 Hf2]. split.
    + eapply and_then_resumed; [exact Hf1 | exact Hf2 |].
      intros s1 Hb1. rewrite active_space_resumed, depth_resumed.
      destruct (active_space s1); [by apply push_indented_resumed | by apply push_resumed].
    + apply and_then_below_top; [exact Hf2|].
      intros s1 Hb1. destruct (active_space s1); [by apply push_indented_resumed | by apply push_resumed].
  - unfold processArrayItem.
    assert (Hfirst :
      (if String.eqb key "0" then Ok (resumed cursor s) else push "," (resumed cursor s))
      = lift (resumed cursor) (if String.eqb key "0" then Ok s else push "," s)
      /\ below_top cursor (state_of (if String.eqb key "0" then Ok s else push "," s))).
    { destruct (String.eqb key "0"); [by split | by apply push_resumed]. }
    destruct Hfirst as [Hf1 Hf2]. split.
    + eapply and_then_resumed; [exact Hf1 | exact Hf2 |].
      intros s1 Hb1. rewrite active_space_resumed, depth_resumed.
      destruct (active_space s1); [by apply push_indented_resumed | reflexivity].
    + apply and_then_below_top; [exact Hf2|].
      intros s1 Hb1. destruct (active_space s1); [by apply push_indented_resumed | exact Hb1].
Qed.

Ltac resumed_setter :=
  intros;
  match goal with
  | |- context [resumed ?c _] =>
      unfold resumed, after_call, bump_index, abort, attach_stream, pushStack;
      destruct c; simpl; try reflexivity;
      repeat match goal with |- context [?h <? ?n] => destruct (h <? n) end;
      simpl; reflexivity
  end.

Lemma resumed_abort cursor e s : resumed cursor (abort e s) = abort e (resumed cursor s).
Proof. resumed_setter. Qed.

Lemma resumed_with_visited cursor x s :
  resumed cursor (with_visited x s) = with_visited x (resumed cursor s).
Proof. resumed_setter. Qed.

Lemma resumed_with_depth cursor x s :
  resumed cursor (with_depth x s) = with_depth x (resumed cursor s).
Proof. resumed_setter. Qed.

Lemma resumed_with_pending cursor x s :
  resumed cursor (with_pending x s) = with_pending x (resumed cursor s).
Proof. resumed_setter. Qed.

Lemma resumed_attach_stream cursor a st s :
  below_top cursor s ->
  resumed cursor (attach_stream a st s) = attach_stream a st (resumed cursor s).
Proof.
  intros Hb. unfold attach_stream.
  set (n := Frame _ _ _ _ _ _ _ _).
  assert (Hn : created (resumed cursor s) = created s) by resumed_setter.
  rewrite Hn. subst n.
  set (n := Frame _ _ _ _ _ _ _ _).
  rewrite <- (resumed_pushStack cursor n s Hb).
  generalize (pushStack n s). intros s1. resumed_setter.
Qed.

Lemma closing_bracket_resumed cursor s :
  closing_bracket (resumed cursor s) = closing_bracket s.
Proof. unfold closing_bracket. by rewrite active_space_resumed, depth_resumed. Qed.

Lemma open_sequence_resumed cursor n s :
  below_top cursor s ->
  open_sequence n (resumed cursor s) = lift (resumed cursor) (open_sequence n s).
Proof.
  intros Hb. unfold open_sequence.
  destruct (push_resumed cursor "[" s Hb) as [Hp Hbp].
  eapply and_then_resumed; [exact Hp | exact Hbp |].
  intros s1 Hb1. rewrite closing_bracket_resumed, depth_resumed.
  destruct (closing_bracket s1); [|reflexivity]. simpl.
  rewrite resumed_with_depth, !resumed_pushStack; auto using below_top_pushStack.
Qed.

(** The continuation's [processValue] call does what the handler's call
    would have done, the cursor and the processing flag apart. *)
Lemma processValue_resumed cursor key v cb s :
  below_top cursor s ->
  processValue key v cb (resumed cursor s) = lift (resumed cursor) (processValue key v cb s).
Proof.
  intros Hb. unfold processValue.
  assert (Ht : transform (resumed cursor s) key v = transform s key v).
  { unfold transform, apply_replacer.
    by destruct (resumed_fields cursor s) as (-> & -> & _). }
  assert (Hh : heap_of (resumed cursor s) = heap_of s)
    by (by destruct (resumed_fields cursor s) as (-> & _)).
  rewrite Ht, Hh. clear Ht.
  destruct (call_resumed cursor cb key s Hb) as [Hcall Hbcall].
  assert (Hvis : forall s1, _visited (resumed cursor s1) = _visited s1).
  { intros s1. by destruct (resumed_fields cursor s1) as (_&_&_&_&_&_&_&->&_). }
  assert (Hheap : forall s1, heap_of (resumed cursor s1) = heap_of s1).
  { intros s1. by destruct (resumed_fields cursor s1) as (->&_). }
  destruct (getType (heap_of s) (transform s key v)) eqn:Hty;
    destruct (transform s key v) as [| | | | | | | |a] eqn:Hv; try reflexivity;
    try (unfold getType in Hty; discriminate Hty).
  all: try (destruct (negb (is_processObjectEntry cb) || _); [|reflexivity];
            eapply and_then_resumed; [exact Hcall | exact Hbcall |];
            intros s1 Hb1; destruct (primitiveToString _); [reflexivity | by apply push_resumed]).
  - (* deferred *)
    assert (Hp : pending (resumed cursor s) = pending s) by resumed_setter.
    rewrite Hp. unfold lift.
    by rewrite resumed_with_pending, resumed_pushStack by exact Hb.
  - (* sequence *)
    eapply and_then_resumed; [exact Hcall | exact Hbcall |].
    intros s1 Hb1. rewrite Hvis.
    destruct (bool_decide (a ∈ _visited s1)); [simpl; by rewrite resumed_abort|].
    rewrite <- resumed_with_visited.
    set (s2 := with_visited _ s1).
    assert (Hb2 : below_top cursor s2) by (destruct cursor; simpl in *; done).
    rewrite Hheap.
    destruct (obj_shape (deref (heap_of s2) a)) as [| [|item items] | |];
      try (by apply open_sequence_resumed);
      by apply push_resumed.
  - (* keyed collection *)
    eapply and_then_resumed; [exact Hcall | exact Hbcall |].
    intros s1 Hb1. rewrite Hvis.
    destruct (bool_decide (a ∈ _visited s1)); [simpl; by rewrite resumed_abort|].
    rewrite <- resumed_with_visited.
    set (s2 := with_visited _ s1).
    assert (Hb2 : below_top cursor s2) by (destruct cursor; simpl in *; done).
    rewrite Hheap.
    destruct (object_keys (deref (heap_of s2) a)) as [|k ks]; [by apply push_resumed|].
    destruct (push_resumed cursor "{" s2 Hb2) as [Hp Hbp].
    eapply and_then_resumed; [exact Hp | exact Hbp |].
    intros s3 Hb3. rewrite depth_resumed. unfold lift.
    rewrite resumed_with_depth, !resumed_pushStack; auto using below_top_pushStack.
  - (* byte producer *)
    eapply and_then_resumed; [exact Hcall | exact Hbcall |].
    intros s1 Hb1. rewrite Hheap.
    destruct (obj_shape (deref (heap_of s1) a)) as [| | |st]; try reflexivity.
    destruct (readableEnded st); [simpl; by rewrite resumed_abort|].
    destruct (readableFlowing st); [simpl; by rewrite resumed_abort|].
    unfold lift. by rewrite resumed_attach_stream.
  - (* record producer *)
    eapply and_then_resumed; [exact Hcall | exact Hbcall |].
    intros s1 Hb1. rewrite Hheap.
    destruct (obj_shape (deref (heap_of s1) a)) as [| | |st]; try reflexivity.
    destruct (readableEnded st); [simpl; by rewrite resumed_abort|].
    destruct (readableFlowing st); [simpl; by rewrite resumed_abort|].
    destruct (push_resumed cursor "[" s1 Hb1) as [Hp Hbp].
    eapply and_then_resumed; [exact Hp | exact Hbp |].
    intros s3 Hb3. rewrite closing_bracket_resumed, depth_resumed.
    destruct (closing_bracket s3); [|reflexivity]. unfold lift.
    rewrite resumed_attach_stream, resumed_with_depth, resumed_pushStack;
      auto using below_top_pushStack.
    destruct cursor; simpl in *; [lia | done].
Qed.

Lemma same_room_refl s : same_room s s.
Proof. by repeat split. Qed.

Lemma same_room_trans s1 s2 s3 : same_room s1 s2 -> same_room s2 s3 -> same_room s1 s3.
Proof. unfold same_room. intros (?&?&?) (?&?&?). repeat split; congruence. Qed.

Lemma length_buffer_write buf offset data :
  List.length (fst (buffer_write buf offset data)) = List.length buf.
Proof.
  unfold buffer_write. simpl. rewrite !length_app, !length_take, length_drop. lia.
Qed.

Lemma length_buffer_copy buf from to :
  List.length (buffer_copy buf buf from to) = List.length buf.
Proof.
  unfold buffer_copy. rewrite length_app, length_drop, length_take, length_drop. lia.
Qed.

Lemma write_and_flush_same_room data s : same_room s (state_of (write_and_flush data s)).
Proof.
  unfold write_and_flush. destruct (_buffer s) as [buf|] eqn:Hbuf; [|apply same_room_refl].
  pose proof (length_buffer_write buf (_bufferOffset s) (bytes data)) as Hw.
  destruct (buffer_write buf (_bufferOffset s) (bytes data)) as [buf' written]. simpl in Hw.
  destruct (_ <? _); simpl; unfold same_room; simpl; rewrite Hbuf; simpl;
    rewrite ?length_buffer_copy, Hw; by repeat split.
Qed.

Lemma push_same_room data s : same_room s (state_of (push data s)).
Proof.
  unfold push. destruct (_ <? String.length data).
  - eapply same_room_trans; [|apply write_and_flush_same_room]. by repeat split.
  - apply write_and_flush_same_room.
Qed.

Lemma emits_only_refl s : emits_only s s.
Proof. split; [apply same_sources_refl | apply same_room_refl]. Qed.

Lemma emits_only_trans s1 s2 s3 : emits_only s1 s2 -> emits_only s2 s3 -> emits_only s1 s3.
Proof.
  intros [? ?] [? ?]. split; [eapply same_sources_trans | eapply same_room_trans]; eauto.
Qed.

Lemma push_emits_only data s : emits_only s (state_of (push data s)).
Proof. split; [apply push_same_sources | apply push_same_room]. Qed.

Lemma and_then_emits_only r k s :
  emits_only s (state_of r) ->
  (forall s', emits_only s' (state_of (k s'))) ->
  emits_only s (state_of (r ;> k)).
Proof.
  intros Hr Hk. destruct r as [s'|e s']; simpl in *; [|exact Hr].
  eapply emits_only_trans; [exact Hr | apply Hk].
Qed.

Lemma push_indented_emits_only sp n suffix s :
  emits_only s (state_of (push_indented sp n suffix s)).
Proof.
  unfold push_indented. destruct (js_repeat sp n); [apply push_emits_only | apply emits_only_refl].
Qed.

Lemma call_emits_only cb key s : emits_only s (state_of (call cb key s)).
Proof.
  destruct cb; simpl; [apply emits_only_refl| |].
  - unfold processObjectEntry. destruct (_stack s) as [|current prev] eqn:Hstk; [apply emits_only_refl|].
    apply and_then_emits_only.
    + destruct (firstEntry current); [|apply push_emits_only].
      unfold update_top. rewrite Hstk. by repeat split.
    + intros s'. destruct (active_space s'); [apply push_indented_emits_only | apply push_emits_only].
  - unfold processArrayItem. apply and_then_emits_only.
    + destruct (String.eqb key "0"); [apply emits_only_refl | apply push_emits_only].
    + intros s'. destruct (active_space s'); [apply push_indented_emits_only | apply emits_only_refl].
Qed.

Lemma kept_refl s : kept s s.
Proof. by repeat split. Qed.

Lemma kept_trans s1 s2 s3 : kept s1 s2 -> kept s2 s3 -> kept s1 s3.
Proof.
  intros (?&?&?&?) (?&?&?&?). unfold kept. repeat split; try congruence.
  all: eapply same_room_trans; eauto.
Qed.

Lemma emits_only_kept s s' : emits_only s s' -> kept s s'.
Proof. intros [(_&_&_&_&_&Hp&_&_&_&_&He&Ht) Hr]. by split; [|split; [|split]]. Qed.

(** After a [processValue] call that returns, either the encoder has been
    aborted, or the end flag, the tick queue and the buffer's room are as
    before, and so is the list of pending deferred values unless the call
    has only registered one. *)
Lemma processValue_kept key v cb s s1 :
  processValue key v cb s = Ok s1 ->
  aborted s1
  \/ (_ended s1 = _ended s /\ ticks s1 = ticks s /\ same_room s s1
      /\ (pending s1 = pending s \/ _processing s1 = _processing s)).
Proof.
  assert (Hweak : forall s', kept s s' ->
            _ended s' = _ended s /\ ticks s' = ticks s /\ same_room s s'
            /\ (pending s' = pending s \/ _processing s' = _processing s)).
  { intros s' (?&?&?&?). split; [|split; [|split; [|left]]]; assumption. }
  assert (Hstep : forall (r : result) (k : encoder -> result),
            kept s (state_of r) ->
            (forall s', kept s s' -> forall s1, k s' = Ok s1 -> aborted s1 \/ kept s s1) ->
            forall s1, (r ;> k) = Ok s1 -> aborted s1 \/ kept s s1).
  { intros r k Hr Hk s2. destruct r as [s'|e s']; simpl; [|discriminate]. by apply Hk. }
  assert (Hpush : forall data s', kept s s' -> forall s1, push data s' = Ok s1 -> aborted s1 \/ kept s s1).
  { intros data s' Hk s2 Hp. right. eapply kept_trans; [exact Hk|].
    pose proof (emits_only_kept _ _ (push_emits_only data s')) as H. by rewrite Hp in H. }
  pose proof (emits_only_kept _ _ (call_emits_only cb key s)) as Hcall.
  assert (Hprim : forall v', (call cb key s ;> fun s' =>
              match primitiveToString v' with
              | inl e => Throw e s'
              | inr str => push str s'
              end) = Ok s1 -> aborted s1 \/ kept s s1).
  { intros v'. apply Hstep; [exact Hcall|].
    intros s' Hk s2. destruct (primitiveToString v'); [discriminate | by apply Hpush]. }
  unfold processValue.
  destruct (getType (heap_of s) (transform s key v));
    destruct (transform s key v) as [| | | | | | | |a];
    try (intros Hok; injection Hok as <-; right; by apply Hweak, kept_refl).
  all: try (destruct (negb (is_processObjectEntry cb) || _);
            [|intros Hok; injection Hok as <-; right; by apply Hweak, kept_refl];
            match goal with
            | |- context [primitiveToString ?v'] =>
                intros Hok; destruct (Hprim v' Hok) as [?|?]; [by left | right; by apply Hweak]
            end).
  all: intros Hok.
  - (* deferred *)
    injection Hok as <-. right. unfold same_room. simpl. repeat split. by right.
  - (* sequence *)
    refine (match Hstep _ _ Hcall _ _ Hok with or_introl H => or_introl H
            | or_intror H => or_intror (Hweak _ H) end).
    intros s' Hk s2. destruct (bool_decide _); [intros [= <-]; left; by repeat split|].
    set (s3 := with_visited _ s').
    assert (Hk3 : kept s s3) by (destruct Hk as (?&?&?&?&?&?); by repeat split).
    destruct (obj_shape _) as [| [|] | |]; try by apply Hpush.
    all: unfold open_sequence; intros Hop;
      refine (Hstep (push "[" s3) _ _ _ _ Hop);
      [ eapply kept_trans; [exact Hk3 | apply emits_only_kept, push_emits_only]
      | intros s4 Hk4 s5; destruct (closing_bracket s4); [|discriminate];
        intros [= <-]; right; destruct Hk4 as (?&?&?&?&?&?); by repeat split ].
  - (* keyed collection *)
    refine (match Hstep _ _ Hcall _ _ Hok with or_introl H => or_introl H
            | or_intror H => or_intror (Hweak _ H) end).
    intros s' Hk s2. destruct (bool_decide _); [intros [= <-]; left; by repeat split|].
    set (s3 := with_visited _ s').
    assert (Hk3 : kept s s3) by (destruct Hk as (?&?&?&?&?&?); by repeat split).
    destruct (object_keys _); [by apply Hpush|].
    intros Hop. refine (Hstep (push "{" s3) _ _ _ _ Hop);
      [ eapply kept_trans; [exact Hk3 | apply emits_only_kept, push_emits_only]
      | intros s4 Hk4 s5; intros [= <-]; right; destruct Hk4 as (?&?&?&?&?&?); by repeat split ].
  - (* byte producer *)
    refine (match Hstep _ _ Hcall _ _ Hok with or_introl H => or_introl H
            | or_intror H => or_intror (Hweak _ H) end).
    intros s' Hk s2. destruct (obj_shape _) as [| | |st]; try (intros [= <-]; by right).
    destruct (readableEnded st); [intros [= <-]; left; by repeat split|].
    destruct (readableFlowing st); [intros [= <-]; left; by repeat split|].
    intros [= <-]. right. destruct Hk as (?&?&?&?&?&?). by repeat split.
  - (* record producer *)
    refine (match Hstep _ _ Hcall _ _ Hok with or_introl H => or_introl H
            | or_intror H => or_intror (Hweak _ H) end).
    intros s' Hk s2. destruct (obj_shape _) as [| | |st]; try (intros [= <-]; by right).
    destruct (readableEnded st); [intros [= <-]; left; by repeat split|].
    destruct (readableFlowing st); [intros [= <-]; left; by repeat split|].
    intros Hop. refine (Hstep (push "[" s') _ _ _ _ Hop);
      [ eapply kept_trans; [exact Hk | apply emits_only_kept, push_emits_only]
      | intros s4 Hk4 s5; destruct (closing_bracket s4); [|discriminate];
        intros [= <-]; right; destruct Hk4 as (?&?&?&?&?&?); by repeat split ].
Qed.

(** *** The two runs *)

Lemma drive_suspended fuel s top rest :
  _stack s = top :: rest -> awaiting top = true -> drive fuel s = Some (Drained s).
Proof. intros Hs Ha. destruct fuel; simpl; by rewrite Hs, Ha. Qed.

Lemma with_processing_same s : with_processing (_processing s) s = s.
Proof. by destruct s. Qed.

Lemma with_readSize_same s : with_readSize (_readSize s) s = s.
Proof. by destruct s. Qed.

Lemma with_pending_same s : with_pending (pending s) s = s.
Proof. by destruct s. Qed.

(** A pull of the size already in force, on a buffer that is large
    enough, only runs the driver. *)
Lemma read_is_processStack fuel size s buf :
  _ended s = false -> size <> 0 -> _readSize s = size ->
  _buffer s = Some buf -> 2 * size <= List.length buf ->
  _read fuel size s = processStack fuel s.
Proof.
  intros Hend Hsize Hrs Hbuf Hlen. unfold _read. rewrite Hend.
  destruct (Nat.eqb_spec size 0) as [|_]; [done|].
  rewrite <- Hrs, with_readSize_same, Hbuf.
  destruct (Nat.ltb_spec (List.length buf) (2 * _readSize s)) as [|_]; [lia|]. reflexivity.
Qed.

Lemma consume_more rounds fuel size : forall s final,
  consume rounds fuel size s = Some (Ok final) ->
  consume (S rounds) fuel size s = Some (Ok final).
Proof.
  induction rounds as [|n IH]; intros s final; [discriminate|].
  intros H. cbn [consume] in H |- *.
  destruct (_ended s); [exact H|].
  destruct (dispatch fuel _ s) as [[s'|e s']|]; try discriminate H.
  by apply IH.
Qed.

Lemma run_ticks_none s : ticks s = [] -> run_ticks s = s.
Proof. apply run_ticks_idle. Qed.

Lemma after_call_fields cursor s :
  _processing (after_call cursor s) = _processing s
  /\ _ended (after_call cursor s) = _ended s
  /\ pending (after_call cursor s) = pending s
  /\ ticks (after_call cursor s) = ticks s
  /\ _readSize (after_call cursor s) = _readSize s
  /\ _buffer (after_call cursor s) = _buffer s
  /\ heap_of (after_call cursor s) = heap_of s.
Proof.
  destruct cursor as [h|]; simpl; [|by repeat split].
  unfold bump_index. destruct (_ <? _); by repeat split.
Qed.

Lemma resumed_when_left cursor s :
  _processing s = false -> resumed cursor s = after_call cursor s.
Proof.
  intros H. unfold resumed.
  destruct (after_call_fields cursor s) as (Hp & _).
  rewrite <- H, <- Hp. apply with_processing_same.
Qed.

Lemma resumed_when_running cursor s :
  _processing s = true -> with_processing true (resumed cursor s) = after_call cursor s.
Proof.
  intros H. unfold resumed.
  destruct (after_call_fields cursor s) as (Hp & _).
  transitivity (with_processing true (after_call cursor s)); [by destruct (after_call cursor s)|].
  rewrite <- H, <- Hp. apply with_processing_same.
Qed.

Lemma abort_resumed cursor e s : abort e (resumed cursor s) = abort e s.
Proof.
  unfold resumed, abort. destruct cursor as [h|]; simpl; [|reflexivity].
  unfold bump_index. destruct (_ <? _); reflexivity.
Qed.

Lemma abort_after_call cursor e s : abort e (after_call cursor s) = abort e s.
Proof.
  unfold abort. destruct cursor as [h|]; simpl; [|reflexivity].
  unfold bump_index. destruct (_ <? _); reflexivity.
Qed.

(** The instance in which the continuation of the deferred value finds
    the encoder: the placeholder on the stack, the driver out of its loop,
    one continuation pending. *)
Lemma deferred_suspends s key cb a o cursor fuel :
  _processing s = true -> ticks s = [] -> below_top cursor s ->
  transform s key (VRef a) = VRef a ->
  obj_shape (deref (heap_of s) a) = Thenable o ->
  after_handler fuel (processValue key (VRef a) cb s ;> fun s => Ok (after_call cursor s))
  = Some (Ok (with_pending (pending s ++ [(key, a, cb)])
                (pushStack (set_awaiting true (node h_noop VUndefined)) (resumed cursor s)))).
Proof.
  intros Hproc Hticks Hb Hv Ho.
  unfold processValue. rewrite Hv. unfold getType. rewrite Ho. simpl.
  set (ph := set_awaiting true (node h_noop VUndefined)).
  assert (Hac : after_call cursor (with_pending (pending s ++ [(key, a, cb)]) (pushStack ph s))
                = with_pending (pending s ++ [(key, a, cb)]) (pushStack ph (after_call cursor s))).
  { destruct cursor as [h|]; simpl; [|reflexivity].
    rewrite <- bump_index_pushStack by exact Hb.
    unfold bump_index. simpl. destruct (_ <? _); reflexivity. }
  rewrite Hac. unfold after_handler.
  destruct (after_call_fields cursor s) as (Hp & _).
  simpl. rewrite Hp, Hproc.
  erewrite drive_suspended; [|reflexivity|reflexivity].
  simpl. unfold finish. simpl. unfold resumed. reflexivity.
Qed.

Lemma pop_placeholder l n s0 :
  pending s0 = [] ->
  with_stack (_stack s0) (with_pending [] (with_pending l (pushStack n s0))) = s0.
Proof. destruct s0. simpl. by intros ->. Qed.

Lemma settle_fulfilled fuel key a cb v n s0 :
  pending s0 = [] ->
  leaves_guard (handler n) = false ->
  obj_shape (deref (heap_of s0) a) = Thenable (Fulfilled v) ->
  settle fuel 0 (with_pending [(key, a, cb)] (pushStack n s0))
  = caught (match processValue key v cb s0 with
            | Throw e s' => Some (Throw e s')
            | Ok s' => processStack fuel s'
            end).
Proof.
  intros Hp Hn Ho. unfold settle. simpl. rewrite Ho.
  unfold popStack. simpl. rewrite Hn. simpl.
  change (with_stack (_stack s0) (with_pending [] (with_pending [(key, a, cb)] (pushStack n s0))))
    with (with_stack (_stack s0) (with_pending [] (with_pending [(key, a, cb)] (pushStack n s0)))).
  by rewrite (pop_placeholder [(key, a, cb)] n s0 Hp).
Qed.

Lemma settle_rejected fuel key a cb e n s0 :
  obj_shape (deref (heap_of s0) a) = Thenable (Rejected e) ->
  settle fuel 0 (with_pending [(key, a, cb)] (pushStack n s0))
  = Some (Ok (abort e (with_pending [] (pushStack n s0)))).
Proof. intros Ho. unfold settle. simpl. by rewrite Ho. Qed.

Lemma consume_settle rounds fuel size x n s0 :
  _ended s0 = false ->
  consume (S rounds) fuel size (with_pending [x] (pushStack n s0))
  = match dispatch fuel (Settle 0) (with_pending [x] (pushStack n s0)) with
    | Some (Ok s') => consume rounds fuel size s'
    | other => other
    end.
Proof. intros H. cbn [consume]. simpl. by rewrite H. Qed.



(** ** Pushes that fit *)

Lemma bytes_app s1 s2 : bytes (s1 +:+ s2) = bytes s1 ++ bytes s2.
Proof. induction s1 as [|c s1 IH]; simpl; [reflexivity | by rewrite IH]. Qed.

Lemma length_bytes s : List.length (bytes s) = String.length s.
Proof. induction s as [|c s IH]; simpl; [reflexivity | by rewrite IH]. Qed.

Lemma length_string_app s1 s2 : String.length (s1 +:+ s2) = String.length s1 + String.length s2.
Proof. induction s1 as [|c s1 IH]; simpl; [reflexivity | by rewrite IH]. Qed.

Lemma received_app out out' : received (out ++ out') = received out ++ received out'.
Proof.
  induction out as [|[data| |e] out IH]; simpl; rewrite ?IH, <- ?app_assoc; reflexivity.
Qed.

Lemma undisturbed_refl s : undisturbed s s.
Proof. by repeat split. Qed.

Lemma undisturbed_trans s1 s2 s3 : undisturbed s1 s2 -> undisturbed s2 s3 -> undisturbed s1 s3.
Proof.
  unfold undisturbed. intros (?&?&?&?&?&?&?&?&?&?) (?&?&?&?&?&?&?&?&?&?).
  repeat split; congruence.
Qed.

Lemma same_sources_undisturbed s s' : same_sources s s' -> undisturbed s s'.
Proof. intros (?&?&?&?&?&?&?&?&?&?&?&?). by repeat split. Qed.

Lemma quiet_undisturbed s s' : undisturbed s s' -> quiet s -> quiet s'.
Proof.
  intros (_&_&_&Hp&_&_&_&_&He&Ht) (?&?&?). unfold quiet. rewrite Hp, He, Ht. by repeat split.
Qed.

Lemma roomy_steady size s : roomy size s -> steady s = true /\ _readSize s = size.
Proof.
  intros ((Hrs & Hpos & Hoff & buf & Hbuf & Hlen) & (He & Hp & Ht)). split; [|exact Hrs].
  unfold steady. rewrite He, Hp, Ht, Hbuf, Hrs.
  rewrite (proj2 (Nat.ltb_lt _ _) Hpos), (proj2 (Nat.ltb_lt _ _) Hoff),
    (proj2 (Nat.leb_le _ _) Hlen). reflexivity.
Qed.

Lemma steady_roomy s : steady s = true -> roomy (_readSize s) s.
Proof.
  unfold steady. intros H.
  repeat (apply andb_prop in H as [H ?]).
  destruct (_buffer s) as [buf|] eqn:Hbuf; [|discriminate].
  split.
  - split; [reflexivity|]. split; [by apply Nat.ltb_lt|]. split; [by apply Nat.ltb_lt|].
    exists buf. split; [exact Hbuf | by apply Nat.leb_le].
  - split; [by apply negb_true_iff|].
    split; [by destruct (pending s) | by destruct (ticks s)].
Qed.

Lemma active_space_undisturbed s s' : undisturbed s s' -> active_space s' = active_space s.
Proof. intros (_&_&H&_). unfold active_space. by rewrite H. Qed.

Lemma push_fits size data s :
  roomy size s -> String.length data <= size ->
  exists s',
    push data s = Ok s'
    /\ roomy size s'
    /\ emitted s' = emitted s ++ bytes data
    /\ _stack s' = _stack s
    /\ same_sources s s'.
Proof.
  intros ((Hrs & Hpos & Hoff & buf & Hbuf & Hlen) & Hq) Hdata.
  assert (Hgoal : exists s',
    push data s = Ok s' /\ room size s' /\ emitted s' = emitted s ++ bytes data
    /\ _stack s' = _stack s).
  { unfold push. rewrite Hrs.
    destruct (Nat.ltb_spec (_bufferOffset s + size) (String.length data)) as [|_]; [lia|].
    unfold write_and_flush. rewrite Hbuf, Hrs. unfold buffer_write.
    rewrite length_bytes.
    assert (Hsum : _bufferOffset s + String.length data <= List.length buf) by lia.
    assert (Hfit : String.length data <= List.length buf - _bufferOffset s) by lia.
    assert (Hmin : Nat.min (String.length data) (List.length buf - _bufferOffset s)
                   = String.length data) by (apply Nat.min_l; exact Hfit).
    rewrite Hmin. clear Hmin.
    rewrite (take_ge (bytes data)) by (rewrite length_bytes; lia).
    set (off := _bufferOffset s) in *.
    set (buf' := take off buf ++ bytes data ++ drop (off + String.length data) buf).
    assert (Hlen' : List.length buf' = List.length buf).
    { subst buf'. rewrite !length_app, length_take, length_drop, length_bytes. lia. }
    assert (Htake : take (off + String.length data) buf' = take off buf ++ bytes data).
    { subst buf'. rewrite app_assoc. apply take_app_length'.
      rewrite length_app, length_take, length_bytes. lia. }
    unfold emitted.
    destruct (Nat.ltb_spec (off + String.length data) size) as [Hlt|Hge].
    - eexists. split; [reflexivity|]. simpl. split; [|split]; try done.
      + repeat split; simpl; try done. exists buf'. split; [reflexivity|lia].
      + rewrite Hbuf. simpl. rewrite Htake, app_assoc. reflexivity.
    - eexists. split; [reflexivity|]. simpl. split; [|split]; try done.
      + repeat split; simpl; try done; [lia|].
        eexists. split; [reflexivity|]. rewrite length_buffer_copy. lia.
      + rewrite Hbuf. simpl. rewrite received_app. simpl. rewrite app_nil_r.
        unfold buffer_copy.
        assert (Hfit2 : off + String.length data - size <= List.length buf') by lia.
        assert (Hmin : Nat.min (off + String.length data - size) (List.length buf')
                       = off + String.length data - size) by (apply Nat.min_l; exact Hfit2).
        rewrite Hmin. clear Hmin.
        rewrite take_app_length'
          by (rewrite length_take, length_drop; lia).
        rewrite <- !app_assoc. f_equal. fold off.
        rewrite <- Htake, take_take_drop. f_equal. lia. }
  destruct Hgoal as (s' & Hp & Hr & He & Hs).
  pose proof (push_same_sources data s) as Hsame. rewrite Hp in Hsame. simpl in Hsame.
  exists s'. split; [exact Hp|]. split.
  { split; [exact Hr|]. exact (quiet_undisturbed _ _ (same_sources_undisturbed _ _ Hsame) Hq). }
  by repeat (split; [assumption|]).
Qed.

Lemma nat_to_string_inj n m : nat_to_string n = nat_to_string m -> n = m.
Proof.
  unfold nat_to_string. intros H.
  assert (Hnil : forall k, Nat.to_uint k <> Decimal.Nil).
  { intros k Hk. pose proof (DecimalNat.Unsigned.of_to k) as Hof. rewrite Hk in Hof.
    simpl in Hof. subst k. discriminate Hk. }
  apply DecimalNat.Unsigned.to_uint_inj.
  pose proof (NilZero.usu _ (Hnil n)) as Hn. pose proof (NilZero.usu _ (Hnil m)) as Hm.
  rewrite H in Hn. congruence.
Qed.

Lemma nat_to_string_is_zero i : String.eqb (nat_to_string i) "0" = (i =? 0).
Proof.
  destruct (Nat.eqb_spec i 0) as [->|Hne]; [reflexivity|].
  apply String.eqb_neq. intros H. apply Hne. by apply nat_to_string_inj.
Qed.

Lemma push_indented_line sp d suffix s :
  push_indented sp (Z.of_nat d) suffix s = push (line (Some sp) d +:+ suffix) s.
Proof.
  unfold push_indented, js_repeat, line.
  destruct (Z.ltb_spec (Z.of_nat d) 0) as [|_]; [lia|].
  by rewrite Nat2Z.id.
Qed.

Lemma string_app_assoc s1 s2 s3 : (s1 +:+ s2) +:+ s3 = s1 +:+ (s2 +:+ s3).
Proof.
  induction s1 as [|c s1 IH]; [reflexivity|].
  change (String c ((s1 +:+ s2) +:+ s3) = String c (s1 +:+ (s2 +:+ s3))). by rewrite IH.
Qed.

Lemma string_app_nil_r s : s +:+ EmptyString = s.
Proof.
  induction s as [|c s IH]; [reflexivity|].
  change (String c (s +:+ EmptyString) = String c s). by rewrite IH.
Qed.

Lemma emits_nothing size s : roomy size s -> emits size EmptyString s s.
Proof.
  intros Hr. split; [exact Hr|]. split; [by rewrite app_nil_r | apply same_sources_refl].
Qed.

Lemma emits_trans size t1 t2 s1 s2 s3 :
  emits size t1 s1 s2 -> emits size t2 s2 s3 -> emits size (t1 +:+ t2) s1 s3.
Proof.
  intros (_ & He1 & Hs1) (Hr & He2 & Hs2). split; [exact Hr|]. split.
  - by rewrite He2, He1, bytes_app, app_assoc.
  - eapply same_sources_trans; eauto.
Qed.

Lemma push_emits size data s :
  roomy size s -> String.length data <= size ->
  exists s', push data s = Ok s' /\ emits size data s s' /\ _stack s' = _stack s.
Proof.
  intros Hr Hd. destruct (push_fits size data s Hr Hd) as (s' & Hp & Hr' & He & Hs & Hsame).
  exists s'. split; [exact Hp|]. split; [|exact Hs]. by split; [|split].
Qed.

Lemma same_sources_active_space s s' : same_sources s s' -> active_space s' = active_space s.
Proof. intros (_&_&H&_). unfold active_space. by rewrite H. Qed.

Lemma same_sources_depth s s' : same_sources s s' -> _depth s' = _depth s.
Proof. by intros (_&_&_&H&_). Qed.

Lemma call_item_fits size d key s :
  roomy size s -> _depth s = Z.of_nat d ->
  String.length (line (active_space s) d) <= size ->
  exists s',
    call cb_processArrayItem key s = Ok s'
    /\ emits size (item_prefix (active_space s) d key) s s'
    /\ _stack s' = _stack s.
Proof.
  intros Hr Hd Hw. simpl. unfold processArrayItem, item_prefix.
  assert (H1 : exists s1, (if String.eqb key "0" then Ok s else push "," s) = Ok s1
             /\ emits size (if String.eqb key "0" then EmptyString else ",") s s1
             /\ _stack s1 = _stack s).
  { destruct (String.eqb key "0").
    - exists s. split; [reflexivity|]. split; [by apply emits_nothing | reflexivity].
    - apply push_emits; [exact Hr|]. destruct Hr as ((_ & Hpos & _) & _). simpl. lia. }
  destruct H1 as (s1 & -> & He1 & Hs1). simpl.
  pose proof (same_sources_active_space _ _ (proj2 (proj2 He1))) as Hsp.
  pose proof (same_sources_depth _ _ (proj2 (proj2 He1))) as Hdp.
  rewrite Hsp, Hdp, Hd.
  destruct (active_space s) as [sp|] eqn:Has.
  - rewrite push_indented_line, string_app_nil_r.
    destruct (push_emits size (line (Some sp) d) s1 (proj1 He1) Hw) as (s2 & -> & He2 & Hs2).
    exists s2. split; [reflexivity|]. split; [exact (emits_trans _ _ _ _ _ _ He1 He2) | congruence].
  - exists s1. split; [reflexivity|]. split; [|exact Hs1].
    simpl. by rewrite string_app_nil_r.
Qed.

Lemma call_entry_fits size d key s current prev :
  roomy size s -> _depth s = Z.of_nat d ->
  _stack s = current :: prev ->
  String.length (line (active_space s) d +:+ quoteString key +:+ colon (active_space s)) <= size ->
  exists s',
    call cb_processObjectEntry key s = Ok s'
    /\ emits size (entry_prefix (active_space s) d (firstEntry current) key) s s'
    /\ _stack s' = set_firstEntry false current :: prev.
Proof.
  intros Hr Hd Hstk Hw. simpl. unfold processObjectEntry, entry_prefix. rewrite Hstk.
  assert (H1 : exists s1,
             (if firstEntry current then Ok (update_top (set_firstEntry false) s) else push "," s)
             = Ok s1
             /\ emits size (if firstEntry current then EmptyString else ",") s s1
             /\ _stack s1 = (if firstEntry current then set_firstEntry false current else current)
                            :: prev).
  { destruct (firstEntry current) eqn:Hfe.
    - eexists. split; [reflexivity|]. unfold update_top. rewrite Hstk. simpl.
      split; [|reflexivity]. split; [exact Hr|]. split; [|by repeat split].
      unfold emitted. simpl. by rewrite app_nil_r.
    - destruct (push_emits size "," s Hr) as (s1 & Hp & He & Hs).
      { destruct Hr as ((_ & Hpos & _) & _). simpl. lia. }
      exists s1. split; [exact Hp|]. split; [exact He | congruence]. }
  destruct H1 as (s1 & -> & He1 & Hs1). simpl.
  pose proof (same_sources_active_space _ _ (proj2 (proj2 He1))) as Hsp.
  pose proof (same_sources_depth _ _ (proj2 (proj2 He1))) as Hdp.
  rewrite Hsp, Hdp, Hd.
  destruct (active_space s) as [sp|] eqn:Has.
  - rewrite push_indented_line.
    destruct (push_emits size (line (Some sp) d +:+ quoteString key +:+ ": ") s1 (proj1 He1))
      as (s2 & -> & He2 & Hs2).
    { simpl in Hw. exact Hw. }
    exists s2. split; [reflexivity|]. split; [exact (emits_trans _ _ _ _ _ _ He1 He2)|].
    rewrite Hs2, Hs1. clear -current. destruct current as [? ? ? [|] ? ? ? ?]; reflexivity.
  - destruct (push_emits size (quoteString key +:+ ":") s1 (proj1 He1))
      as (s2 & -> & He2 & Hs2).
    { simpl in Hw. exact Hw. }
    exists s2. split; [reflexivity|]. split; [exact (emits_trans _ _ _ _ _ _ He1 He2)|].
    rewrite Hs2, Hs1. clear -current. destruct current as [? ? ? [|] ? ? ? ?]; reflexivity.
Qed.

(** ** Runs of handler steps *)

Lemma steps_app k1 : forall k2 s s1 s2,
  steps k1 s = Some s1 -> steps k2 s1 = Some s2 -> steps (k1 + k2) s = Some s2.
Proof.
  induction k1 as [|k1 IH]; intros k2 s s1 s2 H1 H2; simpl in *.
  - injection H1 as ->. exact H2.
  - destruct (_stack s) as [|top prev]; [discriminate|].
    destruct (awaiting top); [discriminate|].
    destruct (run_handler top (with_processing true s)) as [s'|e s']; [|discriminate].
    destruct (steady s' && (_readSize s' =? _readSize s)); [|discriminate].
    eapply IH; eauto.
Qed.

Lemma steps_one size s top prev s' :
  roomy size s -> roomy size s' ->
  _stack s = top :: prev -> awaiting top = false ->
  run_handler top (with_processing true s) = Ok s' ->
  steps 1 s = Some s'.
Proof.
  intros H1 H2 Hs Ha Hr. simpl. rewrite Hs, Ha, Hr.
  destruct (roomy_steady _ _ H1) as [_ <-]. destruct (roomy_steady _ _ H2) as [-> ->].
  by rewrite Nat.eqb_refl.
Qed.

Lemma stack_after_call cursor s : _stack (after_call cursor s) = cursor_stack cursor (_stack s).
Proof.
  destruct cursor as [h|]; simpl; [|reflexivity].
  unfold bump_index. by destruct (h <? _).
Qed.

Lemma cursor_stack_top F rest :
  cursor_stack (Some (List.length rest)) (F :: rest) = set_index (S (index F)) F :: rest.
Proof.
  unfold cursor_stack. simpl.
  destruct (Nat.ltb_spec (List.length rest) (S (List.length rest))) as [_|]; [|lia].
  by replace (List.length rest - 0 - List.length rest) with 0 by lia.
Qed.

Lemma after_call_quiet cursor s :
  same_sources s (after_call cursor s)
  /\ _readSize (after_call cursor s) = _readSize s
  /\ _buffer (after_call cursor s) = _buffer s
  /\ _bufferOffset (after_call cursor s) = _bufferOffset s
  /\ output (after_call cursor s) = output s.
Proof.
  destruct cursor as [h|]; simpl; [|by repeat split].
  unfold bump_index. destruct (h <? _); by repeat split.
Qed.

Lemma roomy_after_call size cursor s : roomy size s -> roomy size (after_call cursor s).
Proof.
  destruct (after_call_quiet cursor s) as (Hsame & Hrs & Hbuf & Hoff & _).
  intros [Hr Hq]. split.
  - unfold room. by rewrite Hrs, Hbuf, Hoff.
  - exact (quiet_undisturbed _ _ (same_sources_undisturbed _ _ Hsame) Hq).
Qed.

Lemma emitted_after_call cursor s : emitted (after_call cursor s) = emitted s.
Proof.
  destruct (after_call_quiet cursor s) as (_ & _ & Hbuf & Hoff & Hout).
  unfold emitted. by rewrite Hbuf, Hoff, Hout.
Qed.

Ltac guard_incl :=
  let a := fresh "a" in
  intros a; simpl; rewrite ?app_nil_r;
  repeat (rewrite elem_of_app || rewrite elem_of_cons || rewrite elem_of_nil); tauto.

Lemma produced_emits size txt s s' : emits size txt s s' -> produced size txt [] s s'.
Proof.
  intros (Hr & He & Hs). split; [exact Hr|]. split; [exact He|].
  split; [by apply same_sources_undisturbed|].
  destruct Hs as (_&_&_&_&Hv&_). intros a Ha. left. by rewrite <- Hv.
Qed.

Lemma produced_trans size t1 t2 g1 g2 s1 s2 s3 :
  produced size t1 g1 s1 s2 -> produced size t2 g2 s2 s3 ->
  produced size (t1 +:+ t2) (g1 ++ g2) s1 s3.
Proof.
  intros (_ & He1 & Hu1 & Hv1) (Hr & He2 & Hu2 & Hv2).
  split; [exact Hr|]. split; [by rewrite He2, He1, bytes_app, app_assoc|].
  split; [eapply undisturbed_trans; eauto|].
  intros a Ha. rewrite elem_of_app.
  destruct (Hv2 a Ha) as [H|H]; [|by right; right].
  destruct (Hv1 a H) as [H'|H']; [by left | by right; left].
Qed.

Lemma produced_weaken size txt txt' g g' s s' :
  produced size txt g s s' -> txt = txt' -> (forall a, a ∈ g -> a ∈ g') ->
  produced size txt' g' s s'.
Proof.
  intros (Hr & He & Hu & Hv) <- Hg. repeat (split; [assumption|]).
  intros a Ha. destruct (Hv a Ha); [by left | right; by apply Hg].
Qed.

(** A step that only assigns fields outside the buffer and the output. *)
Lemma produced_quiet size g s s' :
  roomy size s ->
  _readSize s' = _readSize s -> _buffer s' = _buffer s ->
  _bufferOffset s' = _bufferOffset s -> output s' = output s ->
  undisturbed s s' ->
  (forall a, a ∈ _visited s' -> a ∈ _visited s \/ a ∈ g) ->
  produced size EmptyString g s s'.
Proof.
  intros Hr Hrs Hbuf Hoff Hout Hu Hv.
  split.
  { destruct Hr as [Hr Hq]. split; [unfold room; by rewrite Hrs, Hbuf, Hoff|].
    exact (quiet_undisturbed _ _ Hu Hq). }
  split; [unfold emitted; by rewrite Hbuf, Hoff, Hout, app_nil_r|].
  by split.
Qed.

Lemma produced_after_call size cursor s :
  roomy size s -> produced size EmptyString [] s (after_call cursor s).
Proof.
  intros Hr. destruct (after_call_quiet cursor s) as (Hsame & Hrs & Hbuf & Hoff & Hout).
  apply produced_quiet; try done; [by apply same_sources_undisturbed|].
  destruct Hsame as (_&_&_&_&Hv&_). intros a Ha. left. by rewrite <- Hv.
Qed.

Lemma produced_with_processing size b s :
  roomy size s -> produced size EmptyString [] s (with_processing b s).
Proof. intros Hr. apply produced_quiet; try done. intros a Ha. by left. Qed.

(** ** The run of a value *)

Lemma transform_is_transform_with s key v :
  transform s key v = transform_with (heap_of s) (replacer s) key v.
Proof. unfold transform, transform_with, apply_replacer. by destruct (replacer s). Qed.

Lemma depth_after_call cursor s : _depth (after_call cursor s) = _depth s.
Proof. by destruct (after_call_quiet cursor s) as ((_&_&_&H&_) & _). Qed.

Lemma leaf_run size key v cb cursor s sc x :
  transform s key v = x ->
  primitiveToString x = inr (literal x) ->
  match x with VRef _ => False | _ => True end ->
  (is_processObjectEntry cb = true -> x <> VUndefined) ->
  call cb key s = Ok sc ->
  roomy size sc ->
  String.length (literal x) <= size ->
  exists s1,
    processValue key v cb s = Ok s1
    /\ roomy size s1
    /\ done_value size (literal x) (cursor_stack cursor (_stack sc)) [] sc (after_call cursor s1).
Proof.
  intros Hx Hlit Hprim Hshown Hcall Hr Hw.
  destruct (push_emits size (literal x) sc Hr Hw) as (s1 & Hp & He & Hs).
  exists s1. split.
  - unfold processValue. rewrite Hx.
    assert (Hty : getType (heap_of s) x = PrimitiveType) by (by destruct x).
    rewrite Hty.
    assert (Hcond : negb (is_processObjectEntry cb) || negb (is_undefined x) = true).
    { destruct (is_processObjectEntry cb); [|reflexivity].
      destruct x; try reflexivity. by destruct Hshown. }
    assert (Hbody : (call cb key s ;> fun s0 =>
               match primitiveToString x with
               | inl e => Throw e s0
               | inr str => push str s0
               end) = Ok s1).
    { rewrite Hcall, Hlit. exact Hp. }
    destruct x; try (rewrite Hcond); try exact Hbody.
  - split; [exact (proj1 He)|]. split; [|split].
    + eapply produced_weaken;
        [exact (produced_trans _ _ _ _ _ _ _ _ (produced_emits _ _ _ _ He)
                  (produced_after_call size cursor s1 (proj1 He)))
        | apply string_app_nil_r | done].
    + by rewrite stack_after_call, Hs.
    + rewrite depth_after_call. by apply same_sources_depth, He.
Qed.

Lemma unfold_items_cons f i item rest ts :
  unfold_items f i (item :: rest) = Some ts ->
  exists t ts', ts = t :: ts' /\ f (nat_to_string i) item = Some t
                /\ unfold_items f (S i) rest = Some ts'.
Proof.
  simpl. destruct (f (nat_to_string i) item) as [t|]; [|discriminate]. simpl.
  destruct (unfold_items f (S i) rest) as [ts'|]; [|discriminate]. simpl.
  intros [= <-]. by exists t, ts'.
Qed.

Lemma drop_cons_inv {A} i (l : list A) x rest :
  drop i l = x :: rest -> l !! i = Some x /\ drop (S i) l = rest /\ i < List.length l.
Proof.
  intros H. split; [|split].
  - rewrite <- (Nat.add_0_r i), <- lookup_drop, H. reflexivity.
  - rewrite <- Nat.add_1_r, <- drop_drop, H. reflexivity.
  - destruct (Nat.lt_ge_cases i (List.length l)) as [|Hge]; [done|].
    rewrite drop_ge in H by exact Hge. discriminate.
Qed.

Lemma frame_eta F : set_index (index F) F = F.
Proof. by destruct F. Qed.

Lemma items_loop size n a all_items (IH : value_spec size n) :
  forall remaining ts F rest s de,
    _stack s = F :: rest ->
    handler F = h_processArray -> fvalue F = VRef a -> awaiting F = false ->
    obj_shape (deref (heap_of s) a) = ArrayOf all_items ->
    drop (index F) all_items = remaining ->
    index F <= List.length all_items ->
    unfold_items (unfold n (heap_of s) (replacer s)) (index F) remaining = Some ts ->
    roomy size s ->
    _depth s = Z.of_nat de ->
    String.length (line (active_space s) de) <= size ->
    Forall (fun t => widest (active_space s) (S de) t <= size) ts ->
    NoDup (flat_map addrs ts) ->
    (forall a', a' ∈ flat_map addrs ts -> a' ∉ _visited s) ->
    exists k s',
      steps k s = Some s'
      /\ done_value size
           (separated (index F =? 0)
              (map (fun t => line (active_space s) de +:+ format (active_space s) (S de) t) ts))
           (set_index (List.length all_items) F :: rest)
           (flat_map addrs ts) s s'.
Proof.
  induction remaining as [|item rem' IHloop];
    intros ts F rest s de Hstk Hh Hv Haw Hshape Hdrop Hle Hunf Hr Hd Hline Hws Hnd Hfresh.
  - injection Hunf as <-.
    assert (Hi : index F = List.length all_items).
    { destruct (Nat.lt_ge_cases (index F) (List.length all_items)) as [Hlt|]; [|lia].
      apply (f_equal List.length) in Hdrop. rewrite length_drop in Hdrop. simpl in Hdrop. lia. }
    exists 0, s. split; [reflexivity|].
    rewrite <- Hi, frame_eta, <- Hstk. simpl.
    split; [|by split].
    apply produced_quiet; try done. intros a' Ha'. by left.
  - destruct (unfold_items_cons _ _ _ _ _ Hunf) as (t & ts' & -> & Ht & Hts').
    destruct (drop_cons_inv _ _ _ _ Hdrop) as (Hlook & Hdrop' & Hlt).
    set (st := with_processing true s).
    set (key := nat_to_string (index F)).
    destruct (call_item_fits size de key st) as (sc & Hcall & Hemit & Hstkc);
      [exact Hr | exact Hd | exact Hline |].
    pose proof Hemit as (Hrc & _ & Hsame).
    pose proof (same_sources_active_space _ _ Hsame) as Hsp.
    pose proof (same_sources_depth _ _ Hsame) as Hdc.
    pose proof Hsame as (Hheapc & Hrepc & _ & _ & Hvisc & _).
    simpl in Hnd. apply NoDup_app in Hnd as (Hnd1 & Hdisj & Hnd2).
    apply Forall_cons in Hws as [Hw1 Hws'].
    destruct (IH key item cb_processArrayItem (Some (List.length rest)) t st sc de)
      as (k1 & s1 & s2 & Hpv & Hr1 & Hsteps1 & Hdone1).
    { exact Ht. }
    { discriminate. }
    { exact Hcall. }
    { exact Hrc. }
    { rewrite Hdc. exact Hd. }
    { rewrite Hsp. exact Hw1. }
    { exact Hnd1. }
    { intros a' Ha'. rewrite Hvisc. apply Hfresh. simpl. apply elem_of_app. by left. }
    { simpl. rewrite Hstkc. simpl. rewrite Hstk. simpl. lia. }
    rewrite Hstkc in Hdone1. change (_stack st) with (_stack s) in Hdone1.
    rewrite Hstk, cursor_stack_top in Hdone1.
    pose proof Hdone1 as ((Hr2 & _ & Hu2 & Hv2) & Hstk2 & Hd2).
    pose proof Hu2 as (Hheap2 & Hrep2 & _).
    pose proof (active_space_undisturbed _ _ Hu2) as Hsp2.
    assert (Hidx : index (set_index (S (index F)) F) = S (index F)) by reflexivity.
    destruct (IHloop ts' (set_index (S (index F)) F) rest s2 de)
      as (k2 & s' & Hsteps2 & Hdone2).
    { exact Hstk2. }
    { exact Hh. }
    { exact Hv. }
    { exact Haw. }
    { rewrite Hheap2, Hheapc. exact Hshape. }
    { rewrite Hidx. exact Hdrop'. }
    { rewrite Hidx. lia. }
    { rewrite Hidx, Hheap2, Hrep2, Hheapc, Hrepc. exact Hts'. }
    { exact Hr2. }
    { rewrite Hd2, Hdc. exact Hd. }
    { rewrite Hsp2, Hsp. exact Hline. }
    { rewrite Hsp2, Hsp. exact Hws'. }
    { exact Hnd2. }
    { intros a' Ha' Hin. destruct (Hv2 a' Hin) as [Hc|Hc].
      - rewrite Hvisc in Hc. revert Hc. apply Hfresh. simpl. apply elem_of_app. by right.
      - by apply (Hdisj a'). }
    exists (1 + (k1 + k2)), s'. split.
    + eapply (steps_app 1); [|eapply steps_app; [exact Hsteps1 | exact Hsteps2]].
      eapply (steps_one size);
        [exact Hr | exact (roomy_after_call size (Some (List.length rest)) s1 Hr1)
        | exact Hstk | exact Haw |].
      unfold run_handler. rewrite Hh. unfold processArray.
      change (heap_of (with_processing true s)) with (heap_of s).
      unfold items_of. rewrite Hv, Hshape.
      destruct (Nat.eqb_spec (index F) (List.length all_items)) as [|_]; [lia|].
      rewrite Hlook. simpl default. fold st key. rewrite Hpv. simpl.
      change (_stack st) with (_stack s). rewrite Hstk. simpl.
      by rewrite Nat.sub_0_r.
    + destruct Hdone1 as (P1 & _ & _). destruct Hdone2 as (P2 & Hstk' & Hd').
      split; [|split; [exact Hstk' | by rewrite Hd', Hd2, Hdc]].
      pose proof (produced_with_processing size true s Hr) as P0.
      pose proof (produced_emits _ _ _ _ Hemit) as Pc.
      pose proof (produced_trans _ _ _ _ _ _ _ _
                    (produced_trans _ _ _ _ _ _ _ _
                       (produced_trans _ _ _ _ _ _ _ _ P0 Pc) P1) P2) as P.
      eapply produced_weaken; [exact P| |].
      * simpl. unfold item_prefix. rewrite Hsp2, Hsp. subst key.
        rewrite nat_to_string_is_zero.
        change (active_space st) with (active_space s).
        rewrite !string_app_assoc. reflexivity.
      * guard_incl.
Qed.

Lemma string_app_nil_l s : EmptyString +:+ s = s.
Proof. reflexivity. Qed.

Lemma closing_bracket_line s d :
  _depth s = Z.of_nat d -> closing_bracket s = Some (line (active_space s) d +:+ "]").
Proof.
  intros Hd. unfold closing_bracket, js_repeat, line. rewrite Hd.
  destruct (active_space s) as [sp|]; [|reflexivity].
  destruct (Z.ltb_spec (Z.of_nat d) 0) as [|_]; [lia|]. simpl. by rewrite Nat2Z.id.
Qed.

Lemma after_call_pushStack cursor n s :
  below_top cursor s -> after_call cursor (pushStack n s) = pushStack n (after_call cursor s).
Proof.
  destruct cursor as [h|]; simpl; [|reflexivity]. apply bump_index_pushStack.
Qed.

Lemma after_call_with_depth cursor x s :
  after_call cursor (with_depth x s) = with_depth x (after_call cursor s).
Proof.
  destruct cursor as [h|]; simpl; [|reflexivity].
  unfold bump_index. simpl. by destruct (h <? _).
Qed.

Lemma after_call_attach cursor x F C s :
  below_top cursor s ->
  after_call cursor (with_depth x (pushStack F (pushStack C s)))
  = with_depth x (pushStack F (pushStack C (after_call cursor s))).
Proof.
  intros Hb.
  rewrite after_call_with_depth, !after_call_pushStack; auto using below_top_pushStack.
Qed.

(** The step of a [push] node whose text fits. *)
Lemma close_step size close rest0 s :
  _stack s = node h_push (VString close) :: rest0 ->
  roomy size s -> String.length close <= size ->
  exists s',
    steps 1 s = Some s'
    /\ produced size close [] s s' /\ _stack s' = rest0 /\ _depth s' = _depth s.
Proof.
  intros Hstk Hr Hw.
  destruct (push_emits size close (with_processing true s) Hr Hw) as (s1 & Hp & He & Hs1).
  change (_stack (with_processing true s)) with (_stack s) in Hs1. rewrite Hstk in Hs1.
  exists (with_stack rest0 s1). split; [|split; [|split]].
  - eapply (steps_one size);
      [exact Hr | exact (proj1 He : roomy size (with_stack rest0 s1)) | exact Hstk | reflexivity |].
    unfold run_handler, push_node. simpl. rewrite Hp. simpl.
    unfold popStack. by rewrite Hs1.
  - pose proof (produced_with_processing size true s Hr) as P0.
    pose proof (produced_emits _ _ _ _ He) as P1.
    assert (P2 : produced size EmptyString [] s1 (with_stack rest0 s1)).
    { apply produced_quiet; try done; [apply He|]. intros a Ha. by left. }
    eapply produced_weaken;
      [exact (produced_trans _ _ _ _ _ _ _ _ (produced_trans _ _ _ _ _ _ _ _ P0 P1) P2)
      | by rewrite string_app_nil_r | done].
  - reflexivity.
  - simpl. by rewrite (same_sources_depth _ _ (proj2 (proj2 He))).
Qed.

Lemma widest_items_bounds sp d a ts size :
  widest sp d (Items a ts) <= size ->
  2 <= size /\ String.length (line sp d) <= size /\ S (String.length (line sp (d - 1))) <= size
  /\ Forall (fun t => widest sp (S d) t <= size) ts.
Proof.
  simpl. induction ts as [|t ts IH]; simpl; intros H.
  - repeat split; try lia. constructor.
  - destruct IH as (?&?&?&?); [lia|]. repeat split; try done. constructor; [lia|done].
Qed.

Lemma produced_with_visited size a s :
  roomy size s ->
  produced size EmptyString [a] s (with_visited ({[ a ]} ∪ _visited s) s).
Proof.
  intros Hr. apply produced_quiet; try done. simpl. intros a' Ha'.
  apply elem_of_union in Ha' as [Ha'|Ha']; [right | by left].
  apply elem_of_singleton in Ha'. subst. by apply list_elem_of_singleton.
Qed.

Lemma array_pop_step size s F rest a items :
  roomy size s ->
  _stack s = F :: rest ->
  handler F = h_processArray -> fvalue F = VRef a -> awaiting F = false ->
  obj_shape (deref (heap_of s) a) = ArrayOf items ->
  index F = List.length items ->
  steps 1 s
  = Some (with_stack rest
            (with_depth (_depth s - 1)
               (with_visited (_visited s ∖ {[ a ]}) (with_processing true s)))).
Proof.
  intros Hr Hstk Hh Hv Haw Hshape Hidx.
  eapply (steps_one size); [exact Hr | exact Hr | exact Hstk | exact Haw |].
  unfold run_handler. rewrite Hh. unfold processArray, items_of.
  change (heap_of (with_processing true s)) with (heap_of s).
  rewrite Hv, Hshape, Hidx, Nat.eqb_refl.
  unfold popStack. change (_stack (with_processing true s)) with (_stack s).
  by rewrite Hstk, Hh, Hv.
Qed.

(** The sequence case of [value_spec], one level up. *)
Lemma items_case size n (IH : value_spec size n) key v cb cursor a items ts s sc d :
  transform s key v = VRef a ->
  obj_shape (deref (heap_of s) a) = ArrayOf items ->
  unfold_items (unfold n (heap_of s) (replacer s)) 0 items = Some ts ->
  call cb key s = Ok sc ->
  roomy size sc ->
  _depth sc = Z.of_nat d ->
  widest (active_space sc) (S d) (Items a ts) <= size ->
  NoDup (addrs (Items a ts)) ->
  (forall a', a' ∈ addrs (Items a ts) -> a' ∉ _visited sc) ->
  below_top cursor sc ->
  exists k s1 s2,
    processValue key v cb s = Ok s1
    /\ roomy size s1
    /\ steps k (after_call cursor s1) = Some s2
    /\ done_value size (format (active_space sc) (S d) (Items a ts))
         (cursor_stack cursor (_stack sc)) (addrs (Items a ts)) sc s2.
Proof.
  intros Hv Hshape Hunf Hcall Hr Hd Hw Hnd Hfresh Hb.
  pose proof (call_same_sources cb key s) as Hsame. rewrite Hcall in Hsame. simpl in Hsame.
  pose proof Hsame as (Hheap & Hrep & _).
  destruct (widest_items_bounds _ _ _ _ _ Hw) as (H2 & Hline & Hclose & Hws).
  simpl in Hnd. apply NoDup_cons in Hnd as [Hnotin Hnd].
  assert (Hfresh_a : a ∉ _visited sc) by (apply Hfresh; simpl; apply list_elem_of_here).
  set (sv := with_visited ({[ a ]} ∪ _visited sc) sc).
  assert (Hpv : processValue key v cb s
                = match items with
                  | [] => push "[]" sv
                  | _ => open_sequence (node h_processArray (VRef a)) sv
                  end).
  { unfold processValue. rewrite Hv. unfold getType. rewrite Hshape, Hcall. simpl.
    rewrite bool_decide_eq_false_2 by exact Hfresh_a. fold sv.
    change (heap_of sv) with (heap_of sc). rewrite Hheap, Hshape. reflexivity. }
  assert (Hrv : roomy size sv) by exact Hr.
  pose proof (produced_with_visited size a sc Hr) as Pv. fold sv in Pv.
  destruct items as [|item rest].
  - (* the empty sequence *)
    injection Hunf as <-.
    destruct (push_emits size "[]" sv Hrv) as (s1 & Hp & He & Hs1); [simpl; lia|].
    exists 0, s1, (after_call cursor s1). split; [by rewrite Hpv|].
    split; [exact (proj1 He)|]. split; [reflexivity|].
    split; [|split].
    + eapply produced_weaken;
        [exact (produced_trans _ _ _ _ _ _ _ _
                  (produced_trans _ _ _ _ _ _ _ _ Pv (produced_emits _ _ _ _ He))
                  (produced_after_call size cursor s1 (proj1 He)))
        | reflexivity | ].
      guard_incl.
    + by rewrite stack_after_call, Hs1.
    + rewrite depth_after_call. by rewrite (same_sources_depth _ _ (proj2 (proj2 He))).
  - (* at least one item *)
    destruct (push_emits size "[" sv Hrv) as (s3 & Hp & He & Hs3); [simpl; lia|].
    pose proof He as (Hr3 & _ & Hsame3).
    pose proof (same_sources_depth _ _ Hsame3) as Hd3.
    pose proof (same_sources_active_space _ _ Hsame3) as Hsp3.
    pose proof Hsame3 as (Hheap3 & Hrep3 & _ & _ & Hvis3 & _).
    change (_depth sv) with (_depth sc) in Hd3.
    change (active_space sv) with (active_space sc) in Hsp3.
    change (heap_of sv) with (heap_of sc) in Hheap3.
    change (replacer sv) with (replacer sc) in Hrep3.
    change (_stack sv) with (_stack sc) in Hs3.
    set (sp := active_space sc) in *.
    set (close := line sp d +:+ "]").
    set (F0 := node h_processArray (VRef a)).
    set (C := node h_push (VString close)).
    set (s1 := with_depth (_depth s3 + 1) (pushStack F0 (pushStack C s3))).
    assert (Hb3 : below_top cursor s3).
    { destruct cursor; simpl in *; [|done]. by rewrite Hs3. }
    assert (Hs1 : processValue key v cb s = Ok s1).
    { rewrite Hpv. unfold open_sequence. rewrite Hp. simpl.
      rewrite (closing_bracket_line s3 d) by (by rewrite Hd3). by rewrite Hsp3. }
    set (s4 := with_depth (_depth s3 + 1) (pushStack F0 (pushStack C (after_call cursor s3)))).
    assert (Hs4 : after_call cursor s1 = s4) by (by apply after_call_attach).
    destruct (after_call_quiet cursor s3) as (Hq & Hqrs & Hqbuf & Hqoff & Hqout).
    pose proof Hq as (Hqheap & Hqrep & Hqsp & _ & Hqvis & _).
    assert (Hr4 : roomy size s4).
    { exact (roomy_after_call size cursor s3 Hr3). }
    assert (P34 : produced size EmptyString [] s3 s4).
    { apply produced_quiet; [exact Hr3 | exact Hqrs | exact Hqbuf | exact Hqoff | exact Hqout | |].
      - apply (same_sources_undisturbed _ _ Hq).
      - simpl. intros a' Ha'. left. by rewrite <- Hqvis. }
    destruct (items_loop size n a (item :: rest) IH (item :: rest) ts F0
                (C :: _stack (after_call cursor s3)) s4 (S d))
      as (k1 & s5 & Hsteps5 & (P45 & Hstk5 & Hd5)); try reflexivity.
    { simpl. rewrite Hqheap, Hheap3, Hheap. exact Hshape. }
    { simpl. lia. }
    { simpl heap_of. simpl replacer. rewrite Hqheap, Hqrep, Hheap3, Hrep3, Hheap, Hrep.
      exact Hunf. }
    { exact Hr4. }
    { simpl. rewrite Hd3, Hd. lia. }
    { change (active_space s4) with (active_space (after_call cursor s3)).
      unfold active_space. rewrite Hqsp. fold (active_space s3). rewrite Hsp3. exact Hline. }
    { change (active_space s4) with (active_space (after_call cursor s3)).
      unfold active_space. rewrite Hqsp. fold (active_space s3). rewrite Hsp3. exact Hws. }
    { exact Hnd. }
    { intros a' Ha'. simpl. rewrite Hqvis, Hvis3. simpl.
      intros Hin. apply elem_of_union in Hin as [Hin|Hin].
      - apply elem_of_singleton in Hin. subst a'. by apply Hnotin.
      - revert Hin. apply Hfresh. simpl. by apply list_elem_of_further. }
    assert (Hsp4 : active_space s4 = sp).
    { change (active_space s4) with (active_space (after_call cursor s3)).
      unfold active_space. rewrite Hqsp. fold (active_space s3). exact Hsp3. }
    rewrite Hsp4 in P45.
    pose proof P45 as (Hr5 & _ & Hu5 & Hv5).
    (* the frame is popped *)
    set (s6 := with_stack (C :: _stack (after_call cursor s3))
                 (with_depth (_depth s5 - 1)
                    (with_visited (_visited s5 ∖ {[ a ]}) (with_processing true s5)))).
    assert (Hstep6 : steps 1 s5 = Some s6).
    { apply (array_pop_step size s5 (set_index (List.length (item :: rest)) F0) _ a
               (item :: rest)); try done.
      destruct Hu5 as (Hheap5 & _). rewrite Hheap5. simpl heap_of.
      rewrite Hqheap, Hheap3, Hheap. exact Hshape. }
    assert (P56 : produced size EmptyString [] s5 s6).
    { apply produced_quiet; try done. simpl. intros a' Ha'. left.
      apply elem_of_difference in Ha'. tauto. }
    assert (Hr6 : roomy size s6) by exact Hr5.
    destruct (close_step size close (_stack (after_call cursor s3)) s6)
      as (s8 & Hstep8 & P68 & Hstk8 & Hd8); [reflexivity | exact Hr6 | |].
    { unfold close. rewrite length_string_app. simpl.
      replace (S d - 1) with d in Hclose by lia. lia. }
    exists (k1 + (1 + 1)), s1, s8. split; [exact Hs1|]. split; [exact Hr3|]. split.
    { rewrite Hs4. eapply steps_app; [exact Hsteps5|].
      eapply (steps_app 1); [exact Hstep6 | exact Hstep8]. }
    split; [|split].
    + pose proof (produced_trans _ _ _ _ _ _ _ _
                    (produced_trans _ _ _ _ _ _ _ _
                      (produced_trans _ _ _ _ _ _ _ _
                        (produced_trans _ _ _ _ _ _ _ _
                          (produced_trans _ _ _ _ _ _ _ _ Pv (produced_emits _ _ _ _ He))
                          P34) P45) P56) P68) as P.
      eapply produced_weaken; [exact P| |].
      * destruct (unfold_items_cons _ _ _ _ _ Hunf) as (t & ts' & -> & _).
        cbn [format]. replace (S d - 1) with d by lia. unfold close.
        rewrite !string_app_nil_r, !string_app_nil_l, !string_app_assoc.
        rewrite Nat.eqb_refl. reflexivity.
      * guard_incl.
    + rewrite Hstk8, stack_after_call, Hs3. reflexivity.
    + rewrite Hd8. simpl. rewrite Hd5. simpl. rewrite Hd3. lia.
Qed.

(** ** Keyed collections *)

Lemma unfold_leaf n h rep key v x :
  unfold n h rep key v = Some (Leaf x) ->
  transform_with h rep key v = x
  /\ match x with VRef _ => False | _ => True end
  /\ primitiveToString x = inr (literal x).
Proof.
  destruct n as [|n]; [discriminate|]. simpl.
  assert (Hdc : match transform_with h rep key v with
                | VFunction | VSymbol => False
                | _ => True
                end).
  { unfold transform_with, drop_callable. by destruct (match rep with Some _ => _ | None => _ end). }
  destruct (transform_with h rep key v) as [| | |num| | | | |a] eqn:Ht; intros H;
    try discriminate H; try (injection H as <-); try done.
  - by destruct b.
  - by destruct num.
  - destruct (obj_shape (deref h a)); try discriminate H.
    + destruct (unfold_entries _ _ _); discriminate H.
    + destruct (unfold_items _ _ _); discriminate H.
Qed.

Lemma unfold_entries_cons f get k rest es :
  unfold_entries f get (k :: rest) = Some es ->
  exists t es', es = (k, t) :: es' /\ f k (get k) = Some t
                /\ unfold_entries f get rest = Some es'.
Proof.
  simpl. destruct (f k (get k)) as [t|]; [|discriminate]. simpl.
  destruct (unfold_entries f get rest) as [es'|]; [|discriminate]. simpl.
  intros [= <-]. by exists t, es'.
Qed.

Lemma dropped_of_transform s key v :
  transform s key v = VUndefined -> dropped (replaced s key v) = true.
Proof.
  unfold transform. fold (replaced s key v). by destruct (replaced s key v).
Qed.

Lemma not_shown_leaf k t : shown (k, t) = false -> t = Leaf VUndefined.
Proof. unfold shown. simpl. destruct t as [[]| |]; by try discriminate. Qed.

Lemma written_cons part e es :
  written part (e :: es) = if shown e then part e :: written part es else written part es.
Proof. unfold written. simpl. by destruct (shown e). Qed.

Lemma object_frame_eta F b i :
  firstEntry F = b -> index F = i -> set_firstEntry b (set_index i F) = F.
Proof. destruct F. simpl. by intros <- <-. Qed.

Lemma entries_loop size n a (IH : value_spec size n) :
  forall remaining es F rest s de,
    _stack s = F :: rest ->
    handler F = h_processObject -> fvalue F = VRef a -> awaiting F = false ->
    drop (index F) (keys F) = remaining ->
    index F <= List.length (keys F) ->
    unfold_entries (unfold n (heap_of s) (replacer s)) (property (heap_of s) (VRef a)) remaining
      = Some es ->
    roomy size s ->
    _depth s = Z.of_nat de ->
    Forall (entry_fits size (active_space s) de) es ->
    NoDup (flat_map (fun e => addrs (snd e)) es) ->
    (forall a', a' ∈ flat_map (fun e => addrs (snd e)) es -> a' ∉ _visited s) ->
    exists k s',
      steps k s = Some s'
      /\ done_value size
           (separated (firstEntry F) (written (entry_text (active_space s) de) es))
           (set_firstEntry
              (firstEntry F && is_null (written (entry_text (active_space s) de) es))
              (set_index (List.length (keys F)) F) :: rest)
           (flat_map (fun e => addrs (snd e)) es) s s'.
Proof.
  induction remaining as [|k0 rem' IHloop];
    intros es F rest s de Hstk Hh Hv Haw Hdrop Hle Hunf Hr Hd Hws Hnd Hfresh.
  - injection Hunf as <-.
    assert (Hi : index F = List.length (keys F)).
    { destruct (Nat.lt_ge_cases (index F) (List.length (keys F))) as [Hlt|]; [|lia].
      apply (f_equal List.length) in Hdrop. rewrite length_drop in Hdrop. simpl in Hdrop. lia. }
    exists 0, s. split; [reflexivity|]. simpl.
    rewrite andb_true_r, object_frame_eta by done. rewrite <- Hstk.
    split; [|by split].
    apply produced_quiet; try done. intros a' Ha'. by left.
  - destruct (unfold_entries_cons _ _ _ _ _ Hunf) as (t & es' & -> & Ht & Hes').
    destruct (drop_cons_inv _ _ _ _ Hdrop) as (Hlook & Hdrop' & Hlt).
    set (st := with_processing true s).
    simpl in Hnd. apply NoDup_app in Hnd as (Hnd1 & Hdisj & Hnd2).
    apply Forall_cons in Hws as [Hw1 Hws'].
    destruct (shown (k0, t)) eqn:Hshown.
    + (* the entry is written *)
      destruct (Hw1 Hshown) as [Hwk Hwt]. simpl in Hwk, Hwt.
      destruct (call_entry_fits size de k0 st F rest) as (sc & Hcall & Hemit & Hstkc);
        [exact Hr | exact Hd | exact Hstk | exact Hwk |].
      pose proof Hemit as (Hrc & _ & Hsame).
      pose proof (same_sources_active_space _ _ Hsame) as Hsp.
      pose proof (same_sources_depth _ _ Hsame) as Hdc.
      pose proof Hsame as (Hheapc & Hrepc & _ & _ & Hvisc & _).
      destruct (IH k0 (property (heap_of s) (VRef a) k0) cb_processObjectEntry
                  (Some (List.length rest)) t st sc de)
        as (k1 & s1 & s2 & Hpv & Hr1 & Hsteps1 & Hdone1).
      { exact Ht. }
      { intros _ ->. discriminate Hshown. }
      { exact Hcall. }
      { exact Hrc. }
      { rewrite Hdc. exact Hd. }
      { rewrite Hsp. exact Hwt. }
      { exact Hnd1. }
      { intros a' Ha'. rewrite Hvisc. apply Hfresh. simpl. apply elem_of_app. by left. }
      { simpl. rewrite Hstkc. simpl. lia. }
      rewrite Hstkc, cursor_stack_top in Hdone1.
      pose proof Hdone1 as ((Hr2 & _ & Hu2 & Hv2) & Hstk2 & Hd2).
      pose proof Hu2 as (Hheap2 & Hrep2 & _).
      pose proof (active_space_undisturbed _ _ Hu2) as Hsp2.
      set (F2 := set_index (S (index (set_firstEntry false F))) (set_firstEntry false F)) in *.
      destruct (IHloop es' F2 rest s2 de) as (k2 & s' & Hsteps2 & Hdone2).
      { exact Hstk2. }
      { exact Hh. }
      { exact Hv. }
      { exact Haw. }
      { exact Hdrop'. }
      { simpl. lia. }
      { rewrite Hheap2, Hrep2, Hheapc, Hrepc. exact Hes'. }
      { exact Hr2. }
      { rewrite Hd2, Hdc. exact Hd. }
      { rewrite Hsp2, Hsp. exact Hws'. }
      { exact Hnd2. }
      { intros a' Ha' Hin. destruct (Hv2 a' Hin) as [Hc|Hc].
        - rewrite Hvisc in Hc. revert Hc. apply Hfresh. simpl. apply elem_of_app. by right.
        - by apply (Hdisj a'). }
      exists (1 + (k1 + k2)), s'. split.
      * eapply (steps_app 1); [|eapply steps_app; [exact Hsteps1 | exact Hsteps2]].
        eapply (steps_one size);
          [exact Hr | exact (roomy_after_call size (Some (List.length rest)) s1 Hr1)
          | exact Hstk | exact Haw |].
        unfold run_handler. rewrite Hh. unfold processObject.
        destruct (Nat.eqb_spec (index F) (List.length (keys F))) as [|_]; [lia|].
        rewrite Hlook. simpl default.
        change (heap_of (with_processing true s)) with (heap_of s). rewrite Hv.
        fold st. rewrite Hpv. simpl.
        change (_stack st) with (_stack s). rewrite Hstk. simpl.
        by rewrite Nat.sub_0_r.
      * destruct Hdone1 as (P1 & _ & _). destruct Hdone2 as (P2 & Hstk' & Hd').
        split; [|split; [|by rewrite Hd', Hd2, Hdc]].
        -- pose proof (produced_with_processing size true s Hr) as P0.
           pose proof (produced_emits _ _ _ _ Hemit) as Pc.
           pose proof (produced_trans _ _ _ _ _ _ _ _
                         (produced_trans _ _ _ _ _ _ _ _
                            (produced_trans _ _ _ _ _ _ _ _ P0 Pc) P1) P2) as P.
           eapply produced_weaken; [exact P| |guard_incl].
           rewrite written_cons, Hshown. simpl.
           unfold entry_prefix, entry_text. simpl fst. simpl snd.
           rewrite Hsp2, Hsp. change (active_space st) with (active_space s).
           rewrite !string_app_assoc. reflexivity.
        -- rewrite Hstk', written_cons, Hshown. simpl.
           rewrite andb_false_r. reflexivity.
    + (* the entry is omitted *)
      pose proof (not_shown_leaf _ _ Hshown) as ->.
      destruct (unfold_leaf _ _ _ _ _ _ Ht) as (Htr & _).
      set (F2 := set_index (S (index F)) F).
      set (s2 := with_stack (F2 :: rest) st).
      assert (Hstep : steps 1 s = Some s2).
      { eapply (steps_one size); [exact Hr | exact Hr | exact Hstk | exact Haw |].
        unfold run_handler. rewrite Hh.
        apply (processObject_skips_omitted F rest st k0); [exact Hstk | exact Hlook |].
        apply dropped_of_transform. rewrite transform_is_transform_with.
        rewrite Hv. exact Htr. }
      destruct (IHloop es' F2 rest s2 de) as (k2 & s' & Hsteps2 & Hdone2); try done.
      exists (1 + k2), s'. split; [eapply steps_app; eauto|].
      destruct Hdone2 as (P2 & Hstk' & Hd').
      split; [|split; [|exact Hd']].
      * assert (P0 : produced size EmptyString [] s s2).
        { apply produced_quiet; try done. intros a' Ha'. by left. }
        eapply produced_weaken; [exact (produced_trans _ _ _ _ _ _ _ _ P0 P2)| |guard_incl].
        rewrite written_cons, Hshown. reflexivity.
      * rewrite Hstk', written_cons, Hshown. reflexivity.
Qed.

(** The step of a keyed collection's frame whose keys are used up: the
    line break before the closing brace, when an entry has been written,
    and the frame is dropped. *)
Lemma object_pop_step size s F rest a d :
  _stack s = F :: rest ->
  handler F = h_processObject -> fvalue F = VRef a -> awaiting F = false ->
  index F = List.length (keys F) ->
  roomy size s ->
  _depth s = Z.of_nat (S d) ->
  (firstEntry F = false -> String.length (line (active_space s) d) <= size) ->
  exists s',
    steps 1 s = Some s'
    /\ produced size (if firstEntry F then EmptyString else line (active_space s) d) [] s s'
    /\ _stack s' = rest
    /\ _depth s' = Z.of_nat d.
Proof.
  intros Hstk Hh Hv Haw Hidx Hr Hd Hw.
  set (st := with_processing true s).
  pose proof (produced_with_processing size true s Hr) as P0. fold st in P0.
  assert (Hbreak : exists s1,
             match active_space st with
             | Some sp =>
                 if negb (firstEntry F)
                 then push_indented sp (_depth st - 1) EmptyString st
                 else Ok st
             | None => Ok st
             end = Ok s1
             /\ emits size (if firstEntry F then EmptyString else line (active_space s) d) st s1
             /\ _stack s1 = F :: rest).
  { change (active_space st) with (active_space s). change (_depth st) with (_depth s).
    destruct (active_space s) as [sp|] eqn:Hsp.
    - destruct (firstEntry F) eqn:Hfirst; simpl.
      + exists st. split; [reflexivity|]. split; [by apply emits_nothing | exact Hstk].
      + rewrite Hd. replace (Z.of_nat (S d) - 1)%Z with (Z.of_nat d) by lia.
        rewrite push_indented_line, string_app_nil_r.
        destruct (push_emits size (line (Some sp) d) st Hr (Hw eq_refl)) as (s1 & Hp & He & Hs1).
        exists s1. split; [exact Hp|]. split; [exact He|]. by rewrite Hs1.
    - exists st. split; [reflexivity|]. split; [|exact Hstk].
      destruct (firstEntry F); by apply emits_nothing. }
  destruct Hbreak as (s1 & Hb & He & Hs1).
  pose proof He as (Hr1 & _ & Hsame).
  set (s' := with_stack rest
               (with_depth (_depth s1 - 1) (with_visited (_visited s1 ∖ {[ a ]}) s1))).
  exists s'. split; [|split; [|split]].
  - eapply (steps_one size); [exact Hr | exact (Hr1 : roomy size s') | exact Hstk | exact Haw |].
    unfold run_handler. rewrite Hh. unfold processObject. rewrite Hidx, Nat.eqb_refl.
    fold st. rewrite Hb. simpl. unfold popStack. by rewrite Hs1, Hh, Hv.
  - assert (P2 : produced size EmptyString [] s1 s').
    { apply produced_quiet; try done. simpl. intros a' Ha'. left.
      apply elem_of_difference in Ha'. tauto. }
    eapply produced_weaken;
      [exact (produced_trans _ _ _ _ _ _ _ _
                (produced_trans _ _ _ _ _ _ _ _ P0 (produced_emits _ _ _ _ He)) P2)
      | by rewrite string_app_nil_r | done].
  - reflexivity.
  - simpl. rewrite (same_sources_depth _ _ Hsame). change (_depth st) with (_depth s). lia.
Qed.

Lemma widest_entries_bounds sp d a es size :
  widest sp d (Entries a es) <= size ->
  2 <= size /\ String.length (line sp (d - 1)) <= size
  /\ Forall (entry_fits size sp d) es.
Proof.
  simpl. induction es as [|e es IH]; simpl; intros H.
  - repeat split; try lia. constructor.
  - destruct (shown e) eqn:Hshown.
    + destruct IH as (?&?&?); [lia|]. repeat split; try done.
      constructor; [|done]. intros _. lia.
    + destruct IH as (?&?&?); [lia|]. repeat split; try done.
      constructor; [|done]. intros Hs. congruence.
Qed.

Lemma length_unfold_entries f get : forall ks es,
  unfold_entries f get ks = Some es -> List.length es = List.length ks.
Proof.
  induction ks as [|k ks IH]; intros es H.
  - by injection H as <-.
  - destruct (unfold_entries_cons _ _ _ _ _ H) as (t & es' & -> & _ & H').
    simpl. by rewrite (IH es' H').
Qed.

(** The keyed-collection case of [value_spec], one level up. *)
Lemma entries_case size n (IH : value_spec size n) key v cb cursor a entries es s sc d :
  transform s key v = VRef a ->
  obj_shape (deref (heap_of s) a) = Plain entries ->
  unfold_entries (unfold n (heap_of s) (replacer s)) (property (heap_of s) (VRef a))
    (map fst entries) = Some es ->
  call cb key s = Ok sc ->
  roomy size sc ->
  _depth sc = Z.of_nat d ->
  widest (active_space sc) (S d) (Entries a es) <= size ->
  NoDup (addrs (Entries a es)) ->
  (forall a', a' ∈ addrs (Entries a es) -> a' ∉ _visited sc) ->
  below_top cursor sc ->
  exists k s1 s2,
    processValue key v cb s = Ok s1
    /\ roomy size s1
    /\ steps k (after_call cursor s1) = Some s2
    /\ done_value size (format (active_space sc) (S d) (Entries a es))
         (cursor_stack cursor (_stack sc)) (addrs (Entries a es)) sc s2.
Proof.
  intros Hv Hshape Hunf Hcall Hr Hd Hw Hnd Hfresh Hb.
  pose proof (call_same_sources cb key s) as Hsame. rewrite Hcall in Hsame. simpl in Hsame.
  pose proof Hsame as (Hheap & Hrep & _).
  destruct (widest_entries_bounds _ _ _ _ _ Hw) as (H2 & Hclose & Hws).
  replace (S d - 1) with d in Hclose by lia.
  simpl in Hnd. apply NoDup_cons in Hnd as [Hnotin Hnd].
  assert (Hfresh_a : a ∉ _visited sc) by (apply Hfresh; simpl; apply list_elem_of_here).
  set (sv := with_visited ({[ a ]} ∪ _visited sc) sc).
  set (ks := map fst entries) in *.
  assert (Hpv : processValue key v cb s
                = match ks with
                  | [] => push "{}" sv
                  | _ =>
                      push "{" sv ;> fun s =>
                      Ok (with_depth (_depth s + 1)
                            (pushStack (Frame h_processObject (VRef a) 0 true ks false false None)
                               (pushStack (node h_push (VString "}")) s)))
                  end).
  { unfold processValue. rewrite Hv. unfold getType. rewrite Hshape, Hcall. simpl.
    rewrite bool_decide_eq_false_2 by exact Hfresh_a. fold sv.
    change (heap_of sv) with (heap_of sc). unfold object_keys. rewrite Hheap, Hshape.
    reflexivity. }
  assert (Hrv : roomy size sv) by exact Hr.
  pose proof (produced_with_visited size a sc Hr) as Pv. fold sv in Pv.
  destruct ks as [|k0 krest] eqn:Hks.
  - (* no key *)
    injection Hunf as <-.
    destruct (push_emits size "{}" sv Hrv) as (s1 & Hp & He & Hs1); [simpl; lia|].
    exists 0, s1, (after_call cursor s1). split; [by rewrite Hpv|].
    split; [exact (proj1 He)|]. split; [reflexivity|].
    split; [|split].
    + eapply produced_weaken;
        [exact (produced_trans _ _ _ _ _ _ _ _
                  (produced_trans _ _ _ _ _ _ _ _ Pv (produced_emits _ _ _ _ He))
                  (produced_after_call size cursor s1 (proj1 He)))
        | reflexivity | ].
      guard_incl.
    + by rewrite stack_after_call, Hs1.
    + rewrite depth_after_call. by rewrite (same_sources_depth _ _ (proj2 (proj2 He))).
  - (* at least one key *)
    destruct (push_emits size "{" sv Hrv) as (s3 & Hp & He & Hs3); [simpl; lia|].
    pose proof He as (Hr3 & _ & Hsame3).
    pose proof (same_sources_depth _ _ Hsame3) as Hd3.
    pose proof (same_sources_active_space _ _ Hsame3) as Hsp3.
    pose proof Hsame3 as (Hheap3 & Hrep3 & _ & _ & Hvis3 & _).
    change (_depth sv) with (_depth sc) in Hd3.
    change (active_space sv) with (active_space sc) in Hsp3.
    change (heap_of sv) with (heap_of sc) in Hheap3.
    change (replacer sv) with (replacer sc) in Hrep3.
    change (_stack sv) with (_stack sc) in Hs3.
    set (sp := active_space sc) in *.
    set (F0 := Frame h_processObject (VRef a) 0 true (k0 :: krest) false false None).
    set (C := node h_push (VString "}")).
    set (s1 := with_depth (_depth s3 + 1) (pushStack F0 (pushStack C s3))).
    assert (Hb3 : below_top cursor s3).
    { destruct cursor; simpl in *; [|done]. by rewrite Hs3. }
    assert (Hs1 : processValue key v cb s = Ok s1).
    { rewrite Hpv, Hp. reflexivity. }
    set (s4 := with_depth (_depth s3 + 1) (pushStack F0 (pushStack C (after_call cursor s3)))).
    assert (Hs4 : after_call cursor s1 = s4) by (by apply after_call_attach).
    destruct (after_call_quiet cursor s3) as (Hq & Hqrs & Hqbuf & Hqoff & Hqout).
    pose proof Hq as (Hqheap & Hqrep & Hqsp & _ & Hqvis & _).
    assert (Hr4 : roomy size s4).
    { exact (roomy_after_call size cursor s3 Hr3). }
    assert (P34 : produced size EmptyString [] s3 s4).
    { apply produced_quiet; [exact Hr3 | exact Hqrs | exact Hqbuf | exact Hqoff | exact Hqout | |].
      - apply (same_sources_undisturbed _ _ Hq).
      - simpl. intros a' Ha'. left. by rewrite <- Hqvis. }
    assert (Hsp4 : active_space s4 = sp).
    { change (active_space s4) with (active_space (after_call cursor s3)).
      unfold active_space. rewrite Hqsp. fold (active_space s3). exact Hsp3. }
    destruct (entries_loop size n a IH (k0 :: krest) es F0
                (C :: _stack (after_call cursor s3)) s4 (S d))
      as (k1 & s5 & Hsteps5 & (P45 & Hstk5 & Hd5)); try reflexivity.
    { simpl. lia. }
    { simpl heap_of. simpl replacer. rewrite Hqheap, Hqrep, Hheap3, Hrep3, Hheap, Hrep.
      exact Hunf. }
    { exact Hr4. }
    { simpl. rewrite Hd3, Hd. lia. }
    { rewrite Hsp4. exact Hws. }
    { exact Hnd. }
    { intros a' Ha'. simpl. rewrite Hqvis, Hvis3. simpl.
      intros Hin. apply elem_of_union in Hin as [Hin|Hin].
      - apply elem_of_singleton in Hin. subst a'. by apply Hnotin.
      - revert Hin. apply Hfresh. simpl. by apply list_elem_of_further. }
    rewrite Hsp4 in P45, Hstk5.
    pose proof P45 as (Hr5 & _ & Hu5 & Hv5).
    pose proof (active_space_undisturbed _ _ Hu5) as Hsp5. rewrite Hsp4 in Hsp5.
    set (parts := written (entry_text sp (S d)) es) in *.
    simpl firstEntry in Hstk5, P45. simpl andb in Hstk5.
    (* the frame is popped *)
    destruct (object_pop_step size s5 _ _ a d Hstk5)
      as (s6 & Hstep6 & P56 & Hstk6 & Hd6); try reflexivity.
    { exact Hr5. }
    { rewrite Hd5. simpl. rewrite Hd3, Hd. lia. }
    { intros _. rewrite Hsp5. exact Hclose. }
    simpl firstEntry in P56. rewrite Hsp5 in P56.
    pose proof P56 as (Hr6 & _).
    destruct (close_step size "}" (_stack (after_call cursor s3)) s6)
      as (s8 & Hstep8 & P68 & Hstk8 & Hd8); [exact Hstk6 | exact Hr6 | simpl; lia |].
    exists (k1 + (1 + 1)), s1, s8. split; [exact Hs1|]. split; [exact Hr3|]. split.
    { rewrite Hs4. eapply steps_app; [exact Hsteps5|].
      eapply (steps_app 1); [exact Hstep6 | exact Hstep8]. }
    split; [|split].
    + pose proof (produced_trans _ _ _ _ _ _ _ _
                    (produced_trans _ _ _ _ _ _ _ _
                      (produced_trans _ _ _ _ _ _ _ _
                        (produced_trans _ _ _ _ _ _ _ _
                          (produced_trans _ _ _ _ _ _ _ _ Pv (produced_emits _ _ _ _ He))
                          P34) P45) P56) P68) as P.
      eapply produced_weaken; [exact P| |].
      * destruct (unfold_entries_cons _ _ _ _ _ Hunf) as (t & es' & Hes & _).
        subst parts. rewrite Hes. cbn [format]. rewrite <- Hes.
        replace (S d - 1) with d by lia.
        rewrite !string_app_nil_r, !string_app_nil_l, !string_app_assoc.
        reflexivity.
      * guard_incl.
    + rewrite Hstk8, stack_after_call, Hs3. reflexivity.
    + rewrite Hd8, Hd6. exact (eq_sym Hd).
Qed.

(** ** Every unfolding depth *)

Lemma unfold_cases n h rep key v t :
  unfold (S n) h rep key v = Some t ->
  match t with
  | Leaf x => True
  | Items a ts =>
      transform_with h rep key v = VRef a
      /\ exists items, obj_shape (deref h a) = ArrayOf items
                       /\ unfold_items (unfold n h rep) 0 items = Some ts
  | Entries a es =>
      transform_with h rep key v = VRef a
      /\ exists entries, obj_shape (deref h a) = Plain entries
                         /\ unfold_entries (unfold n h rep) (property h (VRef a))
                              (map fst entries) = Some es
  end.
Proof.
  simpl.
  destruct (transform_with h rep key v) as [| | |num| | | | |a] eqn:Ht; intros H;
    try discriminate H; try (by injection H as <-).
  destruct (obj_shape (deref h a)) as [entries|items| |] eqn:Hshape; try discriminate H.
  - destruct (unfold_entries _ _ _) as [es|] eqn:Hes; [|discriminate H].
    injection H as <-. split; [reflexivity|]. by exists entries.
  - destruct (unfold_items _ _ _) as [ts|] eqn:Hts; [|discriminate H].
    injection H as <-. split; [reflexivity|]. by exists items.
Qed.

Lemma value_run size : forall n, value_spec size n.
Proof.
  induction n as [|n IH]; intros key v cb cursor t s sc d Hunf Hshown Hcall Hr Hd Hw Hnd Hfresh Hb.
  - discriminate Hunf.
  - pose proof (call_same_sources cb key s) as Hsame. rewrite Hcall in Hsame. simpl in Hsame.
    pose proof (unfold_cases _ _ _ _ _ _ Hunf) as Hcases.
    destruct t as [x|a ts|a es].
    + destruct (unfold_leaf _ _ _ _ _ _ Hunf) as (Hx & Hprim & Hlit).
      destruct (leaf_run size key v cb cursor s sc x) as (s1 & Hpv & Hr1 & Hdone); try done.
      { intros Hcb ->. by apply Hshown. }
      exists 0, s1, (after_call cursor s1). by repeat (split; [done|]).
    + destruct Hcases as (Hv & items & Hshape & Hts).
      apply (items_case size n IH key v cb cursor a items ts s sc d); done.
    + destruct Hcases as (Hv & entries & Hshape & Hes).
      apply (entries_case size n IH key v cb cursor a entries es s sc d); done.
Qed.

Lemma consume_pull rounds fuel size s :
  roomy size s -> _processing s = false ->
  consume (S rounds) fuel size s = rest_of_run rounds fuel fuel size s.
Proof.
  intros ((Hrs & Hpos & Hoff & buf & Hbuf & Hlen) & (He & Hp & Ht)) Hproc.
  unfold rest_of_run. cbn [consume]. rewrite He, Hp. unfold dispatch, handle.
  rewrite (read_is_processStack fuel size s buf) by (done || lia).
  unfold processStack. rewrite Hproc, He. simpl orb. cbv iota.
  by destruct (conclude (drive fuel (with_processing true s))) as [[s1|e s1]|].
Qed.

Lemma finish_drained size s :
  roomy size s -> _stack s = [] ->
  exists final,
    finish (with_processing false s) = Ok final
    /\ _ended final = true
    /\ ticks final = []
    /\ error_slot final = error_slot s
    /\ received (output final) = emitted s
    /\ last (output final) = Some EndOfStream.
Proof.
  intros ((Hrs & Hpos & Hoff & buf & Hbuf & Hlen) & (He & Hp & Ht)) Hstk.
  unfold finish. simpl. rewrite Hstk, He. simpl. rewrite Hbuf.
  unfold emitted. rewrite Hbuf. simpl.
  destruct (Nat.ltb_spec 0 (_bufferOffset s)) as [Hlt|Hge].
  - eexists. split; [reflexivity|]. simpl. repeat split; try done.
    + rewrite !received_app. simpl. by rewrite !app_nil_r.
    + by rewrite last_snoc.
  - eexists. split; [reflexivity|]. simpl. repeat split; try done.
    + rewrite received_app. simpl. replace (_bufferOffset s) with 0 by lia. reflexivity.
    + by rewrite last_snoc.
Qed.

Lemma pulls_follow_steps size fuel : forall k s s' fuel0 rounds,
  steps k s = Some s' ->
  roomy size s ->
  _stack s' = [] ->
  k <= fuel0 -> k <= fuel -> k < rounds ->
  exists final,
    rest_of_run rounds fuel0 fuel size s = Some (Ok final)
    /\ _ended final = true
    /\ error_slot final = error_slot s'
    /\ received (output final) = emitted s'
    /\ last (output final) = Some EndOfStream.
Proof.
  induction k as [|k IH]; intros s s' fuel0 rounds Hsteps Hr Hstk Hf0 Hf Hrounds.
  - injection Hsteps as <-.
    destruct (finish_drained size s Hr Hstk) as (final & Hfin & Hend & Hticks & Herr & Hrec & Hlast).
    exists final. split; [|by repeat split].
    unfold rest_of_run.
    assert (Hdrive : drive fuel0 (with_processing true s) = Some (Drained (with_processing true s))).
    { destruct fuel0; simpl; by rewrite Hstk. }
    rewrite Hdrive. cbn [conclude].
    change (with_processing false (with_processing true s)) with (with_processing false s).
    rewrite Hfin, (run_ticks_none final Hticks).
    destruct rounds as [|rounds]; [lia|]. cbn [consume]. by rewrite Hend.
  - simpl in Hsteps.
    destruct (_stack s) as [|top prev] eqn:Hs; [discriminate|].
    destruct (awaiting top) eqn:Haw; [discriminate|].
    destruct (run_handler top (with_processing true s)) as [s1|e s1] eqn:Hrun; [|discriminate].
    destruct (steady s1 && (_readSize s1 =? _readSize s)) eqn:Hsteady; [|discriminate].
    apply andb_prop in Hsteady as [Hsteady Hsize]. apply Nat.eqb_eq in Hsize.
    pose proof (steady_roomy s1 Hsteady) as Hr1.
    rewrite Hsize, (proj1 (proj1 Hr)) in Hr1.
    destruct fuel0 as [|fuel0]; [lia|].
    unfold rest_of_run. cbn [drive]. change (_stack (with_processing true s)) with (_stack s).
    rewrite Hs, Haw, Hrun.
    destruct (_processing s1) eqn:Hproc.
    + destruct (IH s1 s' fuel0 rounds Hsteps Hr1 Hstk) as (final & Hrest & Hfacts); try lia.
      exists final. split; [|exact Hfacts].
      unfold rest_of_run in Hrest. rewrite <- Hproc, with_processing_same in Hrest. exact Hrest.
    + destruct rounds as [|rounds]; [lia|].
      destruct (IH s1 s' fuel rounds Hsteps Hr1 Hstk) as (final & Hrest & Hfacts); try lia.
      exists final. split; [|exact Hfacts].
      cbn [conclude]. rewrite (run_ticks_none s1 (proj2 (proj2 (proj2 Hr1)))).
      rewrite (consume_pull rounds fuel size s1 Hr1 Hproc). exact Hrest.
Qed.

(** ** The layout of the output *)

Lemma consume_first_pull rounds fuel size h v r sp :
  0 < size ->
  consume (S rounds) fuel size (createJsonStringifyStream h v r sp)
  = rest_of_run rounds fuel fuel size (first_pull size (createJsonStringifyStream h v r sp)).
Proof.
  intros Hpos. unfold rest_of_run. cbn [consume]. simpl _ended. simpl pending. cbv iota.
  unfold dispatch, handle, _read. simpl _ended. cbv iota.
  destruct (Nat.eqb_spec size 0) as [|_]; [lia|].
  unfold processStack. simpl.
  by destruct (conclude _) as [[s1|e s1]|].
Qed.

Lemma roomy_first_pull size h v r sp :
  0 < size -> roomy size (first_pull size (createJsonStringifyStream h v r sp)).
Proof.
  intros Hpos. split; [|by repeat split].
  split; [reflexivity|]. split; [exact Hpos|]. split; [exact Hpos|].
  eexists. split; [reflexivity|]. by rewrite length_replicate.
Qed.



(** The text of that run. *)
Lemma nested_text :
  root_text nested (VRef 1) ReplacerOther (SpaceNumber (Finite 2)) nested_tree
  = json "{
  'a': [
    1,
    2
  ],
  'c': {
    'd': null
  }
}"
  /\ received_text (stringify 40 40 16 nested (VRef 1) ReplacerOther (SpaceNumber (Finite 2)))
     = Some (root_text nested (VRef 1) ReplacerOther (SpaceNumber (Finite 2)) nested_tree).
Proof. split; vm_compute; reflexivity. Qed.


(** * Further properties of the encoder *)

Lemma unquote_char c rest :
  unquote_body (quote_char c +:+ rest) = String c <$> unquote_body rest.
Proof.
  destruct c as [[] [] [] [] [] [] [] []]; reflexivity.
Qed.

Lemma unquote_quoted_body s : unquote_body (quote_body s +:+ dquote) = Some s.
Proof.
  induction s as [|c s IH]; [reflexivity|].
  cbn [quote_body]. rewrite string_app_assoc, unquote_char, IH. reflexivity.
Qed.

(** What [quoteString] writes is read back as the string it was given. *)
Theorem quoteString_round_trip s : unquoteString (quoteString s) = Some s.
Proof. apply unquote_quoted_body. Qed.

Lemma quote_char_shape c :
  printable (quote_char c) /\ 1 <= String.length (quote_char c) <= 6.
Proof.
  destruct c as [[] [] [] [] [] [] [] []];
    (split; [repeat constructor | vm_compute; split; repeat constructor]).
Qed.

(** The quoted text has no control character, so that it stays on one
    line, and is between two and [6 * n + 2] characters long for a string
    of [n] characters. *)
Theorem quoteString_shape s :
  printable (quoteString s)
  /\ String.length s + 2 <= String.length (quoteString s) <= 6 * String.length s + 2.
Proof.
  unfold quoteString, printable.
  assert (H : printable (quote_body s)
              /\ String.length s <= String.length (quote_body s) <= 6 * String.length s).
  { induction s as [|c s [IHp IHl]]; [split; [constructor | simpl; lia]|].
    destruct (quote_char_shape c) as [Hp Hl]. cbn [quote_body]. split.
    - unfold printable. rewrite bytes_app. by apply Forall_app.
    - rewrite length_string_app. simpl String.length. lia. }
  destruct H as [Hp Hl]. split.
  - rewrite !bytes_app. apply Forall_app. split; [repeat constructor|].
    apply Forall_app. split; [exact Hp | repeat constructor].
  - rewrite !length_string_app. simpl. lia.
Qed.

Lemma bytes_text l : bytes (text l) = l.
Proof. apply list_ascii_of_string_of_list_ascii. Qed.

Lemma bytes_repeat_space n : bytes (repeat_string " " n) = replicate n space_char.
Proof.
  induction n as [|n IH]; [reflexivity|].
  cbn [repeat_string replicate]. by rewrite bytes_app, IH.
Qed.

(** The indentation unit, when there is one, has between one and ten
    characters: as many spaces as the number given, or the first
    characters of the string given. *)
Theorem normalizeSpace_unit sp u :
  normalizeSpace sp = Some u ->
  1 <= String.length u <= 10
  /\ match sp with
     | SpaceNumber n =>
         exists z, n = Finite z /\ (1 <= z)%Z
                   /\ bytes u = replicate (Z.to_nat (Z.min z 10)) space_char
     | SpaceString s => bytes u = take 10 (bytes s)
     | SpaceOther => False
     end.
Proof.
  destruct sp as [[z| |neg]|s|]; simpl; try discriminate.
  - destruct (Z.ltb_spec z 1) as [|Hz]; [discriminate|]. intros [= <-].
    rewrite <- length_bytes, bytes_repeat_space, length_replicate.
    split; [lia|]. exists z. by repeat split.
  - unfold slice_to. intros H.
    assert (Hu : u = text (take 10 (bytes s))).
    { destruct (text (take 10 (bytes s))); [discriminate | by injection H]. }
    assert (Hne : u <> EmptyString).
    { intros ->. destruct (text (take 10 (bytes s))); discriminate. }
    assert (Hb : bytes u = take 10 (bytes s)) by (by rewrite Hu, bytes_text).
    split; [|exact Hb].
    split.
    + destruct u; [done | simpl; lia].
    + rewrite <- length_bytes, Hb, length_take. lia.
Qed.

Lemma normalizeSpace_unit_witness :
  1 <= String.length "          " <= 10
  /\ exists z, Finite 25 = Finite z /\ (1 <= z)%Z
               /\ bytes "          " = replicate (Z.to_nat (Z.min z 10)) space_char.
Proof. exact (normalizeSpace_unit (SpaceNumber (Finite 25)) "          " eq_refl). Defined.

(** No indentation unit is the empty string: the policy the instance
    tests is the normalised one. *)
Lemma active_space_is_normalizeSpace h v r sp :
  active_space (createJsonStringifyStream h v r sp) = normalizeSpace sp.
Proof.
  unfold active_space. simpl.
  destruct (normalizeSpace sp) as [u|] eqn:H; [|reflexivity].
  destruct (normalizeSpace_unit sp u H) as [[Hlen _] _].
  destruct u; [simpl in Hlen; lia | reflexivity].
Qed.

Lemma whitelist_spec items key v :
  forall f, normalizeReplacer (ReplacerArray items) = Some f ->
  (listed items key -> f key v = v) /\ (~ listed items key -> f key v = VUndefined).
Proof.
  intros f [= <-].
  assert (Hiff : key ∈ ({[ EmptyString ]} ∪ list_to_set (omap whitelist_item items) : gset string)
                 <-> listed items key).
  { rewrite elem_of_union, elem_of_singleton, elem_of_list_to_set, list_elem_of_omap.
    reflexivity. }
  split; intros H.
  - by rewrite bool_decide_eq_true_2 by (by apply Hiff).
  - by rewrite bool_decide_eq_false_2 by (by rewrite Hiff).
Qed.



(** ** Values of no JSON type *)

(** A BigInt has no text: [primitiveToString] throws after the
    position's prefix has been written. *)
Lemma bigint_throws s key v cb n :
  transform s key v = VBigInt n ->
  processValue key v cb s
  = (call cb key s ;> fun s' => Throw (UnknownType "bigint") s').
Proof.
  intros Hv. unfold processValue. rewrite Hv. simpl.
  by destruct cb.
Qed.

(** A BigInt given as the root value: the first pull catches the throw
    and aborts; the consumer gets the error, then the end of the stream,
    and no byte. *)
Theorem bigint_root_is_reported h n r sp size rounds fuel :
  transform_with h (normalizeReplacer r) EmptyString (VBigInt n) = VBigInt n ->
  0 < size -> 2 <= rounds -> 1 <= fuel ->
  stringify rounds fuel size h (VBigInt n) r sp
  = Some [ErrorEvent (UnknownType "bigint"); EndOfStream].
Proof.
  intros Hv Hsize Hrounds Hfuel.
  destruct rounds as [|[|rounds]]; try lia. destruct fuel as [|fuel]; [lia|].
  unfold stringify. cbn [consume]. simpl _ended. simpl pending. cbv iota.
  unfold dispatch, handle, _read. simpl _ended. cbv iota.
  destruct (Nat.eqb_spec size 0) as [|_]; [lia|].
  unfold processStack. simpl orb. cbv iota.
  cbn [drive]. simpl _stack. simpl awaiting. cbv iota.
  unfold run_handler. simpl handler. cbv iota. unfold popStack. simpl.
  rewrite (bigint_throws _ _ _ _ n) by (by rewrite transform_is_transform_with).
  simpl. reflexivity.
Qed.

Lemma bigint_root_is_reported_witness :
  stringify 2 1 16 ∅ (VBigInt 7) ReplacerOther SpaceOther
  = Some [ErrorEvent (UnknownType "bigint"); EndOfStream].
Proof.
  apply (bigint_root_is_reported ∅ 7 ReplacerOther SpaceOther 16 2 1); [reflexivity | lia..].
Defined.

Lemma flushes_same b s s' : output s' = output s -> flushes b s s'.
Proof. intros H. exists []. split; [by rewrite H, app_nil_r | constructor]. Qed.

Lemma flushes_refl b s : flushes b s s.
Proof. by apply flushes_same. Qed.

Lemma flushes_trans b s1 s2 s3 : flushes b s1 s2 -> flushes b s2 s3 -> flushes b s1 s3.
Proof.
  intros (cs1 & H1 & F1) (cs2 & H2 & F2). exists (cs1 ++ cs2). split.
  - by rewrite H2, H1, fmap_app, app_assoc.
  - by apply Forall_app.
Qed.

Lemma paced_refl b s : paced b s s.
Proof. intros H. split; [exact H | apply flushes_refl]. Qed.

Lemma paced_trans b s1 s2 s3 : paced b s1 s2 -> paced b s2 s3 -> paced b s1 s3.
Proof.
  intros H12 H23 H1. destruct (H12 H1) as [H2 F12]. destruct (H23 H2) as [H3 F23].
  split; [exact H3 | eapply flushes_trans; eauto].
Qed.

(** An assignment outside the pull size, the buffer and the output. *)
Lemma paced_quiet b s s' :
  _readSize s' = _readSize s -> _buffer s' = _buffer s -> output s' = output s ->
  paced b s s'.
Proof.
  intros Hrs Hbuf Hout [Hb (buf & Hsome & Hlen)]. split.
  - split; [congruence|]. exists buf. split; [congruence | exact Hlen].
  - exists []. split; [by rewrite Hout, app_nil_r | constructor].
Qed.

Ltac paced_by_fields := apply paced_quiet; reflexivity.

Lemma paced_write_and_flush b data s : paced b s (state_of (write_and_flush data s)).
Proof.
  intros [Hb (buf & Hbuf & Hlen)]. unfold write_and_flush. rewrite Hbuf.
  pose proof (length_buffer_write buf (_bufferOffset s) (bytes data)) as Hw.
  destruct (buffer_write buf (_bufferOffset s) (bytes data)) as [buf' written]. simpl in Hw.
  destruct (_ <? _); simpl.
  - split; [|by apply flushes_same].
    split; [exact Hb|]. exists buf'. split; [reflexivity | lia].
  - split.
    + split; [exact Hb|]. eexists. split; [reflexivity|]. rewrite length_buffer_copy. lia.
    + exists [take (_readSize s) buf']. split; [reflexivity|].
      constructor; [|constructor]. rewrite length_take. lia.
Qed.

Lemma paced_push b data s : paced b s (state_of (push data s)).
Proof.
  unfold push. destruct (_ <? String.length data).
  - eapply paced_trans; [|apply paced_write_and_flush]. paced_by_fields.
  - apply paced_write_and_flush.
Qed.

Lemma paced_and_then b r k s :
  paced b s (state_of r) ->
  (forall s', paced b s' (state_of (k s'))) ->
  paced b s (state_of (r ;> k)).
Proof.
  intros Hr Hk. destruct r as [s'|e s']; simpl in *; [|exact Hr].
  eapply paced_trans; [exact Hr | apply Hk].
Qed.

Lemma paced_push_indented b sp n suffix s :
  paced b s (state_of (push_indented sp n suffix s)).
Proof.
  unfold push_indented. destruct (js_repeat sp n); [apply paced_push | apply paced_refl].
Qed.

Lemma paced_call b cb key s : paced b s (state_of (call cb key s)).
Proof.
  destruct cb; simpl; [apply paced_refl| |].
  - unfold processObjectEntry. destruct (_stack s) as [|current prev] eqn:Hstk; [apply paced_refl|].
    apply paced_and_then.
    + destruct (firstEntry current); [|apply paced_push].
      unfold update_top. rewrite Hstk. paced_by_fields.
    + intros s'. destruct (active_space s'); [apply paced_push_indented | apply paced_push].
  - unfold processArrayItem. apply paced_and_then.
    + destruct (String.eqb key "0"); [apply paced_refl | apply paced_push].
    + intros s'. destruct (active_space s'); [apply paced_push_indented | apply paced_refl].
Qed.

Lemma paced_popStack b s : paced b s (state_of (popStack s)).
Proof.
  unfold popStack. destruct (_stack s) as [|top prev]; [apply paced_refl|].
  destruct (leaves_guard (handler top)); paced_by_fields.
Qed.

Lemma paced_bump_index b height s : paced b s (bump_index height s).
Proof. unfold bump_index. destruct (height <? _); [paced_by_fields | apply paced_refl]. Qed.

Lemma paced_update_top b f s : paced b s (update_top f s).
Proof. unfold update_top. destruct (_stack s); [apply paced_refl | paced_by_fields]. Qed.

Lemma paced_abort b e s : paced b s (abort e s).
Proof. paced_by_fields. Qed.

Lemma paced_open_sequence b n s : paced b s (state_of (open_sequence n s)).
Proof.
  unfold open_sequence. apply paced_and_then; [apply paced_push|].
  intros s'. destruct (closing_bracket s'); [paced_by_fields | apply paced_refl].
Qed.

Lemma paced_processValue b key v cb s : paced b s (state_of (processValue key v cb s)).
Proof.
  unfold processValue.
  assert (Hprim : forall v',
            paced b s (state_of (call cb key s ;> fun s' =>
                                   match primitiveToString v' with
                                   | inl e => Throw e s'
                                   | inr str => push str s'
                                   end))).
  { intros v'. apply paced_and_then; [apply paced_call|].
    intros s'. destruct (primitiveToString v'); [apply paced_refl | apply paced_push]. }
  destruct (getType (heap_of s) (transform s key v));
    destruct (transform s key v) as [| | | | | | | |a];
    try apply paced_refl;
    try (destruct (negb (is_processObjectEntry cb) || _); [apply Hprim | apply paced_refl]).
  - (* deferred *) paced_by_fields.
  - (* sequence *)
    apply paced_and_then; [apply paced_call|]. intros s'.
    destruct (bool_decide _); [apply paced_abort|].
    set (s3 := with_visited _ s').
    apply (paced_trans _ _ s3); [paced_by_fields|].
    destruct (obj_shape _) as [| [|] | |]; first [apply paced_push | apply paced_open_sequence].
  - (* keyed collection *)
    apply paced_and_then; [apply paced_call|]. intros s'.
    destruct (bool_decide _); [apply paced_abort|].
    set (s3 := with_visited _ s').
    apply (paced_trans _ _ s3); [paced_by_fields|].
    destruct (object_keys _); [apply paced_push|].
    apply paced_and_then; [apply paced_push|]. intros s4. paced_by_fields.
  - (* byte producer *)
    apply paced_and_then; [apply paced_call|]. intros s'.
    destruct (obj_shape _) as [| | |st]; try apply paced_refl.
    destruct (readableEnded st); [apply paced_abort|].
    destruct (readableFlowing st); [apply paced_abort|]. paced_by_fields.
  - (* record producer *)
    apply paced_and_then; [apply paced_call|]. intros s'.
    destruct (obj_shape _) as [| | |st]; try apply paced_refl.
    destruct (readableEnded st); [apply paced_abort|].
    destruct (readableFlowing st); [apply paced_abort|].
    apply paced_and_then; [apply paced_push|]. intros s4.
    destruct (closing_bracket s4); [paced_by_fields | apply paced_refl].
Qed.

Lemma paced_stream_read b v s : paced b s (snd (stream_read v s)).
Proof.
  unfold stream_read. destruct v; try apply paced_refl.
  destruct (obj_shape _); try apply paced_refl.
  destruct (script _); [apply paced_refl | paced_by_fields].
Qed.

Lemma paced_streamReader b items current s :
  paced b s (state_of (streamReader items current s)).
Proof.
  unfold streamReader. pose proof (paced_stream_read b (fvalue current) s) as Hread.
  destruct (stream_read (fvalue current) s) as [data s1]. simpl in Hread.
  eapply paced_trans; [exact Hread|].
  destruct data as [unit|].
  - eapply paced_trans; [apply (paced_update_top b (set_firstRead false))|].
    destruct items; [|apply paced_push].
    apply paced_and_then; [apply paced_processValue|]. intros s'. apply paced_bump_index.
  - destruct (firstRead current); [apply paced_popStack | apply paced_update_top].
Qed.

Lemma paced_run_handler b current s : paced b s (state_of (run_handler current s)).
Proof.
  unfold run_handler. destruct (handler current).
  - apply paced_and_then; [apply paced_popStack|]. intros s'. apply paced_processValue.
  - apply paced_refl.
  - unfold push_node. destruct (fvalue current); try apply paced_popStack.
    apply paced_and_then; [apply paced_push|]. intros s'. apply paced_popStack.
  - unfold processObject. destruct (_ =? _).
    + apply paced_and_then; [|intros s'; apply paced_popStack].
      destruct (active_space s); [|apply paced_refl].
      destruct (negb _); [apply paced_push_indented | apply paced_refl].
    + apply paced_and_then; [apply paced_processValue|]. intros s'. apply paced_bump_index.
  - unfold processArray. destruct (_ =? _); [apply paced_popStack|].
    apply paced_and_then; [apply paced_processValue|]. intros s'. apply paced_bump_index.
  - apply paced_streamReader.
  - apply paced_streamReader.
Qed.

Lemma paced_drive b fuel : forall s exit,
  drive fuel s = Some exit -> paced b s (exit_state exit).
Proof.
  induction fuel as [|fuel IH]; intros s exit; simpl.
  - destruct (_stack s) as [|top prev]; [intros [= <-]; apply paced_refl|].
    destruct (awaiting top); [intros [= <-]; apply paced_refl | discriminate].
  - destruct (_stack s) as [|top prev]; [intros [= <-]; apply paced_refl|].
    destruct (awaiting top); [intros [= <-]; apply paced_refl|].
    pose proof (paced_run_handler b top s) as Hrun.
    destruct (run_handler top s) as [s'|e s']; simpl in Hrun.
    + destruct (_processing s'); [|intros [= <-]; exact Hrun].
      intros Hd. eapply paced_trans; [exact Hrun | by apply IH].
    + intros [= <-]. exact Hrun.
Qed.

Lemma finish_closing s :
  exists tail, output (state_of (finish s)) = output s ++ tail /\ closing tail.
Proof.
  unfold finish. destruct (is_null (_stack s) && negb (_ended s)).
  - simpl. destruct (0 <? _bufferOffset s).
    + destruct (_buffer s) as [buf|]; simpl.
      * eexists. split; [by rewrite <- app_assoc|]. right. right. by eexists.
      * exists []. split; [by rewrite app_nil_r | by left].
    + simpl. exists [EndOfStream]. split; [reflexivity | right; by left].
  - exists []. split; [by rewrite app_nil_r | by left].
Qed.

Lemma processStack_chunks b fuel s r :
  processStack fuel s = Some r -> lodged b s ->
  exists cs tail,
    output (state_of r) = output s ++ (Chunk <$> cs) ++ tail
    /\ Forall (fun c => List.length c = b) cs
    /\ closing tail.
Proof.
  unfold processStack. intros Hps Hl.
  destruct (_processing s || _ended s).
  { injection Hps as <-. exists [], []. simpl. rewrite app_nil_r. by repeat split; [|left]. }
  destruct (drive fuel (with_processing true s)) as [exit|] eqn:Hd; [|discriminate].
  destruct (paced_drive b fuel _ _ Hd Hl) as [_ (cs & Hout & Hall)]. simpl in Hout.
  destruct exit as [s'|s'|e s']; simpl in Hps, Hout; injection Hps as <-.
  - destruct (finish_closing (with_processing false s')) as (tail & Hf & Hc).
    exists cs, tail. rewrite Hf. simpl. rewrite Hout, <- app_assoc. by repeat split.
  - exists cs, []. simpl. rewrite Hout, app_nil_r. by repeat split; [|left].
  - exists cs, []. simpl. rewrite Hout, app_nil_r. by repeat split; [|left].
Qed.

(** What [_read] does before it starts the driver: the pull size is put
    in force and the buffer holds twice as many bytes. *)
Lemma read_allocates fuel size s :
  _ended s = false ->
  exists s1,
    _read fuel size s = processStack fuel s1
    /\ lodged (pull_size size s) s1
    /\ output s1 = output s.
Proof.
  intros Hend. unfold _read. rewrite Hend. fold (pull_size size s).
  set (b := pull_size size s). cbv zeta.
  change (_readSize (with_readSize b s)) with b.
  change (_buffer (with_readSize b s)) with (_buffer s).
  change (_bufferOffset (with_readSize b s)) with (_bufferOffset s).
  destruct (_buffer s) as [buf|] eqn:Hbuf.
  - destruct (Nat.ltb_spec (List.length buf) (2 * b)) as [Hlt|Hge].
    + eexists. split; [reflexivity|]. split; [|reflexivity].
      split; [reflexivity|]. eexists. split; [reflexivity|].
      destruct (0 <? _bufferOffset s).
      * unfold buffer_copy. rewrite length_app, length_drop, length_take, length_drop,
          length_replicate. lia.
      * rewrite length_replicate. lia.
    + eexists. split; [reflexivity|]. split; [|reflexivity].
      split; [reflexivity|]. exists buf. split; [exact Hbuf | lia].
  - eexists. split; [reflexivity|]. split; [|reflexivity].
    split; [reflexivity|]. eexists. split; [reflexivity|]. rewrite length_replicate. lia.
Qed.

(** In answer to a pull the encoder hands over whole chunks, each of
    exactly the pull size; only at the end of the stream can one more
    chunk follow, with the bytes that were still staged. *)
Theorem pull_hands_over_whole_chunks fuel size s r :
  _read fuel size s = Some r ->
  exists cs tail,
    output (state_of r) = output s ++ (Chunk <$> cs) ++ tail
    /\ Forall (fun c => List.length c = pull_size size s) cs
    /\ closing tail.
Proof.
  destruct (_ended s) eqn:Hend.
  { unfold _read. rewrite Hend. intros [= <-]. exists [], []. simpl. rewrite app_nil_r.
    by repeat split; [|left]. }
  destruct (read_allocates fuel size s Hend) as (s1 & -> & Hl & Hout).
  intros Hps. rewrite <- Hout. by apply (processStack_chunks _ fuel).
Qed.

Lemma pull_hands_over_whole_chunks_witness :
  exists cs tail,
    output (state_of three_items_pulled) = output three_items ++ (Chunk <$> cs) ++ tail
    /\ Forall (fun c => List.length c = pull_size 2 three_items) cs
    /\ closing tail.
Proof.
  apply (pull_hands_over_whole_chunks 10 2 three_items three_items_pulled).
  vm_compute. reflexivity.
Defined.

(** ** A pull while the encoder waits *)

(** While the frame on top of the stack is awaiting, a pull only puts
    its size in force and, when the buffer is too small for it, moves the
    staged bytes to a buffer of twice that size: nothing is handed over,
    the stack is as it was, and so is everything the encoder has
    produced. *)
Theorem pull_while_waiting fuel size s top rest buf :
  _stack s = top :: rest -> awaiting top = true ->
  _ended s = false -> _processing s = false ->
  _buffer s = Some buf -> _bufferOffset s <= List.length buf ->
  0 < size ->
  exists s',
    _read fuel size s = Some (Ok s')
    /\ _readSize s' = size
    /\ _stack s' = _stack s
    /\ output s' = output s
    /\ _bufferOffset s' = _bufferOffset s
    /\ emitted s' = emitted s
    /\ exists buf', _buffer s' = Some buf'
                    /\ 2 * size <= List.length buf'
                    /\ List.length buf <= List.length buf'.
Proof.
  intros Hstk Haw Hend Hproc Hbuf Hoff Hsize.
  unfold _read. rewrite Hend.
  destruct (Nat.eqb_spec size 0) as [|_]; [lia|]. cbv zeta.
  change (_readSize (with_readSize size s)) with size.
  change (_buffer (with_readSize size s)) with (_buffer s).
  change (_bufferOffset (with_readSize size s)) with (_bufferOffset s).
  rewrite Hbuf.
  assert (Hrun : forall s1,
            _stack s1 = _stack s -> _processing s1 = false -> _ended s1 = false ->
            processStack fuel s1 = Some (Ok (with_processing false s1))).
  { intros s1 Hs1 Hp1 He1. unfold processStack. rewrite Hp1, He1. simpl orb. cbv iota.
    rewrite (drive_suspended fuel (with_processing true s1) top rest);
      [|by rewrite <- Hstk, <- Hs1 | exact Haw].
    cbn [conclude]. unfold finish. simpl _stack. rewrite Hs1, Hstk. reflexivity. }
  destruct (Nat.ltb_spec (List.length buf) (2 * size)) as [Hlt|Hge].
  - rewrite Hrun by done. eexists. split; [reflexivity|]. simpl.
    repeat (split; [reflexivity|]).
    destruct (Nat.ltb_spec 0 (_bufferOffset s)) as [Hpos|Hzero].
    + split.
      * unfold emitted. simpl. rewrite Hbuf. simpl. f_equal.
        unfold buffer_copy. rewrite Nat.sub_0_r, drop_0, length_replicate.
        rewrite Nat.min_l by lia.
        by rewrite take_app_length' by (rewrite length_take; lia).
      * eexists. split; [reflexivity|].
        unfold buffer_copy. rewrite length_app, length_drop, length_take, length_drop,
          length_replicate. lia.
    + split.
      * assert (H0 : _bufferOffset s = 0) by (clear -Hzero; lia).
        unfold emitted. simpl. rewrite Hbuf, H0. reflexivity.
      * eexists. split; [reflexivity|]. rewrite length_replicate. lia.
  - rewrite Hrun by done. eexists. split; [reflexivity|]. simpl.
    repeat (split; [reflexivity|]).
    exists buf. split; [exact Hbuf | lia].
Qed.

(** ** Data read from a byte stream *)

Lemma stream_read_with_processing b v s :
  stream_read v (with_processing b s)
  = (fst (stream_read v s), with_processing b (snd (stream_read v s))).
Proof.
  unfold stream_read. destruct v; try reflexivity. simpl.
  destruct (obj_shape _); try reflexivity.
  destruct (script _); reflexivity.
Qed.

Lemma stream_read_quiet v s :
  let s1 := snd (stream_read v s) in
  _stack s1 = _stack s /\ _readSize s1 = _readSize s /\ _buffer s1 = _buffer s
  /\ _bufferOffset s1 = _bufferOffset s /\ output s1 = output s
  /\ _ended s1 = _ended s /\ pending s1 = pending s /\ ticks s1 = ticks s
  /\ replacer s1 = replacer s /\ space s1 = space s /\ _depth s1 = _depth s
  /\ _visited s1 = _visited s.
Proof.
  unfold stream_read. destruct v; try by repeat split.
  destruct (obj_shape _); try by repeat split.
  destruct (script _); by repeat split.
Qed.

(** A string read from a byte stream is written as it is, without quotes
    and without escapes, and the frame's [firstRead] flag is cleared. *)
Theorem byte_stream_data_is_raw size s top prev data :
  _stack s = top :: prev ->
  handler top = h_processReadableString ->
  fst (stream_read (fvalue top) s) = Some (VString data) ->
  roomy size s ->
  String.length data <= size ->
  exists s',
    run_handler top s = Ok s'
    /\ emitted s' = emitted s ++ bytes data
    /\ _stack s' = set_firstRead false top :: prev.
Proof.
  intros Hstk Hh Hread Hr Hfit.
  unfold run_handler. rewrite Hh. unfold processReadableString, streamReader.
  destruct (stream_read_quiet (fvalue top) s)
    as (Hs1 & Hrs & Hbuf & Hoff & Hout & Hend & Hpend & Hticks & _).
  destruct (stream_read (fvalue top) s) as [unit s1]. simpl in *. subst unit.
  set (s2 := update_top (set_firstRead false) s1).
  assert (Hs2 : _stack s2 = set_firstRead false top :: prev).
  { unfold s2, update_top. by rewrite Hs1, Hstk. }
  assert (Hfields : _readSize s2 = _readSize s /\ _buffer s2 = _buffer s
                    /\ _bufferOffset s2 = _bufferOffset s /\ output s2 = output s
                    /\ _ended s2 = _ended s /\ pending s2 = pending s /\ ticks s2 = ticks s).
  { unfold s2, update_top. rewrite Hs1, Hstk. simpl. by repeat split. }
  destruct Hfields as (Hrs2 & Hbuf2 & Hoff2 & Hout2 & Hend2 & Hpend2 & Hticks2).
  assert (Hr2 : roomy size s2).
  { destruct Hr as [(H1 & H2 & H3 & buf & H4 & H5) (H6 & H7 & H8)]. split.
    - split; [congruence|]. split; [exact H2|]. split; [congruence|].
      exists buf. split; [congruence | exact H5].
    - unfold quiet. by rewrite Hend2, Hpend2, Hticks2. }
  destruct (push_fits size data s2 Hr2 Hfit) as (s' & Hp & _ & He & Hs' & _).
  exists s'. split; [exact Hp|]. split; [|by rewrite Hs', Hs2].
  rewrite He. unfold emitted. by rewrite Hbuf2, Hoff2, Hout2.
Qed.

(** ** The pull size and the text *)

Lemma tree_run h v r sp size n t :
  unfold n h (normalizeReplacer r) EmptyString v = Some t ->
  NoDup (addrs t) ->
  widest (active_space (createJsonStringifyStream h v r sp)) 1 t <= size ->
  0 < size ->
  exists k, forall rounds fuel, k < rounds -> k <= fuel ->
    exists final,
      consume rounds fuel size (createJsonStringifyStream h v r sp) = Some (Ok final)
      /\ error_slot final = None
      /\ received (output final) = bytes (root_text h v r sp t).
Proof.
  intros Hunf Hnd Hw Hpos.
  set (s0 := createJsonStringifyStream h v r sp) in *.
  set (sA := first_pull size s0).
  pose proof (roomy_first_pull size h v r sp Hpos) as HrA. fold s0 sA in HrA.
  set (sB := with_stack [] (with_processing true sA)).
  assert (HrB : roomy size sB) by exact HrA.
  destruct (value_run size n EmptyString v cb_noop None t sB sB 0)
    as (k & s1 & s2 & Hpv & Hr1 & Hsteps & (Hprod & Hstk & _)); try done.
  simpl after_call in Hsteps. simpl cursor_stack in Hstk.
  assert (Hstep : steps 1 sA = Some s1).
  { apply (steps_one size sA (node h_root v) [] s1 HrA Hr1); [reflexivity | reflexivity |].
    exact Hpv. }
  pose proof (steps_app 1 k sA s1 s2 Hstep Hsteps) as Hall.
  exists (S (1 + k)). intros rounds fuel Hrounds Hfuel.
  destruct rounds as [|rounds]; [lia|].
  destruct (pulls_follow_steps size fuel (1 + k) sA s2 fuel rounds Hall HrA Hstk)
    as (final & Hrest & Hend & Herr & Hrec & Hlast); try lia.
  exists final. split; [|split].
  - unfold s0. rewrite consume_first_pull by exact Hpos. exact Hrest.
  - rewrite Herr. destruct Hprod as (_ & _ & Hu & _).
    destruct Hu as (_&_&_&_&_&_&_&->&_). reflexivity.
  - rewrite Hrec. destruct Hprod as (_ & -> & _). reflexivity.
Qed.



(** ** Witnesses *)

Lemma byte_stream_data_is_raw_witness :
  exists s',
    run_handler (hd (node h_noop VNull) (_stack attached)) attached = Ok s'
    /\ emitted s' = emitted attached ++ bytes "x"
    /\ _stack s' = [set_firstRead false (hd (node h_noop VNull) (_stack attached))].
Proof.
  apply (byte_stream_data_is_raw 16 attached (hd (node h_noop VNull) (_stack attached)) [] "x").
  - reflexivity.
  - reflexivity.
  - reflexivity.
  - split; [|by repeat split]. split; [reflexivity|]. split; [lia|]. split; [simpl; lia|].
    eexists. split; [reflexivity|]. vm_compute. lia.
  - simpl. lia.
Defined.

(** ** Text that does not fit the buffer *)

(** [push] cuts off what exceeds [_bufferOffset + _readSize], but the
    buffer of twice the pull size has only [2 * _readSize - _bufferOffset]
    bytes left. Text between the two is not split; [Buffer.write] stores
    the part that fits, the rest is lost: nothing of it is written and no
    node is pushed for it. *)
Theorem push_drops_what_does_not_fit size data s buf :
  _readSize s = size -> _buffer s = Some buf -> List.length buf = 2 * size ->
  _bufferOffset s < size ->
  String.length data <= _bufferOffset s + size ->
  2 * size - _bufferOffset s < String.length data ->
  exists s',
    push data s = Ok s'
    /\ emitted s' = emitted s ++ take (2 * size - _bufferOffset s) (bytes data)
    /\ _stack s' = _stack s.
Proof.
  intros Hrs Hbuf Hlen Hoff Hmax Hroom.
  unfold push. rewrite Hrs.
  destruct (Nat.ltb_spec (_bufferOffset s + size) (String.length data)) as [|_]; [lia|].
  unfold write_and_flush. rewrite Hbuf, Hrs. unfold buffer_write. rewrite length_bytes.
  set (off := _bufferOffset s) in *.
  rewrite Nat.min_r by lia. rewrite Hlen.
  replace (off + (2 * size - off)) with (2 * size) by lia.
  rewrite (drop_ge buf) by lia. rewrite app_nil_r.
  set (kept := take (2 * size - off) (bytes data)).
  assert (Hk : List.length kept = 2 * size - off).
  { unfold kept. rewrite length_take, length_bytes. lia. }
  set (buf' := take off buf ++ kept).
  assert (Hlen' : List.length buf' = 2 * size).
  { unfold buf'. rewrite length_app, length_take, Hk. lia. }
  destruct (Nat.ltb_spec (2 * size) size) as [|_]; [lia|].
  eexists. split; [reflexivity|]. split; [|reflexivity].
  unfold emitted. simpl. rewrite Hbuf. simpl. fold off.
  rewrite received_app. simpl. rewrite app_nil_r, <- !app_assoc. f_equal.
  unfold buffer_copy.
  replace (size + (size + 0) - size) with size by lia.
  rewrite Hlen', Nat.min_l by lia.
  rewrite (take_ge (drop size buf')) by (rewrite length_drop; lia).
  rewrite take_app_length' by (rewrite length_drop; lia).
  by rewrite take_drop.
Qed.

Lemma push_drops_what_does_not_fit_witness :
  exists s',
    push (quoteString "abcd") before_long_token = Ok s'
    /\ emitted s' = emitted before_long_token ++ take (2 * 4 - 3) (bytes (quoteString "abcd"))
    /\ _stack s' = _stack before_long_token.
Proof.
  apply (push_drops_what_does_not_fit 4 (quoteString "abcd") before_long_token
           (bytes "[1," ++ replicate 5 zero_byte)).
  - reflexivity.
  - reflexivity.
  - reflexivity.
  - simpl. lia.
  - simpl. lia.
  - simpl. lia.
Defined.

(** The whole run of that input: the closing quote of the string is
    missing from what the consumer receives. *)
Lemma long_token_loses_its_end :
  received_text
    (stringify 20 20 4 (<[ 1 := array [VNumber (Finite 1); VString "abcd"] ]> ∅) (VRef 1)
       ReplacerOther SpaceOther)
  = Some (json "[1,'abcd]").
Proof. vm_compute. reflexivity. Qed.

Lemma keeps_balance_refl s : keeps_balance s s.
Proof. by intros H. Qed.

Lemma keeps_balance_trans s1 s2 s3 :
  keeps_balance s1 s2 -> keeps_balance s2 s3 -> keeps_balance s1 s3.
Proof. unfold keeps_balance. auto. Qed.

Lemma keeps_balance_same s s' :
  _ended s' = _ended s -> _depth s' = _depth s ->
  nesting (_stack s') = nesting (_stack s) ->
  keeps_balance s s'.
Proof. intros He Hd Hn Hb He'. rewrite Hd, Hn. apply Hb. congruence. Qed.

Lemma keeps_balance_ended s s' : _ended s' = true -> keeps_balance s s'.
Proof. intros He _ He'. congruence. Qed.

Ltac balance_by_fields := apply keeps_balance_same; reflexivity.

Lemma nesting_alter f i stk :
  (forall x, handler (f x) = handler x) -> nesting (alter f i stk) = nesting stk.
Proof.
  intros Hf. revert i. induction stk as [|x stk IH]; intros [|i]; try reflexivity.
  - cbn [alter list_alter nesting]. by rewrite Hf.
  - cbn [alter list_alter nesting]. f_equal. apply IH.
Qed.

Lemma nesting_map f stk :
  (forall x, handler (f x) = handler x) -> nesting (map f stk) = nesting stk.
Proof.
  intros Hf. induction stk as [|x stk IH]; simpl; [reflexivity|]. by rewrite Hf, IH.
Qed.

Lemma kb_write_and_flush data s : keeps_balance s (state_of (write_and_flush data s)).
Proof.
  unfold write_and_flush. destruct (_buffer s); [|apply keeps_balance_refl].
  destruct (buffer_write _ _ _). destruct (_ <? _); balance_by_fields.
Qed.

Lemma kb_push data s : keeps_balance s (state_of (push data s)).
Proof.
  unfold push. destruct (_ <? String.length data).
  - eapply keeps_balance_trans; [|apply kb_write_and_flush]. balance_by_fields.
  - apply kb_write_and_flush.
Qed.

Lemma kb_and_then r k s :
  keeps_balance s (state_of r) ->
  (forall s', keeps_balance s' (state_of (k s'))) ->
  keeps_balance s (state_of (r ;> k)).
Proof.
  intros Hr Hk. destruct r as [s'|e s']; simpl in *; [|exact Hr].
  eapply keeps_balance_trans; [exact Hr | apply Hk].
Qed.

Lemma kb_push_indented sp n suffix s :
  keeps_balance s (state_of (push_indented sp n suffix s)).
Proof.
  unfold push_indented. destruct (js_repeat sp n); [apply kb_push | apply keeps_balance_refl].
Qed.

Lemma kb_update_top f s :
  (forall x, handler (f x) = handler x) -> keeps_balance s (update_top f s).
Proof.
  intros Hf. unfold update_top. destruct (_stack s) as [|top prev] eqn:Hstk;
    [apply keeps_balance_refl|].
  apply keeps_balance_same; try reflexivity. simpl. by rewrite Hstk, Hf.
Qed.

Lemma kb_bump_index height s : keeps_balance s (bump_index height s).
Proof.
  unfold bump_index. destruct (height <? _); [|apply keeps_balance_refl].
  apply keeps_balance_same; try reflexivity. simpl. by apply nesting_alter.
Qed.

Lemma kb_call cb key s : keeps_balance s (state_of (call cb key s)).
Proof.
  destruct cb; simpl; [apply keeps_balance_refl| |].
  - unfold processObjectEntry. destruct (_stack s) as [|current prev] eqn:Hstk;
      [apply keeps_balance_refl|].
    apply kb_and_then.
    + destruct (firstEntry current); [by apply kb_update_top | apply kb_push].
    + intros s'. destruct (active_space s'); [apply kb_push_indented | apply kb_push].
  - unfold processArrayItem. apply kb_and_then.
    + destruct (String.eqb key "0"); [apply keeps_balance_refl | apply kb_push].
    + intros s'. destruct (active_space s'); [apply kb_push_indented | apply keeps_balance_refl].
Qed.

Lemma kb_popStack s : keeps_balance s (state_of (popStack s)).
Proof.
  unfold popStack. destruct (_stack s) as [|top prev] eqn:Hstk; [apply keeps_balance_refl|].
  intros Hb He. simpl in *.
  destruct (leaves_guard (handler top)) eqn:Hg; simpl in *.
  - specialize (Hb He). rewrite Hstk in Hb. simpl in Hb. rewrite Hg in Hb. lia.
  - specialize (Hb He). rewrite Hstk in Hb. simpl in Hb. rewrite Hg in Hb. exact Hb.
Qed.

Lemma kb_abort e s : keeps_balance s (abort e s).
Proof. by apply keeps_balance_ended. Qed.

(** Two frames pushed with the depth raised by one: the frame of a
    collection or of an object stream, on top of the node of its closing
    bracket. *)
Lemma kb_open n close s :
  leaves_guard (handler n) = true ->
  keeps_balance s (with_depth (_depth s + 1) (pushStack n (pushStack (node h_push close) s))).
Proof.
  intros Hn Hb He. simpl in *. rewrite Hn. specialize (Hb He). lia.
Qed.

Lemma kb_attach_stream a st s :
  objectMode st = false -> keeps_balance s (attach_stream a st s).
Proof.
  intros Hm. unfold attach_stream. rewrite Hm.
  apply keeps_balance_same; reflexivity.
Qed.

Lemma kb_processValue key v cb s : keeps_balance s (state_of (processValue key v cb s)).
Proof.
  unfold processValue.
  assert (Hprim : forall v',
            keeps_balance s (state_of (call cb key s ;> fun s' =>
                                   match primitiveToString v' with
                                   | inl e => Throw e s'
                                   | inr str => push str s'
                                   end))).
  { intros v'. apply kb_and_then; [apply kb_call|].
    intros s'. destruct (primitiveToString v'); [apply keeps_balance_refl | apply kb_push]. }
  destruct (getType (heap_of s) (transform s key v)) eqn:Hty;
    destruct (transform s key v) as [| | | | | | | |a];
    try apply keeps_balance_refl;
    try (destruct (negb (is_processObjectEntry cb) || _); [apply Hprim | apply keeps_balance_refl]).
  - (* deferred *) balance_by_fields.
  - (* sequence *)
    apply kb_and_then; [apply kb_call|]. intros s'.
    destruct (bool_decide _); [apply kb_abort|].
    set (s3 := with_visited _ s').
    apply (keeps_balance_trans _ s3); [balance_by_fields|].
    assert (Hopen : keeps_balance s3 (state_of (open_sequence (node h_processArray (VRef a)) s3))).
    { unfold open_sequence. apply kb_and_then; [apply kb_push|].
      intros s4. destruct (closing_bracket s4); [by apply kb_open | apply keeps_balance_refl]. }
    destruct (obj_shape _) as [| [|] | |]; first [apply kb_push | exact Hopen].
  - (* keyed collection *)
    apply kb_and_then; [apply kb_call|]. intros s'.
    destruct (bool_decide _); [apply kb_abort|].
    set (s3 := with_visited _ s').
    apply (keeps_balance_trans _ s3); [balance_by_fields|].
    destruct (object_keys _); [apply kb_push|].
    apply kb_and_then; [apply kb_push|]. intros s4. by apply kb_open.
  - (* byte producer *)
    pose proof (call_same_sources cb key s) as Hsame. pose proof (kb_call cb key s) as Hcall.
    destruct (call cb key s) as [s'|e s']; simpl in *; [|exact Hcall].
    eapply keeps_balance_trans; [exact Hcall|]. destruct Hsame as (Hheap & _). rewrite Hheap.
    unfold getType in Hty.
    destruct (obj_shape (deref (heap_of s) a)) as [| | |st]; try discriminate Hty.
    destruct (objectMode st) eqn:Hmode; [discriminate Hty|].
    destruct (readableEnded st); [apply kb_abort|].
    destruct (readableFlowing st); [apply kb_abort|].
    by apply kb_attach_stream.
  - (* record producer *)
    pose proof (call_same_sources cb key s) as Hsame. pose proof (kb_call cb key s) as Hcall.
    destruct (call cb key s) as [s'|e s']; simpl in *; [|exact Hcall].
    eapply keeps_balance_trans; [exact Hcall|]. destruct Hsame as (Hheap & _). rewrite Hheap.
    unfold getType in Hty.
    destruct (obj_shape (deref (heap_of s) a)) as [| | |st]; try discriminate Hty.
    destruct (objectMode st) eqn:Hmode; [|discriminate Hty].
    destruct (readableEnded st); [apply kb_abort|].
    destruct (readableFlowing st); [apply kb_abort|].
    apply kb_and_then; [apply kb_push|]. intros s4.
    destruct (closing_bracket s4); [|apply keeps_balance_refl].
    intros Hb He. unfold attach_stream in *. rewrite Hmode. simpl in *.
    specialize (Hb He). lia.
Qed.

Lemma kb_stream_read v s : keeps_balance s (snd (stream_read v s)).
Proof.
  unfold stream_read. destruct v; try apply keeps_balance_refl.
  destruct (obj_shape _); try apply keeps_balance_refl.
  destruct (script _); [apply keeps_balance_refl | balance_by_fields].
Qed.

Lemma kb_streamReader items current s :
  keeps_balance s (state_of (streamReader items current s)).
Proof.
  unfold streamReader. pose proof (kb_stream_read (fvalue current) s) as Hread.
  destruct (stream_read (fvalue current) s) as [data s1]. simpl in Hread.
  eapply keeps_balance_trans; [exact Hread|].
  destruct data as [unit|].
  - eapply keeps_balance_trans; [by apply (kb_update_top (set_firstRead false))|].
    destruct items; [|apply kb_push].
    apply kb_and_then; [apply kb_processValue|]. intros s'. apply kb_bump_index.
  - destruct (firstRead current); [apply kb_popStack | by apply kb_update_top].
Qed.

Lemma kb_run_handler current s : keeps_balance s (state_of (run_handler current s)).
Proof.
  unfold run_handler. destruct (handler current).
  - apply kb_and_then; [apply kb_popStack|]. intros s'. apply kb_processValue.
  - apply keeps_balance_refl.
  - unfold push_node. destruct (fvalue current); try apply kb_popStack.
    apply kb_and_then; [apply kb_push|]. intros s'. apply kb_popStack.
  - unfold processObject. destruct (_ =? _).
    + apply kb_and_then; [|intros s'; apply kb_popStack].
      destruct (active_space s); [|apply keeps_balance_refl].
      destruct (negb _); [apply kb_push_indented | apply keeps_balance_refl].
    + apply kb_and_then; [apply kb_processValue|]. intros s'. apply kb_bump_index.
  - unfold processArray. destruct (_ =? _); [apply kb_popStack|].
    apply kb_and_then; [apply kb_processValue|]. intros s'. apply kb_bump_index.
  - apply kb_streamReader.
  - apply kb_streamReader.
Qed.

Lemma kb_drive fuel : forall s exit,
  drive fuel s = Some exit -> keeps_balance s (exit_state exit).
Proof.
  induction fuel as [|fuel IH]; intros s exit; simpl.
  - destruct (_stack s) as [|top prev]; [intros [= <-]; apply keeps_balance_refl|].
    destruct (awaiting top); [intros [= <-]; apply keeps_balance_refl | discriminate].
  - destruct (_stack s) as [|top prev]; [intros [= <-]; apply keeps_balance_refl|].
    destruct (awaiting top); [intros [= <-]; apply keeps_balance_refl|].
    pose proof (kb_run_handler top s) as Hrun.
    destruct (run_handler top s) as [s'|e s']; simpl in Hrun.
    + destruct (_processing s'); [|intros [= <-]; exact Hrun].
      intros Hd. eapply keeps_balance_trans; [exact Hrun | by apply IH].
    + intros [= <-]. exact Hrun.
Qed.

Lemma kb_finish s : keeps_balance s (state_of (finish s)).
Proof.
  unfold finish. destruct (is_null (_stack s) && negb (_ended s)); [|apply keeps_balance_refl].
  apply keeps_balance_ended. simpl.
  destruct (0 <? _bufferOffset s); [destruct (_buffer s)|]; reflexivity.
Qed.

Lemma kb_processStack fuel s r :
  processStack fuel s = Some r -> keeps_balance s (state_of r).
Proof.
  unfold processStack. destruct (_processing s || _ended s);
    [intros [= <-]; apply keeps_balance_refl|].
  destruct (drive fuel (with_processing true s)) as [exit|] eqn:Hd; [|discriminate].
  pose proof (kb_drive fuel _ _ Hd) as Hdrive.
  assert (H0 : keeps_balance s (with_processing true s)) by balance_by_fields.
  destruct exit as [s'|s'|e s']; simpl in *; intros [= <-].
  - eapply keeps_balance_trans; [exact H0|]. eapply keeps_balance_trans; [exact Hdrive|].
    eapply keeps_balance_trans; [|apply kb_finish]. balance_by_fields.
  - eapply keeps_balance_trans; [exact H0 | exact Hdrive].
  - by apply keeps_balance_ended.
Qed.

Lemma kb_read fuel size s r : _read fuel size s = Some r -> keeps_balance s (state_of r).
Proof.
  unfold _read. destruct (_ended s); [intros [= <-]; apply keeps_balance_refl|].
  cbv zeta. intros Hps. eapply keeps_balance_trans; [|exact (kb_processStack _ _ _ Hps)].
  apply keeps_balance_same;
    (destruct (_buffer _); [destruct (_ <? _)|]; reflexivity).
Qed.

Lemma kb_caught o r :
  caught o = Some r ->
  exists r0, o = Some r0
             /\ (_ended (state_of r) = true \/ r = r0).
Proof.
  destruct o as [[s'|e s']|]; simpl; intros [= <-]; eexists; split; try reflexivity.
  - by right.
  - by left.
Qed.

Lemma kb_settle fuel i s r : settle fuel i s = Some r -> keeps_balance s (state_of r).
Proof.
  unfold settle. destruct (pending s !! i) as [[[key a] cb]|]; [|intros [= <-]; apply keeps_balance_refl].
  set (s1 := with_pending _ s).
  assert (H1 : keeps_balance s s1) by balance_by_fields.
  destruct (obj_shape _) as [| |[resolved|e]|]; try (intros [= <-]; exact H1).
  - intros Hc. destruct (kb_caught _ _ Hc) as (r0 & Hr0 & [Hend|Heq]);
      [by apply keeps_balance_ended|]. subst r0.
    eapply keeps_balance_trans; [exact H1|].
    pose proof (kb_and_then (popStack s1) (processValue key resolved cb) s1
                  (kb_popStack s1) (fun s' => kb_processValue key resolved cb s')) as Hpv.
    destruct (popStack s1 ;> processValue key resolved cb) as [s'|e s']; simpl in Hpv.
    + eapply keeps_balance_trans; [exact Hpv | by apply (kb_processStack fuel)].
    + by injection Hr0 as <-.
  - intros [= <-]. by apply keeps_balance_ended.
Qed.

Lemma kb_continueProcessing fuel id s r :
  continueProcessing fuel id s = Some r -> keeps_balance s (state_of r).
Proof.
  unfold continueProcessing.
  destruct (List.find _ _) as [f|]; [|intros [= <-]; apply keeps_balance_refl].
  destruct (awaiting f); [|intros [= <-]; apply keeps_balance_refl].
  set (s' := with_stack _ s).
  assert (H1 : keeps_balance s s').
  { apply keeps_balance_same; try reflexivity. simpl. apply nesting_map.
    intros x. by destruct (is_self id x). }
  destruct (_stack s) as [|top prev]; [intros [= <-]; exact H1|].
  destruct (is_self id top); [|intros [= <-]; exact H1].
  intros Hps. eapply keeps_balance_trans; [exact H1 | by apply (kb_processStack fuel)].
Qed.

Lemma kb_notify fuel ids : forall s r,
  notify fuel ids s = Some r -> keeps_balance s (state_of r).
Proof.
  induction ids as [|id ids IH]; intros s r; simpl; [intros [= <-]; apply keeps_balance_refl|].
  destruct (continueProcessing fuel id s) as [[s'|e s']|] eqn:Hc; [|intros [= <-] |discriminate].
  - intros Hn. eapply keeps_balance_trans; [exact (kb_continueProcessing _ _ _ _ Hc) | by apply IH].
  - exact (kb_continueProcessing _ _ _ _ Hc).
Qed.

Lemma kb_iter_abort e n s : keeps_balance s (Nat.iter n (abort e) s).
Proof. destruct n; [apply keeps_balance_refl | by apply keeps_balance_ended]. Qed.

Lemma kb_handle fuel ev s r : handle fuel ev s = Some r -> keeps_balance s (state_of r).
Proof.
  destruct ev; simpl.
  - apply kb_read.
  - apply kb_settle.
  - apply kb_notify.
  - apply kb_notify.
  - intros [= <-]. eapply keeps_balance_trans; [|apply kb_iter_abort]. balance_by_fields.
Qed.

Lemma run_ticks_fields s :
  _ended (run_ticks s) = _ended s /\ _depth (run_ticks s) = _depth s
  /\ _stack (run_ticks s) = _stack s.
Proof.
  unfold run_ticks. simpl. generalize (ticks s). intros l. revert s.
  induction l as [|e l IH]; intros s; simpl; [by repeat split|].
  destruct (IH (abort_tick e s)) as (-> & -> & ->). by repeat split.
Qed.

Lemma kb_dispatch fuel ev s r : dispatch fuel ev s = Some r -> keeps_balance s (state_of r).
Proof.
  unfold dispatch. destruct (handle fuel ev s) as [[s'|e s']|] eqn:Hh; [|intros [= <-]|discriminate].
  - intros [= <-]. eapply keeps_balance_trans; [exact (kb_handle _ _ _ _ Hh)|].
    destruct (run_ticks_fields s') as (He & Hd & Hs). simpl.
    apply keeps_balance_same; [exact He | exact Hd | by rewrite Hs].
  - exact (kb_handle _ _ _ _ Hh).
Qed.

Lemma kb_run_events fuel evs : forall s r,
  run_events fuel evs s = Some r -> keeps_balance s (state_of r).
Proof.
  induction evs as [|ev evs IH]; intros s r; simpl; [intros [= <-]; apply keeps_balance_refl|].
  destruct (dispatch fuel ev s) as [[s'|e s']|] eqn:Hd; [|intros [= <-]|discriminate].
  - intros Hr. eapply keeps_balance_trans; [exact (kb_dispatch _ _ _ _ Hd) | by apply IH].
  - exact (kb_dispatch _ _ _ _ Hd).
Qed.

(** Whatever the consumer, the deferred values and the streams do, as
    long as the encoder has not ended its depth is the number of frames
    of collections and object streams on its stack; so it is never
    negative, and the indentation never asks [repeat] for a negative
    count. *)
Theorem depth_is_the_nesting fuel evs h v r sp res :
  run_events fuel evs (createJsonStringifyStream h v r sp) = Some res ->
  _ended (state_of res) = false ->
  _depth (state_of res) = Z.of_nat (nesting (_stack (state_of res)))
  /\ forall unit, js_repeat unit (_depth (state_of res)) <> None.
Proof.
  intros Hrun Hend.
  assert (Hb : balanced (state_of res)).
  { apply (kb_run_events fuel evs _ _ Hrun). intros _. reflexivity. }
  specialize (Hb Hend). split; [exact Hb|].
  intros unit. unfold js_repeat. rewrite Hb.
  by destruct (Z.ltb_spec (Z.of_nat (nesting (_stack (state_of res)))) 0) as [|_]; [lia|].
Qed.

(** ** Items read from an object stream *)


Lemma pull_while_waiting_witness :
  exists s',
    _read 0 8 waiting = Some (Ok s')
    /\ _readSize s' = 8
    /\ _stack s' = _stack waiting
    /\ output s' = output waiting
    /\ _bufferOffset s' = _bufferOffset waiting
    /\ emitted s' = emitted waiting
    /\ exists buf', _buffer s' = Some buf'
                    /\ 2 * 8 <= List.length buf'
                    /\ List.length (bytes "abc" ++ replicate 5 zero_byte) <= List.length buf'.
Proof.
  apply (pull_while_waiting 0 8 waiting (set_awaiting true (node h_noop VUndefined)) []
           (bytes "abc" ++ replicate 5 zero_byte));
    try reflexivity; simpl; lia.
Defined.

Lemma reentry_aborts_witness :
  processValue "self" (VRef 1) cb_noop inside_self
  = Ok (abort CircularStructure inside_self).
Proof.
  apply (reentry_aborts inside_self "self" (VRef 1) cb_noop 1).
  - reflexivity.
  - left. by eexists.
  - apply (bool_decide_unpack _). vm_compute. exact I.
Defined.

Lemma processObject_skips_omitted_witness :
  processObject (hd (node h_noop VNull) (_stack at_omitted_entry)) at_omitted_entry
  = Ok (with_stack
          [set_index 1 (hd (node h_noop VNull) (_stack at_omitted_entry));
           node h_push (VString "}")]
          at_omitted_entry).
Proof.
  apply (processObject_skips_omitted (hd (node h_noop VNull) (_stack at_omitted_entry))
           [node h_push (VString "}")] at_omitted_entry "a"); reflexivity.
Defined.

Lemma depth_is_the_nesting_witness :
  _depth (state_of three_items_run) = Z.of_nat (nesting (_stack (state_of three_items_run)))
  /\ forall unit, js_repeat unit (_depth (state_of three_items_run)) <> None.
Proof.
  apply (depth_is_the_nesting 10 [Pull 2; Pull 2]
           (<[ 1 := array [VNumber (Finite 1); VNumber (Finite 2); VNumber (Finite 3)] ]> ∅)
           (VRef 1) ReplacerOther SpaceOther three_items_run).
  - vm_compute. reflexivity.
  - vm_compute. reflexivity.
Defined.


(** The guard in [getData] changes nothing: the instance is the one the
    option value itself would give, without a replacer; it indents when
    the option is a number of at least one or a string that is not
    empty, and only then. *)
Theorem getData_stream_policy h data pretty :
  getData_stream h data pretty = createJsonStringifyStream h data ReplacerOther pretty
  /\ replacer (getData_stream h data pretty) = None
  /\ (active_space (getData_stream h data pretty) = None
      <-> match pretty with
          | SpaceNumber (Finite z) => (z < 1)%Z
          | SpaceNumber _ => True
          | SpaceString s => s = EmptyString
          | SpaceOther => True
          end).
Proof.
  assert (Heq : normalizeSpace (or_undefined pretty) = normalizeSpace pretty).
  { destruct pretty as [[[| |]| |]|[|]|]; reflexivity. }
  assert (H1 : getData_stream h data pretty
               = createJsonStringifyStream h data ReplacerOther pretty).
  { unfold getData_stream, createJsonStringifyStream. by rewrite Heq. }
  split; [exact H1|]. split; [reflexivity|].
  rewrite H1. unfold active_space. simpl.
  destruct pretty as [[z| |neg]|s|]; simpl; try tauto.
  - destruct (Z.ltb_spec z 1) as [Hlt|Hge]; [tauto|].
    split; [|lia]. destruct (Z.to_nat (Z.min z 10)) eqn:Hn; [lia | discriminate].
  - unfold slice_to. destruct s as [|c s]; [tauto|].
    simpl. split; discriminate.
Qed.

(** * The HTML compressed-data printer *)

Module PrinterFacts.
Import Printer.

Section Facts.


Variable maxChunkSize : nat.
Variable deflateRawSync inflateRawSync : list ascii -> list ascii.
Variable base64 : list ascii -> string.
Variable from_base64 : string -> list ascii.

Hypothesis max_positive : 0 < maxChunkSize.
Hypothesis inflate_deflate : forall b, inflateRawSync (deflateRawSync b) = b.
Hypothesis base64_inverse : forall b, from_base64 (base64 b) = b.

Local Abbreviation push_loop := (push_loop maxChunkSize deflateRawSync base64).
Local Abbreviation push := (push maxChunkSize deflateRawSync base64).
Local Abbreviation feed := (feed maxChunkSize deflateRawSync base64).
Local Abbreviation finish := (finish deflateRawSync base64).
Local Abbreviation flushBuffer := (flushBuffer deflateRawSync base64).
Local Abbreviation payloads := (payloads inflateRawSync from_base64).
Local Abbreviation payload := (payload inflateRawSync from_base64).
Local Abbreviation ready := (ready maxChunkSize).
Local Abbreviation full_scripts := (full_scripts maxChunkSize inflateRawSync from_base64).

Lemma appendBuffer_fits chunk p :
  bufferSize p + List.length chunk <= List.length (buffer p) ->
  exists p', appendBuffer chunk p = Some p'
    /\ List.length (buffer p') = List.length (buffer p)
    /\ bufferSize p' = bufferSize p + List.length chunk
    /\ staged p' = staged p ++ chunk.
Proof.
  intros Hfit. unfold appendBuffer.
  destruct (Nat.ltb_spec (List.length (buffer p)) (bufferSize p + List.length chunk)) as [H|H];
    [lia|].
  eexists; split; [reflexivity|]. unfold staged; simpl.
  assert (Ht : List.length (take (bufferSize p) (buffer p)) = bufferSize p)
    by (rewrite length_take; lia).
  repeat split.
  - rewrite !length_app, Ht, length_drop. lia.
  - rewrite app_assoc, take_app_length'; [reflexivity|].
    rewrite length_app, Ht. reflexivity.
Qed.

Lemma payload_flush p :
  payload (fst (flushBuffer p)) = Some (staged p).
Proof.
  unfold flushBuffer, staged; simpl.
  by rewrite base64_inverse, inflate_deflate.
Qed.

Lemma payloads_data b ts :
  payloads (DataScript (base64 (deflateRawSync b)) :: ts) = b :: payloads ts.
Proof.
  unfold payloads. simpl. by rewrite base64_inverse, inflate_deflate.
Qed.

Lemma push_loop_spec fuel : forall chunk p,
  ready p -> List.length chunk < fuel ->
  exists ts p',
    push_loop fuel chunk p = Some (ts, p')
    /\ ready p'
    /\ full_scripts ts
    /\ concat (payloads ts) ++ staged p' = staged p ++ chunk.
Proof.
  induction fuel as [|fuel IH]; intros chunk p [Hlen Hsize] Hfuel; [lia|].
  simpl.
  destruct (Nat.leb_spec maxChunkSize (bufferSize p + List.length chunk)) as [Hfull|Hroom].
  - set (used := maxChunkSize - bufferSize p).
    destruct (appendBuffer_fits (take used chunk) p) as (p1 & -> & Hlen1 & Hsize1 & Hst1).
    { rewrite length_take. lia. }
    simpl.
    assert (Hused : List.length (take used chunk) = used) by (rewrite length_take; lia).
    assert (Hp1 : bufferSize p1 = maxChunkSize) by (rewrite Hsize1, Hused; unfold used; lia).
    destruct (IH (drop used chunk) (Printer.Printer (buffer p1) 0)) as (ts & p' & -> & Hr & Hfs & Hcat).
    { split; simpl; [congruence | lia]. }
    { rewrite length_drop. unfold used. lia. }
    simpl. eexists _, p'. split; [reflexivity|]. split; [exact Hr|]. split.
    + constructor; [|exact Hfs].
      exists (staged p1). split.
      * pose proof (payload_flush p1) as Hpf. exact Hpf.
      * unfold staged. rewrite length_take. lia.
    + rewrite payloads_data. fold (staged p1). simpl.
      rewrite <- app_assoc, Hcat.
      change (staged (Printer.Printer (buffer p1) 0)) with (@nil ascii). simpl.
      rewrite Hst1, <- app_assoc, take_drop. reflexivity.
  - destruct (appendBuffer_fits chunk p) as (p1 & -> & Hlen1 & Hsize1 & Hst1); [lia|].
    simpl. eexists [], p1. split; [reflexivity|]. split; [split; lia|].
    split; [constructor|]. simpl. exact Hst1.
Qed.

Lemma full_scripts_app ts ts' :
  full_scripts ts -> full_scripts ts' -> full_scripts (ts ++ ts').
Proof. apply Forall_app_2. Qed.

Lemma payloads_app ts ts' : payloads (ts ++ ts') = payloads ts ++ payloads ts'.
Proof. apply omap_app. Qed.

Lemma feed_spec chunks : forall p,
  ready p ->
  exists ts p',
    feed chunks p = Some (ts, p')
    /\ ready p'
    /\ full_scripts ts
    /\ concat (payloads ts) ++ staged p' = staged p ++ concat chunks.
Proof.
  induction chunks as [|chunk rest IH]; intros p Hp.
  - exists [], p. simpl. rewrite app_nil_r. repeat split; try apply Hp. constructor.
  - simpl. unfold Printer.push.
    destruct (push_loop_spec (S (List.length chunk)) chunk p Hp) as (ts & p1 & -> & Hp1 & Hfs & Hcat);
      [lia|].
    cbn [mbind option_bind].
    destruct (IH p1 Hp1) as (ts' & p2 & -> & Hp2 & Hfs' & Hcat').
    simpl. exists (ts ++ ts'), p2. split; [reflexivity|]. split; [exact Hp2|].
    split; [by apply full_scripts_app|].
    rewrite payloads_app, concat_app, <- app_assoc, Hcat', app_assoc, Hcat, app_assoc.
    reflexivity.
Qed.

Lemma full_scripts_payloads ts :
  full_scripts ts ->
  List.length (payloads ts) = List.length ts
  /\ Forall (fun b => List.length b = maxChunkSize) (payloads ts).
Proof.
  induction 1 as [|t ts (b & Hb & Hlen) _ [IH1 IH2]]; [by split|].
  unfold payloads in *. simpl. rewrite Hb. simpl. split; [f_equal; exact IH1|]. by constructor.
Qed.

Lemma ready_create : ready (create maxChunkSize).
Proof. split; simpl; [apply length_replicate | exact max_positive]. Qed.

Lemma staged_create : staged (create maxChunkSize) = [].
Proof. reflexivity. Qed.

(** C10. Whatever chunks are pushed, the printer returns its scripts;
    the payloads of the data scripts, inflated, are the chunks'
    concatenation when put end to end; the finish script comes last and
    is the only script without a payload; no payload is empty or longer
    than [maxChunkSize], and every payload but the last has exactly that
    length. *)
Theorem print_chunks_roundtrip (chunks : list (list ascii)) :
  exists ts,
    print maxChunkSize deflateRawSync base64 chunks = Some ts
    /\ concat (payloads ts) = concat chunks
    /\ last ts = Some FinishScript
    /\ List.length (payloads ts) = List.length ts - 1
    /\ (forall i b, payloads ts !! i = Some b ->
          0 < List.length b <= maxChunkSize
          /\ (S i < List.length (payloads ts) -> List.length b = maxChunkSize)).
Proof.
  unfold print.
  destruct (feed_spec chunks _ ready_create) as (ts & p & -> & [Hlen Hsize] & Hfs & Hcat).
  rewrite staged_create in Hcat. simpl in Hcat. simpl.
  destruct (full_scripts_payloads ts Hfs) as [Hn Hall].
  unfold Printer.finish.
  destruct (Nat.ltb_spec 0 (bufferSize p)) as [Hpos|Hzero].
  - simpl. eexists. split; [reflexivity|].
    assert (Hpl : payloads (ts ++ [DataScript (base64 (deflateRawSync (take (bufferSize p) (buffer p)))); FinishScript])
                  = payloads ts ++ [staged p]).
    { rewrite payloads_app. f_equal. by rewrite payloads_data. }
    rewrite Hpl. split; [|split; [|split]].
    + rewrite concat_app. simpl. rewrite app_nil_r. exact Hcat.
    + rewrite last_app. reflexivity.
    + rewrite !length_app, Hn. simpl. lia.
    + intros i b Hi. rewrite length_app. simpl.
      destruct (decide (i < List.length (payloads ts))) as [Hlt|Hge].
      * rewrite lookup_app_l in Hi by exact Hlt.
        pose proof (proj1 (Forall_lookup _ _) Hall i b Hi) as Hb. simpl in Hb. lia.
      * rewrite lookup_app_r in Hi by lia.
        destruct (i - List.length (payloads ts)) as [|k] eqn:Hk; simpl in Hi; [|by destruct k].
        injection Hi as <-. unfold staged. rewrite length_take. split; [lia|]. lia.
  - simpl. eexists. split; [reflexivity|].
    assert (Hst : staged p = []) by (unfold staged; replace (bufferSize p) with 0 by lia; reflexivity).
    rewrite Hst, app_nil_r in Hcat.
    rewrite payloads_app. unfold payloads at 2 4 6. simpl. rewrite !app_nil_r.
    split; [exact Hcat|]. split; [by rewrite last_app|]. split.
    + rewrite length_app, Hn. simpl. lia.
    + intros i b Hi.
      pose proof (proj1 (Forall_lookup _ _) Hall i b Hi) as Hb. simpl in Hb. lia.
Qed.

End Facts.

(** The identity as codec, and a buffer of four bytes. *)
Lemma print_chunks_roundtrip_witness :
  exists ts,
    print 4 (fun b => b) string_of_list_ascii [bytes "hello "; bytes "world"] = Some ts
    /\ concat (payloads (fun b => b) list_ascii_of_string ts)
       = concat [bytes "hello "; bytes "world"]
    /\ last ts = Some FinishScript
    /\ List.length (payloads (fun b => b) list_ascii_of_string ts) = List.length ts - 1
    /\ (forall i b, payloads (fun b => b) list_ascii_of_string ts !! i = Some b ->
          0 < List.length b <= 4
          /\ (S i < List.length (payloads (fun b => b) list_ascii_of_string ts) ->
              List.length b = 4)).
Proof.
  apply (print_chunks_roundtrip 4 (fun b => b) (fun b => b) string_of_list_ascii
           list_ascii_of_string).
  - lia.
  - reflexivity.
  - apply list_ascii_of_string_of_list_ascii.
Defined.

(** With a chunk size of zero the loop of [push] flushes an empty buffer
    at every turn and never ends. *)
Lemma zero_chunk_size_never_ends deflate b64 chunk : forall fuel,
  push_loop 0 deflate b64 fuel chunk (create 0) = None.
Proof.
  induction fuel as [|fuel IH]; [reflexivity|].
  change (push_loop 0 deflate b64 (S fuel) chunk (create 0))
    with (push_loop 0 deflate b64 fuel chunk (create 0) ≫= fun '(ts, p3) =>
            Some (DataScript (b64 (deflate [])) :: ts, p3)).
  by rewrite IH.
Qed.

(** ** How the chunks are cut *)

Section Chunking.

Variable maxChunkSize : nat.
Variable deflateRawSync : list ascii -> list ascii.
Variable base64 : list ascii -> string.

Hypothesis max_positive : 0 < maxChunkSize.

Local Abbreviation push_loop := (push_loop maxChunkSize deflateRawSync base64).
Local Abbreviation push := (push maxChunkSize deflateRawSync base64).
Local Abbreviation feed := (feed maxChunkSize deflateRawSync base64).
Local Abbreviation print := (print maxChunkSize deflateRawSync base64).
Local Abbreviation finish := (finish deflateRawSync base64).
Local Abbreviation flushBuffer := (flushBuffer deflateRawSync base64).
Local Abbreviation ready := (ready maxChunkSize).

Lemma appendBuffer_value chunk p :
  bufferSize p + List.length chunk <= List.length (buffer p) ->
  appendBuffer chunk p
  = Some (Printer.Printer
            (take (bufferSize p) (buffer p) ++ chunk
               ++ drop (bufferSize p + List.length chunk) (buffer p))
            (bufferSize p + List.length chunk)).
Proof.
  intros Hfit. unfold appendBuffer.
  by destruct (Nat.ltb_spec (List.length (buffer p)) (bufferSize p + List.length chunk));
    [lia|].
Qed.

(** Appending two chunks in turn is appending them joined. *)
Lemma appendBuffer_app x y p :
  bufferSize p + List.length x + List.length y <= List.length (buffer p) ->
  appendBuffer (x ++ y) p = appendBuffer x p ≫= appendBuffer y.
Proof.
  intros Hfit.
  rewrite (appendBuffer_value (x ++ y)) by (rewrite length_app; lia).
  rewrite (appendBuffer_value x) by lia. cbn [mbind option_bind].
  set (bs := bufferSize p) in *. set (buf := buffer p) in *.
  assert (Hlen1 : List.length (take bs buf ++ x) = bs + List.length x).
  { rewrite length_app, length_take. lia. }
  rewrite appendBuffer_value; cbn [buffer bufferSize].
  - f_equal. rewrite length_app, Nat.add_assoc. f_equal.
    rewrite (app_assoc (take bs buf) x (drop _ buf)).
    rewrite take_app_length' by (by rewrite Hlen1).
    rewrite drop_app_ge by lia. rewrite Hlen1, drop_drop.
    rewrite <- !app_assoc. do 4 f_equal. lia.
  - rewrite !length_app, length_take, length_drop. lia.
Qed.

Lemma ready_flushed p :
  List.length (buffer p) = maxChunkSize -> ready (Printer.Printer (buffer p) 0).
Proof. intros H. split; [exact H | exact max_positive]. Qed.

(** One turn of the loop of [push]. *)
Lemma push_loop_turn fuel chunk p :
  ready p -> maxChunkSize <= bufferSize p + List.length chunk ->
  exists p1,
    appendBuffer (take (maxChunkSize - bufferSize p) chunk) p = Some p1
    /\ List.length (buffer p1) = maxChunkSize
    /\ push_loop (S fuel) chunk p
       = push_loop fuel (drop (maxChunkSize - bufferSize p) chunk) (snd (flushBuffer p1))
           ≫= fun '(ts, p3) => Some (fst (flushBuffer p1) :: ts, p3).
Proof.
  intros [Hlen Hsize] Hfull.
  assert (Hfit : bufferSize p + List.length (take (maxChunkSize - bufferSize p) chunk)
                 <= List.length (buffer p)) by (rewrite length_take; lia).
  eexists. split; [apply (appendBuffer_value _ _ Hfit)|]. split.
  - cbn [buffer]. rewrite !length_app, length_take, length_take, length_drop. lia.
  - cbn [Printer.push_loop].
    destruct (Nat.leb_spec maxChunkSize (bufferSize p + List.length chunk)) as [_|]; [|lia].
    rewrite (appendBuffer_value _ _ Hfit). reflexivity.
Qed.

Lemma push_loop_last fuel chunk p :
  bufferSize p + List.length chunk < maxChunkSize ->
  push_loop fuel chunk p = appendBuffer chunk p ≫= fun p1 => Some ([], p1).
Proof.
  intros Hroom. destruct fuel; cbn [Printer.push_loop];
    by destruct (Nat.leb_spec maxChunkSize (bufferSize p + List.length chunk)); [lia|].
Qed.

(** The loop ends within as many turns as the chunk has bytes, yields as
    many scripts as the staged bytes and the chunk fill buffers, and
    leaves the rest staged. *)
Lemma push_loop_total fuel : forall chunk p,
  ready p -> List.length chunk < fuel ->
  exists ts p',
    push_loop fuel chunk p = Some (ts, p')
    /\ ready p'
    /\ List.length ts = (bufferSize p + List.length chunk) / maxChunkSize
    /\ bufferSize p' = (bufferSize p + List.length chunk) mod maxChunkSize.
Proof.
  induction fuel as [|fuel IH]; intros chunk p Hp Hfuel; [lia|].
  pose proof Hp as [Hlen Hsize].
  destruct (Nat.le_gt_cases maxChunkSize (bufferSize p + List.length chunk)) as [Hfull|Hroom].
  - destruct (push_loop_turn fuel chunk p Hp Hfull) as (p1 & Hp1 & Hlen1 & ->).
    set (used := maxChunkSize - bufferSize p) in *.
    destruct (IH (drop used chunk) (snd (flushBuffer p1))) as (ts & p' & -> & Hr & Hn & Hm).
    { apply ready_flushed. exact Hlen1. }
    { rewrite length_drop. unfold used. lia. }
    cbn [mbind option_bind]. eexists _, p'. split; [reflexivity|]. split; [exact Hr|].
    cbn [bufferSize flushBuffer Printer.flushBuffer snd] in Hn, Hm.
    rewrite length_drop in Hn, Hm.
    replace (bufferSize p + List.length chunk)
      with ((List.length chunk - used) + 1 * maxChunkSize) by (unfold used; lia).
    rewrite Nat.div_add, Nat.Div0.mod_add by lia. simpl in *. split; lia.
  - rewrite push_loop_last by exact Hroom.
    rewrite appendBuffer_value by lia. cbn [mbind option_bind].
    eexists _, _. split; [reflexivity|]. split.
    + split; cbn [buffer bufferSize]; [|lia].
      rewrite !length_app, length_take, length_drop. lia.
    + cbn [bufferSize]. rewrite Nat.div_small, Nat.mod_small by lia. by split.
Qed.

(** More turns than the loop needs change nothing. *)
Lemma push_loop_fuel fuel : forall fuel' chunk p,
  ready p -> List.length chunk < fuel -> List.length chunk < fuel' ->
  push_loop fuel chunk p = push_loop fuel' chunk p.
Proof.
  induction fuel as [|fuel IH]; intros fuel' chunk p Hp Hf Hf'; [lia|].
  destruct fuel' as [|fuel']; [lia|].
  pose proof Hp as [Hlen Hsize].
  destruct (Nat.le_gt_cases maxChunkSize (bufferSize p + List.length chunk)) as [Hfull|Hroom].
  - destruct (push_loop_turn fuel chunk p Hp Hfull) as (p1 & Hp1 & Hlen1 & ->).
    destruct (push_loop_turn fuel' chunk p Hp Hfull) as (p1' & Hp1' & _ & ->).
    rewrite Hp1 in Hp1'. injection Hp1' as <-.
    rewrite (IH fuel'); [reflexivity | by apply ready_flushed | |];
      rewrite length_drop; lia.
  - by rewrite !push_loop_last.
Qed.

(** A chunk that leaves room, then a second chunk: the loop runs as on
    the second chunk alone. *)
Lemma push_loop_staged fuel : forall fuel' c1 c2 p p1,
  ready p -> bufferSize p + List.length c1 < maxChunkSize ->
  appendBuffer c1 p = Some p1 ->
  List.length (c1 ++ c2) < fuel -> List.length c2 < fuel' ->
  push_loop fuel (c1 ++ c2) p = push_loop fuel' c2 p1.
Proof.
  intros fuel' c1 c2 p p1 Hp Hroom Hp1 Hf Hf'.
  pose proof Hp as [Hlen Hsize].
  rewrite appendBuffer_value in Hp1 by lia.
  assert (Hbs1 : bufferSize p1 = bufferSize p + List.length c1) by (by injection Hp1 as <-).
  assert (Hlen1 : List.length (buffer p1) = maxChunkSize).
  { injection Hp1 as <-. cbn [buffer]. rewrite !length_app, length_take, length_drop. lia. }
  assert (Hr1 : ready p1) by (split; [exact Hlen1 | lia]).
  rewrite length_app in Hf.
  destruct (Nat.le_gt_cases maxChunkSize (bufferSize p + List.length c1 + List.length c2))
    as [Hfull|Hrest].
  - destruct fuel as [|fuel]; [lia|]. destruct fuel' as [|fuel']; [lia|].
    destruct (push_loop_turn fuel (c1 ++ c2) p Hp) as (pa & Hpa & Hlena & ->);
      [rewrite length_app; lia|].
    destruct (push_loop_turn fuel' c2 p1 Hr1) as (pb & Hpb & Hlenb & ->); [lia|].
    set (used := maxChunkSize - bufferSize p) in *.
    set (used' := maxChunkSize - bufferSize p1) in *.
    assert (Hused : used = List.length c1 + used') by (unfold used, used'; lia).
    assert (Htake : take used (c1 ++ c2) = c1 ++ take used' c2).
    { rewrite Hused, take_app_ge by lia. do 2 f_equal. lia. }
    assert (Hdrop : drop used (c1 ++ c2) = drop used' c2).
    { rewrite Hused, drop_app_ge by lia. f_equal. lia. }
    assert (Hsame : pa = pb).
    { rewrite Htake, appendBuffer_app in Hpa.
      - rewrite appendBuffer_value, Hp1 in Hpa by lia. cbn [mbind option_bind] in Hpa.
        congruence.
      - rewrite length_take. lia. }
    subst pb. rewrite Hdrop.
    rewrite (push_loop_fuel fuel fuel'); [reflexivity | by apply ready_flushed | |];
      rewrite length_drop; lia.
  - rewrite !push_loop_last by (rewrite ?length_app; lia).
    rewrite appendBuffer_app by lia.
    rewrite (appendBuffer_value c1), Hp1 by lia. reflexivity.
Qed.

(** The loop on two chunks joined is the loop on the first, then on the
    second. *)
Lemma push_loop_app fuel1 : forall fuel fuel2 c1 c2 p,
  ready p ->
  List.length c1 < fuel1 -> List.length (c1 ++ c2) < fuel -> List.length c2 < fuel2 ->
  push_loop fuel (c1 ++ c2) p
  = push_loop fuel1 c1 p ≫= fun '(ts1, p1) =>
    push_loop fuel2 c2 p1 ≫= fun '(ts2, p2) => Some (ts1 ++ ts2, p2).
Proof.
  induction fuel1 as [|fuel1 IH]; intros fuel fuel2 c1 c2 p Hp Hf1 Hf Hf2; [lia|].
  pose proof Hp as [Hlen Hsize].
  destruct (Nat.le_gt_cases maxChunkSize (bufferSize p + List.length c1)) as [Hfull|Hroom].
  - destruct fuel as [|fuel]; [lia|].
    destruct (push_loop_turn fuel1 c1 p Hp Hfull) as (p1 & Hp1 & Hlen1 & ->).
    destruct (push_loop_turn fuel (c1 ++ c2) p Hp) as (pa & Hpa & _ & ->);
      [rewrite length_app; lia|].
    set (used := maxChunkSize - bufferSize p) in *.
    rewrite take_app_le in Hpa by (unfold used; lia).
    rewrite Hp1 in Hpa. injection Hpa as <-.
    rewrite drop_app_le by (unfold used; lia).
    rewrite (IH fuel fuel2); [|by apply ready_flushed| | |exact Hf2].
    + destruct (push_loop fuel1 (drop used c1) _) as [[ts1 p2]|]; [|reflexivity].
      cbn [mbind option_bind].
      destruct (push_loop fuel2 c2 p2) as [[ts2 p3]|]; reflexivity.
    + rewrite length_drop. unfold used. lia.
    + rewrite length_app, length_drop. rewrite length_app in Hf. unfold used. lia.
  - rewrite (push_loop_last (S fuel1) c1) by exact Hroom.
    rewrite appendBuffer_value by lia. cbn [mbind option_bind].
    assert (Hfit : bufferSize p + List.length c1 <= List.length (buffer p)) by lia.
    rewrite (push_loop_staged fuel fuel2 c1 c2 p _ Hp Hroom (appendBuffer_value _ _ Hfit))
      by assumption.
    destruct (push_loop fuel2 c2 _) as [[ts2 p2]|]; reflexivity.
Qed.

Lemma push_app c1 c2 p :
  ready p ->
  push (c1 ++ c2) p
  = push c1 p ≫= fun '(ts1, p1) =>
    push c2 p1 ≫= fun '(ts2, p2) => Some (ts1 ++ ts2, p2).
Proof. intros Hp. unfold Printer.push. apply push_loop_app; [exact Hp | lia..]. Qed.

Lemma push_nil p : ready p -> push [] p = Some ([], p).
Proof.
  intros [Hlen Hsize]. unfold Printer.push. rewrite push_loop_last by (simpl; lia).
  rewrite appendBuffer_value by (simpl; lia). simpl.
  rewrite Nat.add_0_r, take_drop. by destruct p.
Qed.

Lemma feed_concat chunks : forall p,
  ready p -> feed chunks p = feed [concat chunks] p.
Proof.
  induction chunks as [|c rest IH]; intros p Hp.
  - simpl. by rewrite (push_nil p Hp).
  - cbn [Printer.feed concat]. rewrite push_app by exact Hp.
    destruct (push_loop_total (S (List.length c)) c p Hp) as (ts1 & p1 & Hpush & Hp1 & _);
      [lia|].
    fold (push c p) in Hpush. rewrite Hpush. cbn [mbind option_bind].
    rewrite (IH p1 Hp1). cbn [Printer.feed].
    destruct (push (concat rest) p1) as [[ts2 p2]|]; [|reflexivity].
    cbn [mbind option_bind]. by rewrite !app_nil_r.
Qed.

Lemma ready_fresh : ready (create maxChunkSize).
Proof. split; simpl; [apply length_replicate | exact max_positive]. Qed.

(** The scripts depend on the bytes pushed, not on how they are cut into
    chunks: pushing the chunks one by one gives the scripts that pushing
    their concatenation at once gives. *)
Theorem print_concat chunks :
  print chunks = print [concat chunks].
Proof. unfold Printer.print. by rewrite (feed_concat chunks _ ready_fresh). Qed.

(** The number of scripts: one for every [maxChunkSize] bytes pushed, one
    for the bytes left over when there are any, and the finish script. *)
Theorem print_script_count chunks :
  let n := List.length (concat chunks) in
  exists ts,
    print chunks = Some ts
    /\ List.length ts
       = n / maxChunkSize + (if n mod maxChunkSize =? 0 then 0 else 1) + 1.
Proof.
  intros n. rewrite print_concat. unfold Printer.print. cbn [Printer.feed].
  destruct (push_loop_total (S n) (concat chunks) (create maxChunkSize) ready_fresh)
    as (ts & p & Hpush & _ & Hn & Hm); [unfold n; lia|].
  fold n in Hn, Hm. simpl in Hn, Hm.
  unfold Printer.push. fold n. rewrite Hpush. cbn [mbind option_bind].
  eexists. split; [reflexivity|].
  rewrite app_nil_r, length_app, Hn. unfold Printer.finish. rewrite Hm.
  destruct (Nat.eqb_spec (n mod maxChunkSize) 0) as [->|Hne]; [simpl; lia|].
  destruct (Nat.ltb_spec 0 (n mod maxChunkSize)) as [_|]; [simpl; lia | lia].
Qed.

End Chunking.

Lemma print_concat_witness :
  print 4 (fun b => b) string_of_list_ascii [bytes "hello "; bytes "world"]
  = print 4 (fun b => b) string_of_list_ascii [concat [bytes "hello "; bytes "world"]].
Proof. apply (print_concat 4 (fun b => b) string_of_list_ascii). lia. Defined.

Lemma print_script_count_witness :
  exists ts,
    print 4 (fun b => b) string_of_list_ascii [bytes "hello "; bytes "world"] = Some ts
    /\ List.length ts = 11 / 4 + (if 11 mod 4 =? 0 then 0 else 1) + 1.
Proof.
  apply (print_script_count 4 (fun b => b) string_of_list_ascii ltac:(lia)
           [bytes "hello "; bytes "world"]).
Defined.

End PrinterFacts.
